(** * A verified model of [Vector<T>] (src/vector.h)

    The class is a resizable array: two [size_t] fields ([sz], [max_sz]) and
    a [std::unique_ptr<T[]>] that owns the element buffer.  The embedding
    keeps that shape.  A program state holds the [Vector] objects by address,
    the heap blocks that [make_unique] has handed out, and the next block
    number.  Member functions are computations in a state monad whose results
    are a value, a thrown C++ exception (with the state at the throw), or
    undefined behaviour (a raw access outside a live block, a subtraction of
    pointers into different blocks).

    Conventions of the embedding:
    - [size_t] values are integers in [[0, 2^64)]; every operation the
      source performs on them is followed by [wrap].
    - A counted [for] loop whose bounds its body leaves alone runs the body
      over the list of its index values, in the loop's order.
    - The allocator's answer is a parameter of every call: under the limit
      [max_alloc], at most [PTRDIFF_MAX], a request for at most [max_alloc]
      slots is granted and a longer one is refused with [std::bad_alloc].
      A member function makes at most one request, so the limit of a call
      stands for the answer to that request.  The specifications under
      [wf] describe a program running under one limit; those under [valid]
      and [run] let the limit change from call to call, so that a size
      granted once can be refused later.
    - A [const_reference] parameter is a reference: either to an object of
      the caller's that no container owns, or to a slot of a buffer, read
      where the source reads it. *)

From Stdlib Require Import ZArith Lia.
From stdpp Require Import base gmap list strings pretty.

Local Open Scope Z_scope.

(** ** Machine integers *)

Module SizeT.
(** [std::size_t] is a 64-bit unsigned integer; its arithmetic wraps. *)
Definition modulus : Z := 2 ^ 64.
Definition wrap (z : Z) : Z := z mod modulus.
(** [std::ptrdiff_t] is the signed type of the same width. *)
Definition ptrdiff_min : Z := - 2 ^ 63.
Definition ptrdiff_max : Z := 2 ^ 63 - 1.
Definition in_ptrdiff (z : Z) : Prop := ptrdiff_min <= z <= ptrdiff_max.

Lemma wrap_small z : 0 <= z < modulus -> wrap z = z.
Proof. intros. unfold wrap. now apply Z.mod_small. Qed.

Lemma wrap_range z : 0 <= wrap z < modulus.
Proof. unfold wrap, modulus. apply Z.mod_pos_bound. lia. Qed.
End SizeT.
Import SizeT.

(** ** Exceptions, outcomes, pointers *)

Inductive exception : Type :=
| runtime_error (what : string)
| bad_alloc.

Inductive outcome (A : Type) : Type :=
| Ret (a : A)
| Throw (e : exception)
| Undef.
Arguments Ret {A} a.
Arguments Throw {A} e.
Arguments Undef {A}.

(** A raw pointer is a heap block and a slot offset inside it. *)
Record pointer : Type := Ptr { blk : nat; off : Z }.

(** Both cursor classes wrap one raw pointer ([ptr]). *)
Record Iterator : Type := mkIterator { it_ptr : pointer }.
Record ConstIterator : Type := mkConstIterator { cit_ptr : pointer }.

(** [operator ConstIterator() const] of [Iterator]. *)
Definition to_ConstIterator (it : Iterator) : ConstIterator :=
  mkConstIterator (it_ptr it).
Coercion to_ConstIterator : Iterator >-> ConstIterator.

(** The three data members of the class; [values] is the owning pointer,
    kept as the number of the block it owns. *)
Record Vector : Type := mkVector { sz : Z; max_sz : Z; values : nat }.

Definition min_capacity : Z := 5.

(** What the element type [T] must provide: value-initialisation ([T()],
    which [make_unique<T[]>] applies to every slot). *)
Class ValueInit (T : Type) : Type := value_init : T.

Global Instance Z_ValueInit : ValueInit Z := 0.

Section Model.
Context {T : Type} `{ValueInit T}.

(** The largest array length the allocator grants to the call at hand;
    any larger request throws [std::bad_alloc].  Every function that
    allocates takes it as an argument, so two calls of one program may
    run under different limits.  No array is longer than [PTRDIFF_MAX]. *)
Variable max_alloc : Z.

Record state : Type := mkState {
  objs : gmap nat Vector;
  heap : gmap nat (list T);
  brk : nat
}.

Definition M (A : Type) : Type := state -> outcome A * state.

Definition ret {A} (a : A) : M A := fun s => (Ret a, s).
Definition throw {A} (e : exception) : M A := fun s => (Throw e, s).
Definition undef {A} : M A := fun s => (Undef, s).
Definition bind {A B} (k : A -> M B) (c : M A) : M B :=
  fun s =>
    match c s with
    | (Ret a, s') => k a s'
    | (Throw e, s') => (Throw e, s')
    | (Undef, s') => (Undef, s')
    end.

(** stdpp's monad notations: [x ← c; k] and [c;; k]. *)
Global Instance M_ret : MRet M := @ret.
Global Instance M_bind : MBind M := @bind.

Fixpoint for_each {A} (l : list A) (body : A -> M unit) : M unit :=
  match l with
  | [] => ret tt
  | a :: l' => body a;; for_each l' body
  end.

(** *** Memory primitives *)

Definition load_obj (this : nat) : M Vector :=
  fun s => match objs s !! this with
           | Some v => (Ret v, s)
           | None => (Undef, s)
           end.

Definition store_obj (this : nat) (v : Vector) : M unit :=
  fun s => (Ret tt, mkState (<[this := v]> (objs s)) (heap s) (brk s)).

Definition get_sz (this : nat) : M Z := v ← load_obj this; ret (sz v).
Definition get_max_sz (this : nat) : M Z :=
  v ← load_obj this; ret (max_sz v).
Definition get_values (this : nat) : M nat :=
  v ← load_obj this; ret (values v).
Definition set_sz (this : nat) (z : Z) : M unit :=
  v ← load_obj this; store_obj this (mkVector z (max_sz v) (values v)).
Definition set_max_sz (this : nat) (z : Z) : M unit :=
  v ← load_obj this; store_obj this (mkVector (sz v) z (values v)).

(** [std::make_unique<value_type[]>(n)]: a fresh block of [n]
    value-initialised slots when the request is within the limit of the
    call, [std::bad_alloc] when it is not. *)
Definition make_unique (n : Z) : M nat :=
  fun s =>
    if decide (n <= max_alloc)
    then (Ret (brk s),
          mkState (objs s)
                  (<[brk s := replicate (Z.to_nat n) value_init]> (heap s))
                  (S (brk s)))
    else (Throw bad_alloc, s).

(** The deleter of [unique_ptr<T[]>]. *)
Definition delete_array (b : nat) : M unit :=
  fun s => (Ret tt, mkState (objs s) (delete b (heap s)) (brk s)).

(** [values = std::move(new_values)]: take the new block, free the old. *)
Definition move_assign_values (this : nat) (nb : nat) : M unit :=
  v ← load_obj this;
  store_obj this (mkVector (sz v) (max_sz v) nb);;
  delete_array (values v).

(** Raw slot access [*p]; outside a live block it is undefined. *)
Definition read (p : pointer) : M T :=
  fun s =>
    match heap s !! blk p with
    | Some l =>
        if decide (0 <= off p)
        then match l !! Z.to_nat (off p) with
             | Some x => (Ret x, s)
             | None => (Undef, s)
             end
        else (Undef, s)
    | None => (Undef, s)
    end.

Definition write (p : pointer) (x : T) : M unit :=
  fun s =>
    match heap s !! blk p with
    | Some l =>
        if decide (0 <= off p < Z.of_nat (length l))
        then (Ret tt,
              mkState (objs s)
                      (<[blk p := <[Z.to_nat (off p) := x]> l]> (heap s))
                      (brk s))
        else (Undef, s)
    | None => (Undef, s)
    end.

(** [lop.ptr - rop.ptr]: defined inside one block only. *)
Definition ptr_diff (lop rop : pointer) : M Z :=
  if decide (blk lop = blk rop)
  then (if decide (in_ptrdiff (off lop - off rop))
        then ret (off lop - off rop) else undef)
  else undef.

(** The element loop shared by [reserve], [shrink_to_fit], the copy
    constructor and copy assignment:
    [for (i = 0; i < n; ++i) dst[i] = src[i];]. *)
Definition copy_elements (src dst : nat) (n : Z) : M unit :=
  for_each (seqZ 0 n)
           (fun i => x ← read (Ptr src i); write (Ptr dst i) x).

(** [std::copy(init.begin(), init.end(), dst)]. *)
Fixpoint copy_init (init : list T) (dst : pointer) : M unit :=
  match init with
  | [] => ret tt
  | x :: init' =>
      write dst x;; copy_init init' (Ptr (blk dst) (off dst + 1))
  end.

(** *** Constructors and copy assignment *)

(** [Vector() = default], with the default member initialisers. *)
Definition Vector_default (this : nat) : M unit :=
  b ← make_unique min_capacity;
  store_obj this (mkVector 0 min_capacity b).

(** [explicit Vector(size_type n)]. *)
Definition Vector_sized (this : nat) (n : Z) : M unit :=
  let m := Z.max n min_capacity in
  b ← make_unique m;
  store_obj this (mkVector 0 m b).

(** [Vector(std::initializer_list<value_type> init)]. *)
Definition Vector_init (this : nat) (init : list T) : M unit :=
  let n := Z.of_nat (length init) in
  let m := Z.max n min_capacity in
  b ← make_unique m;
  store_obj this (mkVector n m b);;
  copy_init init (Ptr b 0).

(** [Vector(const Vector& other)]. *)
Definition Vector_copy (this other : nat) : M unit :=
  o ← load_obj other;
  b ← make_unique (max_sz o);
  store_obj this (mkVector (sz o) (max_sz o) b);;
  copy_elements (values o) b (sz o).

(** [Vector& operator=(const Vector& other)].  The two size fields are
    overwritten before the new buffer is requested.  When the request for
    [other.max_sz] slots is refused, the exception leaves [this] with the
    new sizes over its old buffer. *)
Definition operator_assign (this other : nat) : M unit :=
  if decide (this <> other)
  then
    o ← load_obj other;
    set_sz this (sz o);;
    set_max_sz this (max_sz o);;
    b ← make_unique (max_sz o);
    move_assign_values this b;;
    copy_elements (values o) b (sz o)
  else ret tt.

(** *** Queries *)

(** [size()], [capacity()], [empty()]. *)
Definition size (this : nat) : M Z := get_sz this.
Definition capacity (this : nat) : M Z := get_max_sz this.
Definition empty (this : nat) : M bool :=
  s ← get_sz this; ret (bool_decide (s = 0)).

(** [operator[]] (both overloads): a reference to slot [i]. *)
Definition operator_index (this : nat) (i : Z) : M pointer :=
  s ← get_sz this;
  if decide (i >= s)
  then throw (runtime_error "Index out of bounds")
  else b ← get_values this; ret (Ptr b i).

(** *** Mutators *)

(** [void clear() { sz = 0; }] *)
Definition clear (this : nat) : M unit := set_sz this 0.

(** [void reserve(size_type n)]. *)
Definition reserve (this : nat) (n : Z) : M unit :=
  m ← get_max_sz this;
  if decide (n <= m) then ret tt
  else
    nb ← make_unique n;
    s ← get_sz this;
    b ← get_values this;
    copy_elements b nb s;;
    move_assign_values this nb;;
    set_max_sz this n.

(** [void shrink_to_fit()]. *)
Definition shrink_to_fit (this : nat) : M unit :=
  s ← get_sz this;
  m ← get_max_sz this;
  if decide (s = m) then ret tt
  else
    nb ← make_unique (Z.max s min_capacity);
    b ← get_values this;
    copy_elements b nb s;;
    move_assign_values this nb;;
    set_max_sz this (Z.max s min_capacity).

(** [void push_back(value_type x)]: the last two steps are
    [values[sz++] = x]. *)
Definition push_back (this : nat) (x : T) : M unit :=
  s ← get_sz this;
  m ← get_max_sz this;
  (if decide (s = m) then reserve this (wrap (m * 2)) else ret tt);;
  s ← get_sz this;
  b ← get_values this;
  set_sz this (wrap (s + 1));;
  write (Ptr b s) x.

(** [void pop_back()]. *)
Definition pop_back (this : nat) : M unit :=
  s ← get_sz this;
  if decide (s = 0)
  then throw (runtime_error "Cannot pop from empty vector")
  else set_sz this (wrap (s - 1)).

(** *** Cursors *)

(** [begin()] and [end()]: cursors at slots [0] and [sz] of the buffer. *)
Definition begin (this : nat) : M Iterator :=
  b ← get_values this; ret (mkIterator (Ptr b 0)).
Definition end_ (this : nat) : M Iterator :=
  b ← get_values this; s ← get_sz this; ret (mkIterator (Ptr b s)).

(** [friend difference_type operator-(lop, rop)]. *)
Definition operator_minus (lop rop : ConstIterator) : M Z :=
  ptr_diff (cit_ptr lop) (cit_ptr rop).

(** [operator++] moves a cursor one slot on. *)
Definition operator_incr (it : Iterator) : Iterator :=
  mkIterator (Ptr (blk (it_ptr it)) (off (it_ptr it) + 1)).

(** [operator*] of either cursor kind. *)
Definition operator_star (it : ConstIterator) : M T := read (cit_ptr it).

(** [const_reference]: what a [const value_type&] parameter is bound to.
    The referent is an object of the caller's (a local, or the temporary a
    value argument is materialised into), which no call on a container can
    touch, or a slot of a buffer. *)
Inductive const_reference : Type :=
| ref_value (x : T)
| ref_slot (p : pointer).

(** Reading through the reference. *)
Definition deref (r : const_reference) : M T :=
  match r with
  | ref_value x => ret x
  | ref_slot p => read p
  end.

(** [iterator insert(const_iterator pos, const_reference val)].  [val] is
    read once, by [values[current] = val], after [reserve] and after the
    shifting loop. *)
Definition insert (this : nat) (pos : ConstIterator) (val : const_reference)
  : M Iterator :=
  b0 ← begin this;
  diff ← operator_minus pos (to_ConstIterator b0);
  s ← get_sz this;
  if decide (diff < 0 \/ wrap diff > s)
  then throw (runtime_error "Iterator out of bounds")
  else
    let current := wrap diff in
    m ← get_max_sz this;
    (if decide (s >= m) then reserve this (wrap (m * 2)) else ret tt);;
    (* for (auto i{sz}; i-- > current;) values[i + 1] = values[i]; *)
    s ← get_sz this;
    b ← get_values this;
    for_each (reverse (seqZ current (s - current)))
             (fun i => x ← read (Ptr b i); write (Ptr b (wrap (i + 1))) x);;
    x ← deref val;
    write (Ptr b current) x;;
    set_sz this (wrap (s + 1));;
    ret (mkIterator (Ptr b current)).

(** [iterator erase(const_iterator pos)]. *)
Definition erase (this : nat) (pos : ConstIterator) : M Iterator :=
  b0 ← begin this;
  diff ← operator_minus pos (to_ConstIterator b0);
  s ← get_sz this;
  if decide (diff < 0 \/ wrap diff >= s)
  then throw (runtime_error "Iterator out of bounds")
  else
    let current := wrap diff in
    b ← get_values this;
    (* for (auto i{current}; i < sz - 1; ++i) values[i] = values[i + 1]; *)
    for_each (seqZ current (wrap (s - 1) - current))
             (fun i => x ← read (Ptr b (wrap (i + 1))); write (Ptr b i) x);;
    set_sz this (wrap (s - 1));;
    ret (mkIterator (Ptr b current)).

(** *** Formatting *)

(** [os << x] for an element is the element type's own printer. *)
Context `{Pretty T}.

Fixpoint fold_each {A B} (l : list A) (body : B -> A -> M B) (acc : B) : M B :=
  match l with
  | [] => ret acc
  | a :: l' => acc' ← body acc a; fold_each l' body acc'
  end.

(** [std::ostream& operator<<(std::ostream& os, const Vector<T>& vec)];
    the stream is the text written to it so far. *)
Definition operator_shl (os : string) (vec : nat) : M string :=
  let os := os +:+ "[" in
  n ← size vec;
  os ← fold_each (seqZ 0 n)
       (fun os i =>
          r ← operator_index vec i;
          x ← read r;
          let os := os +:+ pretty x in
          n' ← size vec;
          if decide (wrap (i + 1) < n') then ret (os +:+ ", ") else ret os)
       os;
  ret (os +:+ "]").

(** *** The remaining members: cursor comparison, read-only cursors,
    the destructor *)

Global Instance pointer_eq_dec : EqDecision pointer.
Proof. solve_decision. Defined.

(** [bool operator==(const ConstIterator& other) const] and [operator!=]
    of [Iterator]: [ptr == other.ptr], [ptr != other.ptr]. *)
Definition Iterator_eq (it : Iterator) (other : ConstIterator) : bool :=
  bool_decide (it_ptr it = cit_ptr other).
Definition Iterator_ne (it : Iterator) (other : ConstIterator) : bool :=
  negb (bool_decide (it_ptr it = cit_ptr other)).

(** The same two operators of [ConstIterator]. *)
Definition ConstIterator_eq (it other : ConstIterator) : bool :=
  bool_decide (cit_ptr it = cit_ptr other).
Definition ConstIterator_ne (it other : ConstIterator) : bool :=
  negb (bool_decide (cit_ptr it = cit_ptr other)).

(** [ConstIterator& operator++()]. *)
Definition ConstIterator_incr (it : ConstIterator) : ConstIterator :=
  mkConstIterator (Ptr (blk (cit_ptr it)) (off (cit_ptr it) + 1)).

(** [Iterator operator++(int)]: the cursor as it was, and the cursor
    moved on. *)
Definition operator_post_incr (it : Iterator) : Iterator * Iterator :=
  (it, operator_incr it).

(** [const_iterator begin() const] and [const_iterator end() const]. *)
Definition begin_const (this : nat) : M ConstIterator :=
  b ← get_values this; ret (mkConstIterator (Ptr b 0)).
Definition end_const (this : nat) : M ConstIterator :=
  b ← get_values this; s ← get_sz this; ret (mkConstIterator (Ptr b s)).

(** The end of an object's storage. *)
Definition remove_obj (this : nat) : M unit :=
  fun s => (Ret tt, mkState (delete this (objs s)) (heap s) (brk s)).

(** [~Vector() = default]: the member [values] releases its block, then
    the object is gone. *)
Definition Vector_destroy (this : nat) : M unit :=
  b ← get_values this;
  delete_array b;;
  remove_obj this.

(** ** Vocabulary of the specifications *)

(** The buffer after [j] rounds of [values[i + 1] = values[i]], for [i]
    from [c + j - 1] down to [c]. *)
Definition shift_right (buf : list T) (c j : nat) : list T :=
  take (S c) buf ++ take j (drop c buf) ++ drop (S (c + j)) buf.

(** The buffer after [j] rounds of [values[i] = values[i + 1]], for [i]
    from [c] up to [c + j - 1]. *)
Definition shift_left (buf : list T) (c j : nat) : list T :=
  take c buf ++ take j (drop (S c) buf) ++ drop (c + j) buf.

(** [l] with [x] put in front of position [d]. *)
Definition insert_at (l : list T) (d : nat) (x : T) : list T :=
  take d l ++ x :: drop d l.

(** Object [this] holds the fields [v] and owns the live block [buf],
    which has exactly [max_sz v] slots. *)
Record owns (s : state) (this : nat) (v : Vector) (buf : list T) : Prop := {
  owns_obj : objs s !! this = Some v;
  owns_buf : heap s !! values v = Some buf;
  owns_len : Z.of_nat (length buf) = max_sz v;
  owns_live : (values v < brk s)%nat
}.

(** The invariant of the data model: [0 <= length <= capacity] and
    [capacity >= minimum_capacity]. *)
Definition inv (v : Vector) : Prop :=
  0 <= sz v <= max_sz v /\ min_capacity <= max_sz v.

(** A well-formed object: the invariant, on a buffer the allocator
    could grant. *)
Definition wf (s : state) (this : nat) : Prop :=
  exists v buf, owns s this v buf /\ inv v /\ max_sz v <= max_alloc.

(** The observable sequence: the first [sz] slots of the buffer. *)
Definition elems (v : Vector) (buf : list T) : list T :=
  take (Z.to_nat (sz v)) buf.

(** What a member function of [this] leaves alone: every other object,
    every block that was live and is not the buffer [b0] of [this]. *)
Definition frame (s s' : state) (this b0 : nat) : Prop :=
  (forall o, o <> this -> objs s' !! o = objs s !! o) /\
  (forall b, b <> b0 -> (b < brk s)%nat -> heap s' !! b = heap s !! b) /\
  (brk s <= brk s')%nat.

(** The buffer after reallocation to [z] slots. *)
Definition regrown (v : Vector) (buf : list T) (z : Z) : list T :=
  elems v buf ++ replicate (Z.to_nat z - Z.to_nat (sz v)) value_init.

(** The buffer the list constructor builds. *)
Definition init_buffer (init : list T) : list T :=
  init ++ replicate (Z.to_nat min_capacity - length init) value_init.

(** [container[i]] read as a value, and [container[i] = x]. *)
Definition index_get (this : nat) (i : Z) : M T :=
  r ← operator_index this i; read r.
Definition index_set (this : nat) (i : Z) (x : T) : M unit :=
  r ← operator_index this i; write r x.

(** The container shows the sequence [l]: [size()] is its length and
    [container[i]] is its [i]-th element, neither call changing the
    state. *)
Definition observes (s : state) (this : nat) (l : list T) : Prop :=
  size this s = (Ret (Z.of_nat (length l)), s) /\
  forall (i : nat) x, l !! i = Some x ->
                      index_get this (Z.of_nat i) s = (Ret x, s).

(** A cursor [d] slots on from [it]: for [d >= 0], [d] uses of
    [operator++]. *)
Definition advance (it : Iterator) (d : Z) : Iterator :=
  mkIterator (Ptr (blk (it_ptr it)) (off (it_ptr it) + d)).

(** Caller code: [c.insert(c.begin() + d, x)], with [x] an object of the
    caller's, and [c.erase(c.begin() + d)]. *)
Definition insert_from_begin (this : nat) (d : Z) (x : T) : M Iterator :=
  b ← begin this; insert this (to_ConstIterator (advance b d)) (ref_value x).
Definition erase_from_begin (this : nat) (d : Z) : M Iterator :=
  b ← begin this; erase this (to_ConstIterator (advance b d)).

(** Caller code: [c.insert(c.begin() + d, c[i])] and [c.push_back(c[i])],
    the argument being an element of the container itself.  [insert]
    receives the reference [operator[]] returns; [push_back] receives a
    copy of the element, made before its body runs. *)
Definition insert_element (this : nat) (d i : Z) : M Iterator :=
  r ← operator_index this i;
  b ← begin this;
  insert this (to_ConstIterator (advance b d)) (ref_slot r).
Definition push_back_element (this : nat) (i : Z) : M unit :=
  x ← index_get this i; push_back this x.

(** Caller code: the loop
    [for (auto it = c.begin(), e = c.end(); it != e; ++it) acc.push_back( *it );]
    over a read-only container, collecting what it visits.  [fuel] bounds
    the number of rounds; the result is [None] when it runs out. *)
Fixpoint visit_from (fuel : nat) (it e : ConstIterator) (acc : list T)
  : M (option (list T)) :=
  if ConstIterator_ne it e
  then match fuel with
       | O => ret None
       | S f =>
           x ← operator_star it;
           visit_from f (ConstIterator_incr it) e (acc ++ [x])
       end
  else ret (Some acc).

Definition range_for (fuel : nat) (this : nat) : M (option (list T)) :=
  b ← begin_const this; e ← end_const this; visit_from fuel b e [].

(** The invariant as a caller can check it, through [size()] and
    [capacity()]. *)
Definition invariant (s : state) (this : nat) : Prop :=
  exists n c, size this s = (Ret n, s) /\ capacity this s = (Ret c, s) /\
              0 <= n <= c /\ c >= min_capacity.

(** The mutating calls a caller can make on a live container.  Cursor
    arguments are given by their slot distance from [begin()]. *)
Inductive operation : Type :=
| Clear
| Reserve (n : Z)
| ShrinkToFit
| PushBack (x : T)
| PopBack
| Insert (d : Z) (x : T)
| Erase (d : Z)
| SetAt (i : Z) (x : T).

Definition exec (this : nat) (c : operation) : M unit :=
  match c with
  | Clear => clear this
  | Reserve n => reserve this n
  | ShrinkToFit => shrink_to_fit this
  | PushBack x => push_back this x
  | PopBack => pop_back this
  | Insert d x => insert_from_begin this d x;; ret tt
  | Erase d => erase_from_begin this d;; ret tt
  | SetAt i x => index_set this i x
  end.

(** Arguments in the range of their C++ type: [size_type] for sizes and
    indices, [difference_type] for cursor distances. *)
Definition well_typed (c : operation) : Prop :=
  match c with
  | Reserve n => 0 <= n < modulus
  | SetAt i _ => 0 <= i < modulus
  | Insert d _ => in_ptrdiff d
  | Erase d => in_ptrdiff d
  | _ => True
  end.

(** What a call on [this] did: it did not run into undefined behaviour,
    [this] is still well-formed, its buffer is the old block or a fresh
    one, and nothing else moved. *)
Definition step_ok (s : state) (this : nat) (v : Vector)
           (r : outcome unit) (s' : state) : Prop :=
  r <> Undef /\
  exists v' buf',
    owns s' this v' buf' /\ inv v' /\ max_sz v' <= max_alloc /\
    frame s s' this (values v) /\
    (values v' = values v \/ (brk s <= values v')%nat).

(** Every live object is well-formed, and no two share a buffer. *)
Definition all_wf (s : state) : Prop :=
  (forall this v, objs s !! this = Some v ->
     exists buf, owns s this v buf /\ inv v /\ max_sz v <= max_alloc) /\
  (forall a b va vb, a <> b ->
     objs s !! a = Some va -> objs s !! b = Some vb -> values va <> values vb).

(** The same three notions against a bound of their own.  [wf], [step_ok]
    and [all_wf] bound every capacity by the limit the allocator has
    during the whole run; with [bound] above that limit they describe
    containers that were built when the allocator granted more than it
    does now. *)
Definition wf_within (bound : Z) (s : state) (this : nat) : Prop :=
  exists v buf, owns s this v buf /\ inv v /\ max_sz v <= bound.

Definition step_ok_within (bound : Z) (s : state) (this : nat) (v : Vector)
           (r : outcome unit) (s' : state) : Prop :=
  r <> Undef /\
  exists v' buf',
    owns s' this v' buf' /\ inv v' /\ max_sz v' <= bound /\
    frame s s' this (values v) /\
    (values v' = values v \/ (brk s <= values v')%nat).

Definition all_within (bound : Z) (s : state) : Prop :=
  (forall this v, objs s !! this = Some v ->
     exists buf, owns s this v buf /\ inv v /\ max_sz v <= bound) /\
  (forall a b va vb, a <> b ->
     objs s !! a = Some va -> objs s !! b = Some vb -> values va <> values vb).

(** A valid container, whatever the allocator would answer now: the
    invariant, on a buffer of its own no longer than an array can be. *)
Definition valid (s : state) (this : nat) : Prop :=
  wf_within ptrdiff_max s this.

(** Every live object is valid, and no two share a buffer. *)
Definition all_valid (s : state) : Prop := all_within ptrdiff_max s.

(** The states a program reaches: it starts with no object, constructs
    containers at addresses of its choice (default, sized, from a list, by
    copy), assigns one live container to another, and calls operations on
    live containers.  A call that throws leaves a state the program goes
    on from. *)
Inductive reachable : state -> Prop :=
| reach_start : reachable (mkState ∅ ∅ 0)
| reach_default s this r s' :
    reachable s -> Vector_default this s = (r, s') -> reachable s'
| reach_sized s this n r s' :
    reachable s -> Vector_sized this n s = (r, s') -> reachable s'
| reach_init s this init r s' :
    reachable s -> Vector_init this init s = (r, s') -> reachable s'
| reach_copy s this other r s' :
    reachable s -> is_Some (objs s !! other) ->
    Vector_copy this other s = (r, s') -> reachable s'
| reach_assign s this other r s' :
    reachable s -> is_Some (objs s !! this) -> is_Some (objs s !! other) ->
    operator_assign this other s = (r, s') -> reachable s'
| reach_exec s this c r s' :
    reachable s -> is_Some (objs s !! this) -> well_typed c ->
    exec this c s = (r, s') -> reachable s'.

(** The rendering the specification describes: the elements, each printed
    by the element type's printer, separated by a comma and a space,
    inside square brackets. *)
Definition render (l : list T) : string :=
  "[" +:+ String.concat ", " (pretty <$> l) +:+ "]".

(** A sequence of calls on one container; a call that throws is followed
    by the next one. *)
Fixpoint exec_all (this : nat) (cs : list operation) (s : state) : state :=
  match cs with
  | [] => s
  | c :: cs' => exec_all this cs' (snd (exec this c s))
  end.

(** The state right after [this] became a copy of [src], which shows [l]
    at capacity [c]: both show [l] at capacity [c]; the copy's buffer is a
    block of its own, holding [l] and then value-initialised slots. *)
Definition is_copy (s : state) (this src : nat) (l : list T) (c : Z) : Prop :=
  all_wf s /\
  observes s this l /\ capacity this s = (Ret c, s) /\
  observes s src l /\ capacity src s = (Ret c, s) /\
  exists v vs,
    owns s this v (l ++ replicate (Z.to_nat c - length l) value_init) /\
    objs s !! src = Some vs /\ values v <> values vs.

(** Every live block was handed out by the allocator. *)
Definition heap_closed (s : state) : Prop :=
  forall b, is_Some (heap s !! b) -> (b < brk s)%nat.

(** What a call on [this], whose fields were [v], did to memory: the
    object has new fields [v'], and either its block stayed where it was,
    with contents [buf'], or a fresh block [brk s] holds [buf'] and the old
    block is freed.  Nothing else changed. *)
Definition footprint (s s' : state) (this : nat) (v v' : Vector)
           (buf' : list T) : Prop :=
  objs s' = <[this := v']> (objs s) /\
  ((values v' = values v /\
    heap s' = <[values v := buf']> (heap s) /\ brk s' = brk s) \/
   (values v' = brk s /\
    heap s' = <[brk s := buf']> (delete (values v) (heap s)) /\
    brk s' = S (brk s))).

(** ** Running computations *)

Hypothesis max_alloc_bound : max_alloc <= ptrdiff_max.

(** A size the allocator can grant is a size an array can have. *)
Lemma granted_size z : z <= max_alloc -> z <= ptrdiff_max.
Proof. lia. Qed.
#[local] Hint Resolve granted_size : core.

Lemma bind_Ret {A B} (c : M A) (k : A -> M B) s a s' :
  c s = (Ret a, s') -> (c ≫= k) s = k a s'.
Proof. intros E. unfold mbind, M_bind, bind. now rewrite E. Qed.

Lemma bind_Throw {A B} (c : M A) (k : A -> M B) s e s' :
  c s = (Throw e, s') -> (c ≫= k) s = (Throw e, s').
Proof. intros E. unfold mbind, M_bind, bind. now rewrite E. Qed.

Lemma bind_Undef {A B} (c : M A) (k : A -> M B) s s' :
  c s = (Undef, s') -> (c ≫= k) s = (Undef, s').
Proof. intros E. unfold mbind, M_bind, bind. now rewrite E. Qed.

Lemma for_each_app {A} (l1 l2 : list A) body s s' :
  for_each l1 body s = (Ret tt, s') ->
  for_each (l1 ++ l2) body s = for_each l2 body s'.
Proof.
  revert s. induction l1 as [|a l1 IH]; intros s E; simpl in *.
  - unfold ret in E. now inversion E.
  - unfold mbind, M_bind, bind in *.
    destruct (body a s) as [[[]|e|] s1]; try discriminate.
    now apply IH.
Qed.

(** Unfolds the monad and the memory primitives, nothing else. *)
Ltac mred :=
  cbv beta iota zeta delta
    [bind mbind M_bind ret mret M_ret throw undef
     load_obj store_obj get_sz get_max_sz get_values set_sz set_max_sz
     delete_array move_assign_values to_ConstIterator];
  cbn [objs heap brk sz max_sz values blk off it_ptr cit_ptr].

Ltac proj := cbn [objs heap brk sz max_sz values blk off it_ptr cit_ptr].
Ltac proj_all :=
  cbn [objs heap brk sz max_sz values blk off it_ptr cit_ptr] in *.

(** The field accessors, on any state that holds the object. *)
Lemma get_sz_eq s this v :
  objs s !! this = Some v -> get_sz this s = (Ret (sz v), s).
Proof. intros E. mred. now rewrite E. Qed.

Lemma get_max_sz_eq s this v :
  objs s !! this = Some v -> get_max_sz this s = (Ret (max_sz v), s).
Proof. intros E. mred. now rewrite E. Qed.

Lemma get_values_eq s this v :
  objs s !! this = Some v -> get_values this s = (Ret (values v), s).
Proof. intros E. mred. now rewrite E. Qed.

Lemma load_obj_eq s this v :
  objs s !! this = Some v -> load_obj this s = (Ret v, s).
Proof. intros E. mred. now rewrite E. Qed.

Lemma set_sz_eq s this v z :
  objs s !! this = Some v ->
  set_sz this z s
  = (Ret tt, mkState (<[this := mkVector z (max_sz v) (values v)]> (objs s))
                     (heap s) (brk s)).
Proof. intros E. mred. now rewrite E. Qed.

Lemma set_max_sz_eq s this v z :
  objs s !! this = Some v ->
  set_max_sz this z s
  = (Ret tt, mkState (<[this := mkVector (sz v) z (values v)]> (objs s))
                     (heap s) (brk s)).
Proof. intros E. mred. now rewrite E. Qed.

Lemma move_assign_values_eq s this v nb :
  objs s !! this = Some v ->
  move_assign_values this nb s
  = (Ret tt, mkState (<[this := mkVector (sz v) (max_sz v) nb]> (objs s))
                     (delete (values v) (heap s)) (brk s)).
Proof. intros E. mred. now rewrite E. Qed.

Lemma ret_eq {A} (a : A) s : ret a s = (Ret a, s).
Proof. reflexivity. Qed.

(** A lookup in a state that symbolic execution has built. *)
Ltac look :=
  proj;
  first [ eassumption
        | apply lookup_insert_eq
        | rewrite lookup_insert_ne by (congruence || lia); look ].

(** Runs the first command of a sequence; [t] proves its equation. *)
Tactic Notation "mstep" "by" tactic3(t) :=
  erewrite bind_Ret by t; cbv beta; proj.

Ltac field_step :=
  first [ eapply get_sz_eq; look | eapply get_max_sz_eq; look
        | eapply get_values_eq; look | eapply load_obj_eq; look
        | eapply set_sz_eq; look | eapply set_max_sz_eq; look
        | eapply move_assign_values_eq; look | eapply ret_eq ].

Ltac msteps := repeat (mstep by field_step).

Lemma read_eq o h n b i l x :
  h !! b = Some l -> 0 <= i -> l !! Z.to_nat i = Some x ->
  read (Ptr b i) (mkState o h n) = (Ret x, mkState o h n).
Proof.
  intros Hb Hi Hx. unfold read. mred.
  rewrite Hb, decide_True by done. now rewrite Hx.
Qed.

Lemma write_eq o h n b i l x :
  h !! b = Some l -> 0 <= i < Z.of_nat (length l) ->
  write (Ptr b i) x (mkState o h n)
  = (Ret tt, mkState o (<[b := <[Z.to_nat i := x]> l]> h) n).
Proof.
  intros Hb Hi. unfold write. mred. now rewrite Hb, decide_True by done.
Qed.

Lemma make_unique_eq o h n z :
  z <= max_alloc ->
  make_unique z (mkState o h n)
  = (Ret n, mkState o (<[n := replicate (Z.to_nat z) value_init]> h) (S n)).
Proof. intros Hz. unfold make_unique. mred. now rewrite decide_True. Qed.

Lemma make_unique_fail s z :
  max_alloc < z -> make_unique z s = (Throw bad_alloc, s).
Proof. intros Hz. unfold make_unique. rewrite decide_False by lia. done. Qed.

(** One step of the copy loop on the destination buffer. *)
Lemma insert_copy_step (a b : list T) (c : nat) x :
  a !! c = Some x -> (c < length b)%nat ->
  <[c := x]> (take c a ++ drop c b) = take (S c) a ++ drop (S c) b.
Proof.
  intros Ha Hb.
  assert (c < length a)%nat by (eapply lookup_lt_Some; eauto).
  rewrite insert_app_r_alt by (rewrite length_take; lia).
  rewrite length_take, Nat.min_l, Nat.sub_diag by lia.
  destruct (lookup_lt_is_Some_2 b c Hb) as [y Hy].
  rewrite (drop_S b y c Hy). simpl.
  rewrite (take_S_r a c x Ha). now rewrite <- app_assoc.
Qed.

Lemma copy_elements_nat o h n src dst (a b : list T) (c : nat) :
  src <> dst -> h !! src = Some a -> h !! dst = Some b ->
  (c <= length a)%nat -> (c <= length b)%nat ->
  copy_elements src dst (Z.of_nat c) (mkState o h n)
  = (Ret tt, mkState o (<[dst := take c a ++ drop c b]> h) n).
Proof.
  intros Hne Ha Hb. unfold copy_elements.
  induction c as [|c IH]; intros Hca Hcb.
  - simpl. rewrite drop_0, insert_id by done. done.
  - rewrite seqZ_S. erewrite for_each_app by (apply IH; lia).
    simpl. rewrite Z.add_0_l.
    destruct (lookup_lt_is_Some_2 a c) as [x Hx]; [lia|].
    erewrite bind_Ret; cycle 1.
    { erewrite bind_Ret; cycle 1.
      - eapply read_eq; [by rewrite lookup_insert_ne|lia|].
        rewrite Nat2Z.id. exact Hx.
      - eapply write_eq; [by rewrite lookup_insert_eq|].
        rewrite length_app, length_take, length_drop. lia. }
    mred. rewrite insert_insert_eq, Nat2Z.id.
    rewrite insert_copy_step by (done || lia). done.
Qed.

Lemma copy_elements_eq o h n src dst (a b : list T) (c : Z) :
  src <> dst -> h !! src = Some a -> h !! dst = Some b ->
  0 <= c <= Z.of_nat (length a) -> c <= Z.of_nat (length b) ->
  copy_elements src dst c (mkState o h n)
  = (Ret tt,
     mkState o (<[dst := take (Z.to_nat c) a ++ drop (Z.to_nat c) b]> h) n).
Proof.
  intros Hne Ha Hb Hca Hcb.
  rewrite <- (Z2Nat.id c) at 1 by lia.
  apply copy_elements_nat; auto; lia.
Qed.

(** ** The two shifting loops, on the buffer *)

Lemma shift_right_0 buf c : shift_right buf c 0 = buf.
Proof.
  unfold shift_right. rewrite take_0, Nat.add_0_r. simpl. apply take_drop.
Qed.

Lemma shift_left_0 buf c : shift_left buf c 0 = buf.
Proof.
  unfold shift_left. rewrite take_0, Nat.add_0_r. simpl. apply take_drop.
Qed.

Lemma length_shift_right buf c j :
  (c + j < length buf)%nat -> length (shift_right buf c j) = length buf.
Proof.
  intros. unfold shift_right.
  rewrite !length_app, !length_take, !length_drop. lia.
Qed.

Lemma length_shift_left buf c j :
  (c + j < length buf)%nat -> length (shift_left buf c j) = length buf.
Proof.
  intros. unfold shift_left.
  rewrite !length_app, !length_take, !length_drop. lia.
Qed.

Lemma shift_right_step buf c j x :
  buf !! (c + j)%nat = Some x -> (S (c + j) < length buf)%nat ->
  shift_right (<[S (c + j) := x]> buf) c j = shift_right buf c (S j).
Proof.
  intros Hx Hlen. unfold shift_right.
  rewrite take_insert_ge by lia.
  rewrite (drop_insert_ge _ c) by lia.
  rewrite take_insert_ge by lia.
  rewrite (drop_insert_ge _ (S (c + j))), Nat.sub_diag by lia.
  destruct (lookup_lt_is_Some_2 buf (S (c + j)) Hlen) as [y Hy].
  rewrite (drop_S buf y _ Hy). simpl.
  rewrite (take_S_r (drop c buf) j x) by now rewrite lookup_drop.
  rewrite <- !app_assoc. simpl. do 3 f_equal. f_equal. lia.
Qed.

Lemma shift_left_step buf c j x :
  buf !! S (c + j) = Some x ->
  <[(c + j)%nat := x]> (shift_left buf c j) = shift_left buf c (S j).
Proof.
  intros Hx.
  assert (S (c + j) < length buf)%nat by (eapply lookup_lt_Some; eauto).
  unfold shift_left.
  rewrite insert_app_r_alt by (rewrite length_take; lia).
  rewrite length_take, Nat.min_l by lia.
  rewrite insert_app_r_alt by (rewrite length_take, length_drop; lia).
  rewrite length_take, length_drop, Nat.min_l by lia.
  replace (c + j - c - j)%nat with 0%nat by lia.
  destruct (lookup_lt_is_Some_2 buf (c + j)) as [y Hy]; [lia|].
  rewrite (drop_S buf y _ Hy). simpl.
  rewrite (take_S_r (drop (S c) buf) j x) by now rewrite lookup_drop.
  rewrite <- !app_assoc. simpl. do 3 f_equal. f_equal. lia.
Qed.

Lemma shift_right_eq o h n b (buf : list T) (cur : Z) (j : nat) :
  h !! b = Some buf -> 0 <= cur ->
  cur + Z.of_nat j < Z.of_nat (length buf) -> cur + Z.of_nat j < modulus ->
  for_each (reverse (seqZ cur (Z.of_nat j)))
           (fun i => x ← read (Ptr b i); write (Ptr b (wrap (i + 1))) x)
           (mkState o h n)
  = (Ret tt, mkState o (<[b := shift_right buf (Z.to_nat cur) j]> h) n).
Proof.
  revert h buf. induction j as [|j IH]; intros h buf Hb Hc Hlen Hmod.
  - simpl. rewrite shift_right_0, insert_id by done. done.
  - rewrite seqZ_S, reverse_snoc.
    destruct (lookup_lt_is_Some_2 buf (Z.to_nat cur + j)) as [x Hx]; [lia|].
    cbn [for_each].
    mstep by (mstep by (eapply read_eq; [look|lia|];
                        rewrite Z2Nat.inj_add, Nat2Z.id by lia; exact Hx);
              eapply write_eq; [look|];
              rewrite wrap_small by (unfold modulus in *; lia); lia).
    rewrite wrap_small by (unfold modulus in *; lia).
    erewrite IH; cycle 1.
    + apply lookup_insert_eq.
    + lia.
    + rewrite length_insert. lia.
    + lia.
    + rewrite insert_insert_eq.
      replace (Z.to_nat (cur + Z.of_nat j + 1)) with (S (Z.to_nat cur + j))
        by lia.
      rewrite shift_right_step by (done || lia). done.
Qed.

Lemma shift_left_eq o h n b (buf : list T) (cur : Z) (j : nat) :
  h !! b = Some buf -> 0 <= cur ->
  cur + Z.of_nat j < Z.of_nat (length buf) -> cur + Z.of_nat j < modulus ->
  for_each (seqZ cur (Z.of_nat j))
           (fun i => x ← read (Ptr b (wrap (i + 1))); write (Ptr b i) x)
           (mkState o h n)
  = (Ret tt, mkState o (<[b := shift_left buf (Z.to_nat cur) j]> h) n).
Proof.
  intros Hb Hc. induction j as [|j IH]; intros Hlen Hmod.
  - simpl. rewrite shift_left_0, insert_id by done. done.
  - rewrite seqZ_S. erewrite for_each_app by (apply IH; lia).
    destruct (lookup_lt_is_Some_2 buf (S (Z.to_nat cur + j))) as [x Hx];
      [lia|].
    assert (shift_left buf (Z.to_nat cur) j !! S (Z.to_nat cur + j) = Some x)
      as Hx'.
    { unfold shift_left.
      rewrite lookup_app_r by (rewrite length_take; lia).
      rewrite lookup_app_r by (rewrite !length_take, length_drop; lia).
      rewrite !length_take, length_drop, lookup_drop.
      rewrite <- Hx. f_equal. lia. }
    cbn [for_each].
    mstep by (mstep by (eapply read_eq; [look| |];
                        rewrite wrap_small by (unfold modulus in *; lia);
                        [lia|];
                        replace (Z.to_nat (cur + Z.of_nat j + 1))
                          with (S (Z.to_nat cur + j)) by lia;
                        exact Hx');
              eapply write_eq; [look|];
              rewrite length_shift_left by lia; lia).
    rewrite insert_insert_eq.
    replace (Z.to_nat (cur + Z.of_nat j)) with (Z.to_nat cur + j)%nat by lia.
    rewrite shift_left_step by done. done.
Qed.

Lemma shift_right_eqZ o h n b (buf : list T) (cur c : Z) :
  h !! b = Some buf -> 0 <= cur -> 0 <= c ->
  cur + c < Z.of_nat (length buf) -> cur + c < modulus ->
  for_each (reverse (seqZ cur c))
           (fun i => x ← read (Ptr b i); write (Ptr b (wrap (i + 1))) x)
           (mkState o h n)
  = (Ret tt,
     mkState o (<[b := shift_right buf (Z.to_nat cur) (Z.to_nat c)]> h) n).
Proof.
  intros. rewrite <- (Z2Nat.id c) at 1 by lia.
  apply shift_right_eq; auto; lia.
Qed.

Lemma shift_left_eqZ o h n b (buf : list T) (cur c : Z) :
  h !! b = Some buf -> 0 <= cur -> 0 <= c ->
  cur + c < Z.of_nat (length buf) -> cur + c < modulus ->
  for_each (seqZ cur c)
           (fun i => x ← read (Ptr b (wrap (i + 1))); write (Ptr b i) x)
           (mkState o h n)
  = (Ret tt,
     mkState o (<[b := shift_left buf (Z.to_nat cur) (Z.to_nat c)]> h) n).
Proof.
  intros. rewrite <- (Z2Nat.id c) at 1 by lia.
  apply shift_left_eq; auto; lia.
Qed.

Lemma begin_eq s this v :
  objs s !! this = Some v ->
  begin this s = (Ret (mkIterator (Ptr (values v) 0)), s).
Proof. intros. unfold begin. now msteps. Qed.

Lemma end_eq s this v :
  objs s !! this = Some v ->
  end_ this s = (Ret (mkIterator (Ptr (values v) (sz v))), s).
Proof. intros. unfold end_. now msteps. Qed.

Lemma operator_minus_eq s b d :
  in_ptrdiff d ->
  operator_minus (mkConstIterator (Ptr b d))
                 (to_ConstIterator (mkIterator (Ptr b 0))) s
  = (Ret d, s).
Proof.
  intros Hd. unfold operator_minus, ptr_diff. mred.
  rewrite decide_True by done. rewrite Z.sub_0_r.
  now rewrite decide_True.
Qed.

(** ** The observable sequence after a write or a shift *)

Lemma take_push (buf : list T) (s : nat) x :
  (s < length buf)%nat -> take (S s) (<[s := x]> buf) = take s buf ++ [x].
Proof.
  intros Hs. rewrite (take_S_r _ s x) by now apply list_lookup_insert_eq.
  now rewrite take_insert_ge by lia.
Qed.

Lemma take_insert_shift (buf : list T) (d s : nat) x :
  (d <= s)%nat -> (s < length buf)%nat ->
  take (S s) (<[d := x]> (shift_right buf d (s - d)))
  = insert_at (take s buf) d x.
Proof.
  intros Hd Hs. unfold shift_right, insert_at.
  destruct (lookup_lt_is_Some_2 buf d) as [y Hy]; [lia|].
  rewrite (take_S_r buf d y Hy), <- app_assoc.
  rewrite insert_app_r_alt by (rewrite length_take; lia).
  rewrite length_take, Nat.min_l, Nat.sub_diag by lia. simpl.
  rewrite take_app_ge by (rewrite length_take; lia).
  rewrite length_take, Nat.min_l by lia.
  replace (S s - d)%nat with (S (s - d)) by lia. simpl.
  rewrite take_app_le by (rewrite length_take, length_drop; lia).
  rewrite take_take, Nat.min_id.
  rewrite take_take, Nat.min_l by lia.
  now rewrite skipn_firstn_comm.
Qed.

Lemma take_shift_left (buf : list T) (d s : nat) :
  (d < s)%nat -> (s <= length buf)%nat ->
  take (s - 1) (shift_left buf d (s - 1 - d)) = delete d (take s buf).
Proof.
  intros Hd Hs. unfold shift_left.
  rewrite delete_take_drop.
  rewrite take_take, Nat.min_l by lia.
  rewrite skipn_firstn_comm.
  rewrite app_assoc.
  rewrite take_app_le by (rewrite length_app, !length_take, length_drop; lia).
  rewrite take_ge by (rewrite length_app, !length_take, length_drop; lia).
  do 2 f_equal. lia.
Qed.

(** ** Ownership and the class invariant *)

Lemma frame_refl s this b0 : frame s s this b0.
Proof. repeat split; auto. Qed.

Lemma reserve_noop s this v z :
  objs s !! this = Some v -> z <= max_sz v ->
  reserve this z s = (Ret tt, s).
Proof.
  intros Ho Hz. unfold reserve. msteps. now rewrite decide_True.
Qed.

Lemma reserve_grow o h n this v buf z :
  o !! this = Some v -> h !! values v = Some buf -> (values v < n)%nat ->
  0 <= sz v <= Z.of_nat (length buf) -> sz v <= z ->
  max_sz v < z <= max_alloc ->
  reserve this z (mkState o h n)
  = (Ret tt, mkState (<[this := mkVector (sz v) z n]> o)
                     (<[n := regrown v buf z]> (delete (values v) h))
                     (S n)).
Proof.
  intros Ho Hh Hn Hsz Hsz' Hz. unfold reserve. msteps.
  rewrite decide_False by lia.
  mstep by (apply make_unique_eq; lia). msteps.
  mstep by (eapply copy_elements_eq;
            [|look|look| |rewrite length_replicate]; lia).
  msteps. erewrite set_max_sz_eq by look. proj.
  rewrite !insert_insert_eq, drop_replicate.
  rewrite delete_insert_ne by lia. done.
Qed.

Lemma reserve_fail s this v z :
  objs s !! this = Some v -> max_sz v < z -> max_alloc < z ->
  reserve this z s = (Throw bad_alloc, s).
Proof.
  intros Ho Hz Hz'. unfold reserve. msteps.
  rewrite decide_False by lia.
  erewrite bind_Throw by (now apply make_unique_fail). done.
Qed.

Lemma shrink_to_fit_fail s this v :
  objs s !! this = Some v -> sz v <> max_sz v ->
  max_alloc < Z.max (sz v) min_capacity ->
  shrink_to_fit this s = (Throw bad_alloc, s).
Proof.
  intros Ho Hne Hno. unfold shrink_to_fit. msteps.
  rewrite decide_False by done.
  erewrite bind_Throw by (now apply make_unique_fail). done.
Qed.

Lemma length_regrown v buf z :
  0 <= sz v <= Z.of_nat (length buf) -> sz v <= z ->
  Z.of_nat (length (regrown v buf z)) = z.
Proof.
  intros. unfold regrown, elems.
  rewrite length_app, length_take, length_replicate. lia.
Qed.

Lemma take_regrown v buf z :
  0 <= sz v <= Z.of_nat (length buf) ->
  take (Z.to_nat (sz v)) (regrown v buf z) = elems v buf.
Proof.
  intros. unfold regrown, elems.
  rewrite take_app_le by (rewrite length_take; lia).
  rewrite take_take. f_equal. lia.
Qed.

(** ** Constructors and copy assignment, case by case *)

Lemma copy_init_eq o h n b (buf init : list T) (c : nat) :
  h !! b = Some buf -> (c + length init <= length buf)%nat ->
  copy_init init (Ptr b (Z.of_nat c)) (mkState o h n)
  = (Ret tt,
     mkState o (<[b := take c buf ++ init ++ drop (c + length init) buf]> h)
             n).
Proof.
  revert h buf c. induction init as [|x init IH]; intros h buf c Hb Hlen.
  - simpl. rewrite Nat.add_0_r, take_drop, insert_id by done. done.
  - simpl in *. proj.
    mstep by (eapply write_eq; [look|lia]).
    replace (Z.of_nat c + 1) with (Z.of_nat (S c)) by lia.
    erewrite IH; [|look|rewrite length_insert; lia].
    rewrite insert_insert_eq, Nat2Z.id.
    rewrite (take_S_r _ c x) by (apply list_lookup_insert_eq; lia).
    rewrite take_insert_ge, drop_insert_lt by lia.
    rewrite <- app_assoc. simpl.
    now replace (c + S (length init))%nat with (S (c + length init)) by lia.
Qed.

Lemma Vector_default_eq o h n this :
  min_capacity <= max_alloc ->
  Vector_default this (mkState o h n)
  = (Ret tt,
     mkState (<[this := mkVector 0 min_capacity n]> o)
             (<[n := replicate (Z.to_nat min_capacity) value_init]> h)
             (S n)).
Proof.
  intros Hm. unfold Vector_default.
  mstep by (now apply make_unique_eq). done.
Qed.

Lemma Vector_sized_eq o h n this z :
  Z.max z min_capacity <= max_alloc ->
  Vector_sized this z (mkState o h n)
  = (Ret tt,
     mkState (<[this := mkVector 0 (Z.max z min_capacity) n]> o)
             (<[n := replicate (Z.to_nat (Z.max z min_capacity)) value_init]>
                h)
             (S n)).
Proof.
  intros Hm. unfold Vector_sized.
  mstep by (now apply make_unique_eq). done.
Qed.

Lemma Vector_sized_fail s this z :
  max_alloc < Z.max z min_capacity ->
  Vector_sized this z s = (Throw bad_alloc, s).
Proof.
  intros Hm. unfold Vector_sized.
  now erewrite bind_Throw by (now apply make_unique_fail).
Qed.

Lemma Vector_init_eq o h n this init :
  Z.max (Z.of_nat (length init)) min_capacity <= max_alloc ->
  Vector_init this init (mkState o h n)
  = (Ret tt,
     mkState (<[this := mkVector (Z.of_nat (length init))
                                 (Z.max (Z.of_nat (length init)) min_capacity)
                                 n]> o)
             (<[n := init_buffer init]> h)
             (S n)).
Proof.
  intros Hm. unfold Vector_init.
  mstep by (now apply make_unique_eq).
  mstep by (unfold store_obj; reflexivity). proj.
  change 0 with (Z.of_nat 0).
  erewrite copy_init_eq; [|look|rewrite length_replicate; lia].
  rewrite insert_insert_eq, take_0, drop_replicate. simpl.
  unfold init_buffer. do 5 f_equal. unfold min_capacity. lia.
Qed.

Lemma Vector_copy_eq o h n this other vo bo :
  o !! other = Some vo -> h !! values vo = Some bo ->
  (values vo < n)%nat -> 0 <= sz vo <= Z.of_nat (length bo) ->
  sz vo <= max_sz vo <= max_alloc ->
  Vector_copy this other (mkState o h n)
  = (Ret tt,
     mkState (<[this := mkVector (sz vo) (max_sz vo) n]> o)
             (<[n := regrown vo bo (max_sz vo)]> h)
             (S n)).
Proof.
  intros Ho Hh Hn Hsz Hmax. unfold Vector_copy. msteps.
  mstep by (apply make_unique_eq; lia).
  mstep by (unfold store_obj; reflexivity). proj.
  erewrite copy_elements_eq;
    [|lia|look|look|lia|rewrite length_replicate; lia].
  now rewrite insert_insert_eq, drop_replicate.
Qed.

Lemma Vector_copy_fail s this other vo :
  objs s !! other = Some vo -> max_alloc < max_sz vo ->
  Vector_copy this other s = (Throw bad_alloc, s).
Proof.
  intros Ho Hno. unfold Vector_copy. msteps.
  erewrite bind_Throw by (now apply make_unique_fail). done.
Qed.

Lemma operator_assign_self s this :
  operator_assign this this s = (Ret tt, s).
Proof. unfold operator_assign. now rewrite decide_False by auto. Qed.

(** The refused assignment: the two size fields are already those of
    [other]. *)
Lemma operator_assign_fail o h n this other vt vo :
  this <> other ->
  o !! this = Some vt -> o !! other = Some vo -> max_alloc < max_sz vo ->
  operator_assign this other (mkState o h n)
  = (Throw bad_alloc,
     mkState (<[this := mkVector (sz vo) (max_sz vo) (values vt)]> o) h n).
Proof.
  intros Hne Ht Ho Hno.
  unfold operator_assign. rewrite decide_True by done. msteps.
  erewrite bind_Throw by (apply make_unique_fail; exact Hno).
  now rewrite insert_insert_eq.
Qed.

Lemma operator_assign_eq o h n this other vt vo bo :
  this <> other ->
  o !! this = Some vt -> o !! other = Some vo ->
  h !! values vo = Some bo -> values vt <> values vo ->
  (values vt < n)%nat -> (values vo < n)%nat ->
  0 <= sz vo <= Z.of_nat (length bo) ->
  sz vo <= max_sz vo <= max_alloc ->
  operator_assign this other (mkState o h n)
  = (Ret tt,
     mkState (<[this := mkVector (sz vo) (max_sz vo) n]> o)
             (<[n := regrown vo bo (max_sz vo)]> (delete (values vt) h))
             (S n)).
Proof.
  intros Hne Ht Ho Hh Hb Hnt Hno Hsz Hmax. unfold operator_assign.
  rewrite decide_True by done. msteps.
  mstep by (apply make_unique_eq; lia). msteps.
  erewrite copy_elements_eq; cycle 1.
  - lia.
  - rewrite lookup_delete_ne by done. look.
  - rewrite lookup_delete_ne by lia. look.
  - lia.
  - rewrite length_replicate. lia.
  - rewrite !insert_insert_eq, drop_replicate.
    rewrite delete_insert_ne by lia. now rewrite insert_insert_eq.
Qed.

(** ** The member functions, case by case *)

Section Methods.
Variables (o : gmap nat Vector) (h : gmap nat (list T)) (n : nat).
Variables (this : nat) (v : Vector) (buf : list T).
Hypothesis Ho : o !! this = Some v.
Hypothesis Hh : h !! values v = Some buf.
Hypothesis Hlen : Z.of_nat (length buf) = max_sz v.
Hypothesis Hn : (values v < n)%nat.
Hypothesis Hsz : 0 <= sz v <= max_sz v.
Hypothesis Hmax : max_sz v <= ptrdiff_max.

Let s0 := mkState o h n.

Local Ltac arith :=
  unfold in_ptrdiff in *;
  unfold modulus, ptrdiff_max, ptrdiff_min, min_capacity in *; lia.

Lemma clear_eq :
  clear this s0
  = (Ret tt, mkState (<[this := mkVector 0 (max_sz v) (values v)]> o) h n).
Proof. unfold clear. now erewrite set_sz_eq by look. Qed.

Lemma shrink_to_fit_noop :
  sz v = max_sz v -> shrink_to_fit this s0 = (Ret tt, s0).
Proof.
  intros E. unfold shrink_to_fit. msteps. now rewrite decide_True.
Qed.

Lemma shrink_to_fit_eq :
  sz v <> max_sz v -> Z.max (sz v) min_capacity <= max_alloc ->
  let z := Z.max (sz v) min_capacity in
  shrink_to_fit this s0
  = (Ret tt, mkState (<[this := mkVector (sz v) z n]> o)
                     (<[n := regrown v buf z]> (delete (values v) h))
                     (S n)).
Proof.
  intros E Hmin z. unfold shrink_to_fit. msteps.
  rewrite decide_False by done.
  mstep by (apply make_unique_eq; lia). msteps.
  mstep by (eapply copy_elements_eq;
            [|look|look| |rewrite length_replicate]; lia).
  msteps. erewrite set_max_sz_eq by look. proj.
  rewrite !insert_insert_eq, drop_replicate.
  rewrite delete_insert_ne by lia. done.
Qed.

Lemma push_back_room x :
  sz v < max_sz v ->
  push_back this x s0
  = (Ret tt,
     mkState (<[this := mkVector (sz v + 1) (max_sz v) (values v)]> o)
             (<[values v := <[Z.to_nat (sz v) := x]> buf]> h) n).
Proof.
  intros Hroom. unfold push_back. msteps.
  rewrite decide_False by lia. msteps.
  rewrite wrap_small by arith.
  erewrite write_eq by (look || lia). done.
Qed.

Lemma push_back_full x :
  sz v = max_sz v -> 0 < max_sz v -> 2 * max_sz v <= max_alloc ->
  push_back this x s0
  = (Ret tt,
     mkState (<[this := mkVector (sz v + 1) (2 * max_sz v) n]> o)
             (<[n := <[Z.to_nat (sz v) := x]>
                       (regrown v buf (2 * max_sz v))]>
                (delete (values v) h))
             (S n)).
Proof.
  intros Hfull Hpos Hroom. unfold push_back. msteps.
  rewrite decide_True by done.
  rewrite wrap_small, Z.mul_comm by arith.
  mstep by (apply reserve_grow; eauto; lia). msteps.
  rewrite wrap_small by arith.
  erewrite write_eq; [|look|rewrite length_regrown; lia].
  now rewrite !insert_insert_eq.
Qed.

Lemma push_back_fail x :
  sz v = max_sz v -> 0 < max_sz v -> max_alloc < 2 * max_sz v ->
  push_back this x s0 = (Throw bad_alloc, s0).
Proof.
  intros Hfull Hpos Hroom. unfold push_back. msteps.
  rewrite decide_True by done.
  rewrite wrap_small, Z.mul_comm by arith.
  now erewrite bind_Throw by (eapply reserve_fail; [look|lia|lia]).
Qed.

Lemma pop_back_eq :
  sz v <> 0 ->
  pop_back this s0
  = (Ret tt,
     mkState (<[this := mkVector (sz v - 1) (max_sz v) (values v)]> o) h n).
Proof.
  intros Hne. unfold pop_back. msteps. rewrite decide_False by done.
  rewrite wrap_small by arith. now erewrite set_sz_eq by look.
Qed.

Lemma pop_back_empty :
  sz v = 0 ->
  pop_back this s0
  = (Throw (runtime_error "Cannot pop from empty vector"), s0).
Proof.
  intros E. unfold pop_back. msteps. now rewrite decide_True.
Qed.

Lemma operator_index_eq i :
  i < sz v -> operator_index this i s0 = (Ret (Ptr (values v) i), s0).
Proof.
  intros Hi. unfold operator_index. msteps.
  rewrite decide_False by lia. now msteps.
Qed.

Lemma operator_index_throw i :
  i >= sz v ->
  operator_index this i s0
  = (Throw (runtime_error "Index out of bounds"), s0).
Proof.
  intros Hi. unfold operator_index. msteps. now rewrite decide_True.
Qed.

Lemma insert_throw d val :
  in_ptrdiff d -> d < 0 \/ d > sz v ->
  insert this (mkConstIterator (Ptr (values v) d)) val s0
  = (Throw (runtime_error "Iterator out of bounds"), s0).
Proof.
  intros Hd Hout. unfold insert.
  mstep by (eapply begin_eq; look).
  mstep by (now apply operator_minus_eq). msteps.
  rewrite decide_True; [done|].
  destruct (decide (d < 0)); [now left|right].
  rewrite wrap_small by arith. lia.
Qed.

(** With room left, up to the point where [val] is read: the elements
    from [d] on have moved one slot up. *)
Lemma insert_room_upto d val r :
  0 <= d <= sz v -> sz v < max_sz v ->
  deref val
    (mkState o (<[values v :=
                    shift_right buf (Z.to_nat d) (Z.to_nat (sz v - d))]> h) n)
  = (r, mkState o (<[values v :=
                       shift_right buf (Z.to_nat d) (Z.to_nat (sz v - d))]> h)
                n) ->
  insert this (mkConstIterator (Ptr (values v) d)) val s0
  = match r with
    | Ret x =>
        (Ret (mkIterator (Ptr (values v) d)),
         mkState (<[this := mkVector (sz v + 1) (max_sz v) (values v)]> o)
                 (<[values v := <[Z.to_nat d := x]>
                      (shift_right buf (Z.to_nat d)
                                   (Z.to_nat (sz v - d)))]> h)
                 n)
    | Throw e =>
        (Throw e,
         mkState o (<[values v :=
                        shift_right buf (Z.to_nat d)
                                    (Z.to_nat (sz v - d))]> h) n)
    | Undef =>
        (Undef,
         mkState o (<[values v :=
                        shift_right buf (Z.to_nat d)
                                    (Z.to_nat (sz v - d))]> h) n)
    end.
Proof.
  intros Hd Hroom Hval. unfold insert.
  mstep by (eapply begin_eq; look).
  mstep by (apply operator_minus_eq; arith). msteps.
  rewrite wrap_small by arith.
  rewrite decide_False by lia. msteps.
  rewrite decide_False by lia. msteps.
  mstep by (eapply shift_right_eqZ; [look|..]; arith).
  destruct r as [x|e|].
  - mstep by exact Hval.
    mstep by (eapply write_eq; [look|];
              rewrite length_shift_right by lia; lia).
    msteps. rewrite wrap_small by arith.
    now rewrite !insert_insert_eq.
  - now erewrite bind_Throw by exact Hval.
  - now erewrite bind_Undef by exact Hval.
Qed.

Lemma insert_room d x :
  0 <= d <= sz v -> sz v < max_sz v ->
  insert this (mkConstIterator (Ptr (values v) d)) (ref_value x) s0
  = (Ret (mkIterator (Ptr (values v) d)),
     mkState (<[this := mkVector (sz v + 1) (max_sz v) (values v)]> o)
             (<[values v := <[Z.to_nat d := x]>
                  (shift_right buf (Z.to_nat d) (Z.to_nat (sz v - d)))]> h)
             n).
Proof.
  intros Hd Hroom.
  exact (insert_room_upto d (ref_value x) (Ret x) Hd Hroom eq_refl).
Qed.

(** With room left and [val] bound to slot [i] of the container's own
    buffer: what is stored is what the shifting loop left in that slot. *)
Lemma insert_room_slot d i y :
  0 <= d <= sz v -> sz v < max_sz v -> 0 <= i ->
  shift_right buf (Z.to_nat d) (Z.to_nat (sz v - d)) !! Z.to_nat i = Some y ->
  insert this (mkConstIterator (Ptr (values v) d))
         (ref_slot (Ptr (values v) i)) s0
  = (Ret (mkIterator (Ptr (values v) d)),
     mkState (<[this := mkVector (sz v + 1) (max_sz v) (values v)]> o)
             (<[values v := <[Z.to_nat d := y]>
                  (shift_right buf (Z.to_nat d) (Z.to_nat (sz v - d)))]> h)
             n).
Proof.
  intros Hd Hroom Hi Hy.
  refine (insert_room_upto d (ref_slot (Ptr (values v) i)) (Ret y)
            Hd Hroom _).
  cbn [deref]. eapply read_eq; [look|exact Hi|exact Hy].
Qed.

(** On a full container, up to the point where [val] is read: the buffer
    is a new block, the old one is freed, and the elements from [d] on
    have moved one slot up. *)
Lemma insert_full_upto d val r :
  0 <= d <= sz v -> sz v = max_sz v -> 0 < max_sz v ->
  2 * max_sz v <= max_alloc ->
  deref val
    (mkState (<[this := mkVector (sz v) (2 * max_sz v) n]> o)
             (<[n := shift_right (regrown v buf (2 * max_sz v))
                                 (Z.to_nat d) (Z.to_nat (sz v - d))]>
                (delete (values v) h))
             (S n))
  = (r, mkState (<[this := mkVector (sz v) (2 * max_sz v) n]> o)
                (<[n := shift_right (regrown v buf (2 * max_sz v))
                                    (Z.to_nat d) (Z.to_nat (sz v - d))]>
                   (delete (values v) h))
                (S n)) ->
  insert this (mkConstIterator (Ptr (values v) d)) val s0
  = match r with
    | Ret x =>
        (Ret (mkIterator (Ptr n d)),
         mkState (<[this := mkVector (sz v + 1) (2 * max_sz v) n]> o)
                 (<[n := <[Z.to_nat d := x]>
                      (shift_right (regrown v buf (2 * max_sz v))
                                   (Z.to_nat d) (Z.to_nat (sz v - d)))]>
                    (delete (values v) h))
                 (S n))
    | Throw e =>
        (Throw e,
         mkState (<[this := mkVector (sz v) (2 * max_sz v) n]> o)
                 (<[n := shift_right (regrown v buf (2 * max_sz v))
                                     (Z.to_nat d) (Z.to_nat (sz v - d))]>
                    (delete (values v) h))
                 (S n))
    | Undef =>
        (Undef,
         mkState (<[this := mkVector (sz v) (2 * max_sz v) n]> o)
                 (<[n := shift_right (regrown v buf (2 * max_sz v))
                                     (Z.to_nat d) (Z.to_nat (sz v - d))]>
                    (delete (values v) h))
                 (S n))
    end.
Proof.
  intros Hd Hfull Hpos Hroom Hval. unfold insert.
  mstep by (eapply begin_eq; look).
  mstep by (apply operator_minus_eq; arith). msteps.
  rewrite wrap_small by arith.
  rewrite decide_False by lia. msteps.
  rewrite decide_True by lia.
  rewrite wrap_small, Z.mul_comm by arith.
  mstep by (apply reserve_grow; eauto; lia). msteps.
  assert (Z.of_nat (length (regrown v buf (2 * max_sz v))) = 2 * max_sz v)
    as Hrg by (apply length_regrown; lia).
  mstep by (eapply shift_right_eqZ; [look|..]; arith).
  rewrite insert_insert_eq.
  destruct r as [x|e|].
  - mstep by exact Hval.
    mstep by (eapply write_eq; [look|];
              rewrite length_shift_right by lia; lia).
    msteps. rewrite wrap_small by arith.
    now rewrite !insert_insert_eq.
  - now erewrite bind_Throw by exact Hval.
  - now erewrite bind_Undef by exact Hval.
Qed.

Lemma insert_full d x :
  0 <= d <= sz v -> sz v = max_sz v -> 0 < max_sz v ->
  2 * max_sz v <= max_alloc ->
  insert this (mkConstIterator (Ptr (values v) d)) (ref_value x) s0
  = (Ret (mkIterator (Ptr n d)),
     mkState (<[this := mkVector (sz v + 1) (2 * max_sz v) n]> o)
             (<[n := <[Z.to_nat d := x]>
                  (shift_right (regrown v buf (2 * max_sz v))
                               (Z.to_nat d) (Z.to_nat (sz v - d)))]>
                (delete (values v) h))
             (S n)).
Proof.
  intros Hd Hfull Hpos Hroom.
  exact (insert_full_upto d (ref_value x) (Ret x) Hd Hfull Hpos Hroom
           eq_refl).
Qed.

(** On a full container with [val] bound to a slot of the container's own
    buffer: [reserve] has freed the block [val] refers to, and the read at
    [values[current] = val] is a read of freed memory. *)
Lemma insert_full_slot d i :
  0 <= d <= sz v -> sz v = max_sz v -> 0 < max_sz v ->
  2 * max_sz v <= max_alloc ->
  insert this (mkConstIterator (Ptr (values v) d))
         (ref_slot (Ptr (values v) i)) s0
  = (Undef,
     mkState (<[this := mkVector (sz v) (2 * max_sz v) n]> o)
             (<[n := shift_right (regrown v buf (2 * max_sz v))
                                 (Z.to_nat d) (Z.to_nat (sz v - d))]>
                (delete (values v) h))
             (S n)).
Proof.
  intros Hd Hfull Hpos Hroom.
  refine (insert_full_upto d (ref_slot (Ptr (values v) i)) Undef
            Hd Hfull Hpos Hroom _).
  cbn [deref]. unfold read. proj.
  rewrite lookup_insert_ne by lia. now rewrite lookup_delete_eq.
Qed.

Lemma insert_fail d val :
  0 <= d <= sz v -> sz v = max_sz v -> 0 < max_sz v ->
  max_alloc < 2 * max_sz v ->
  insert this (mkConstIterator (Ptr (values v) d)) val s0
  = (Throw bad_alloc, s0).
Proof.
  intros Hd Hfull Hpos Hroom. unfold insert.
  mstep by (eapply begin_eq; look).
  mstep by (apply operator_minus_eq; arith). msteps.
  rewrite wrap_small by arith.
  rewrite decide_False by lia. msteps.
  rewrite decide_True by lia.
  rewrite wrap_small, Z.mul_comm by arith.
  now erewrite bind_Throw by (eapply reserve_fail; [look|lia|lia]).
Qed.

Lemma erase_throw d :
  in_ptrdiff d -> d < 0 \/ d >= sz v ->
  erase this (mkConstIterator (Ptr (values v) d)) s0
  = (Throw (runtime_error "Iterator out of bounds"), s0).
Proof.
  intros Hd Hout. unfold erase.
  mstep by (eapply begin_eq; look).
  mstep by (now apply operator_minus_eq). msteps.
  rewrite decide_True; [done|].
  destruct (decide (d < 0)); [now left|right].
  rewrite wrap_small by arith. lia.
Qed.

Lemma erase_eq d :
  0 <= d < sz v ->
  erase this (mkConstIterator (Ptr (values v) d)) s0
  = (Ret (mkIterator (Ptr (values v) d)),
     mkState (<[this := mkVector (sz v - 1) (max_sz v) (values v)]> o)
             (<[values v :=
                  shift_left buf (Z.to_nat d) (Z.to_nat (sz v - 1 - d))]> h)
             n).
Proof.
  intros Hd. unfold erase.
  mstep by (eapply begin_eq; look).
  mstep by (apply operator_minus_eq; arith). msteps.
  rewrite !wrap_small by arith.
  rewrite decide_False by lia. msteps.
  mstep by (eapply shift_left_eqZ; [look|..]; arith).
  now msteps.
Qed.

End Methods.

(** ** What a caller observes *)

Ltac open_owns H :=
  let Ho := fresh "Ho" in
  let Hh := fresh "Hh" in
  let Hlen := fresh "Hlen" in
  let Hn := fresh "Hn" in
  destruct H as [Ho Hh Hlen Hn];
  match type of Ho with
  | objs ?s !! _ = _ => is_var s; destruct s as [?o ?h ?n]
  | _ => idtac
  end;
  proj_all.

Lemma owns_size s this v buf :
  owns s this v buf -> size this s = (Ret (sz v), s).
Proof. intros []. now apply get_sz_eq. Qed.

Lemma owns_capacity s this v buf :
  owns s this v buf -> capacity this s = (Ret (max_sz v), s).
Proof. intros []. now apply get_max_sz_eq. Qed.

Lemma owns_index_get s this v buf (i : nat) x :
  owns s this v buf -> 0 <= sz v <= max_sz v ->
  elems v buf !! i = Some x ->
  index_get this (Z.of_nat i) s = (Ret x, s).
Proof.
  intros Hown Hsz Hx. open_owns Hown.
  apply lookup_take_Some in Hx as [Hx Hi].
  unfold index_get.
  mstep by (eapply operator_index_eq; eauto; lia).
  eapply read_eq; eauto; [lia|]. now rewrite Nat2Z.id.
Qed.

Lemma owns_observes s this v buf :
  owns s this v buf -> 0 <= sz v <= max_sz v ->
  observes s this (elems v buf).
Proof.
  intros Hown Hsz. split.
  - erewrite owns_size by eauto. do 2 f_equal.
    unfold elems. rewrite length_take. destruct Hown. lia.
  - intros i x Hx. eapply owns_index_get; eauto.
Qed.

(** The observed sequence is unique. *)
Lemma observes_inj s this l1 l2 :
  observes s this l1 -> observes s this l2 -> l1 = l2.
Proof.
  intros [Hs1 Hi1] [Hs2 Hi2].
  assert (length l1 = length l2) as Hlen.
  { rewrite Hs1 in Hs2. inversion Hs2. lia. }
  apply list_eq_same_length with (length l1); auto.
  intros i x y Hi Hx Hy.
  specialize (Hi1 i x Hx). specialize (Hi2 i y Hy).
  rewrite Hi1 in Hi2. now inversion Hi2.
Qed.

Lemma advance_incr it (k : nat) :
  advance it (Z.of_nat k) = Nat.iter k operator_incr it.
Proof.
  induction k as [|k IH].
  - destruct it as [[b i]]. unfold advance. simpl. now rewrite Z.add_0_r.
  - rewrite Nat2Z.inj_succ. simpl. rewrite <- IH.
    unfold advance, operator_incr. simpl. do 2 f_equal. lia.
Qed.

Lemma insert_from_begin_eq s this v d x :
  objs s !! this = Some v ->
  insert_from_begin this d x s
  = insert this (mkConstIterator (Ptr (values v) d)) (ref_value x) s.
Proof.
  intros Ho. unfold insert_from_begin.
  mstep by (eapply begin_eq; eauto). reflexivity.
Qed.

Lemma erase_from_begin_eq s this v d :
  objs s !! this = Some v ->
  erase_from_begin this d s
  = erase this (mkConstIterator (Ptr (values v) d)) s.
Proof.
  intros Ho. unfold erase_from_begin.
  mstep by (eapply begin_eq; eauto). reflexivity.
Qed.

Lemma wf_view_at bound s this l c :
  wf_within bound s this -> observes s this l -> capacity this s = (Ret c, s) ->
  exists v buf,
    owns s this v buf /\ inv v /\ max_sz v <= bound /\
    l = elems v buf /\ c = max_sz v /\ Z.of_nat (length l) = sz v.
Proof.
  intros (v & buf & Hown & Hinv & Hmax) Hobs Hcap.
  exists v, buf.
  assert (l = elems v buf) as ->.
  { eapply observes_inj; eauto. apply owns_observes; auto. apply Hinv. }
  erewrite owns_capacity in Hcap by eauto. inversion Hcap; subst c.
  split; [exact Hown|]. split; [exact Hinv|]. split; [exact Hmax|].
  split; [reflexivity|]. split; [reflexivity|].
  unfold elems. rewrite length_take. destruct Hown, Hinv. lia.
Qed.

Lemma wf_view s this l c :
  wf s this -> observes s this l -> capacity this s = (Ret c, s) ->
  exists v buf,
    owns s this v buf /\ inv v /\ max_sz v <= max_alloc /\
    l = elems v buf /\ c = max_sz v /\ Z.of_nat (length l) = sz v.
Proof. exact (wf_view_at max_alloc s this l c). Qed.

Lemma within_view bound s this l c :
  wf_within bound s this -> observes s this l ->
  capacity this s = (Ret c, s) ->
  exists v buf,
    owns s this v buf /\ inv v /\ max_sz v <= bound /\
    l = elems v buf /\ c = max_sz v /\ Z.of_nat (length l) = sz v.
Proof. exact (wf_view_at bound s this l c). Qed.

Lemma wf_intro s this v buf :
  owns s this v buf -> inv v -> max_sz v <= max_alloc -> wf s this.
Proof. intros. exists v, buf. auto. Qed.

Lemma wf_invariant s this : wf s this -> invariant s this.
Proof.
  intros (v & buf & Hown & [Hsz Hmin] & Hmax).
  exists (sz v), (max_sz v).
  erewrite owns_size, owns_capacity by eauto. repeat split; auto; lia.
Qed.

(** ** Specifications of the member functions *)

Ltac framed :=
  split; [|split]; proj;
  [ intros; rewrite ?lookup_insert_ne by congruence; reflexivity
  | intros; rewrite ?lookup_insert_ne, ?lookup_delete_ne
      by (congruence || lia); reflexivity
  | lia ].

Lemma length_regrown_nat v buf z :
  0 <= sz v <= Z.of_nat (length buf) -> sz v <= z ->
  length (regrown v buf z) = Z.to_nat z.
Proof. intros. pose proof (length_regrown v buf z). lia. Qed.

Lemma elems_regrown v buf z k b :
  0 <= sz v <= Z.of_nat (length buf) ->
  elems (mkVector (sz v) k b) (regrown v buf z) = elems v buf.
Proof. intros. unfold elems at 1. proj. now apply take_regrown. Qed.

(** Reallocation: what [reserve] and [shrink_to_fit] leave behind. *)
Lemma regrown_owns o h n this v buf z :
  0 <= sz v <= Z.of_nat (length buf) -> sz v <= z ->
  owns (mkState (<[this := mkVector (sz v) z n]> o)
                (<[n := regrown v buf z]> (delete (values v) h)) (S n))
       this (mkVector (sz v) z n) (regrown v buf z).
Proof.
  intros. constructor; proj; [look|look|proj|proj; lia].
  now apply length_regrown.
Qed.

Lemma reserve_spec s this v buf z :
  owns s this v buf -> 0 <= sz v <= max_sz v ->
  max_sz v < z <= max_alloc ->
  exists s' buf',
    reserve this z s = (Ret tt, s') /\
    owns s' this (mkVector (sz v) z (brk s)) buf' /\
    elems (mkVector (sz v) z (brk s)) buf' = elems v buf /\
    frame s s' this (values v).
Proof.
  intros Hown Hsz Hz. open_owns Hown.
  eexists _, _. split; [apply reserve_grow; eauto; lia|].
  split; [apply regrown_owns; lia|].
  split; [apply elems_regrown; lia|]. framed.
Qed.

Lemma shrink_to_fit_spec s this v buf :
  owns s this v buf -> inv v -> Z.max (sz v) min_capacity <= max_alloc ->
  sz v <> max_sz v ->
  exists s' buf',
    let v' := mkVector (sz v) (Z.max (sz v) min_capacity) (brk s) in
    shrink_to_fit this s = (Ret tt, s') /\
    owns s' this v' buf' /\ elems v' buf' = elems v buf /\
    frame s s' this (values v).
Proof.
  intros Hown [Hsz Hmin] Hmax Hne. open_owns Hown.
  eexists _, _.
  split; [eapply shrink_to_fit_eq; eauto; unfold min_capacity in *; lia|].
  split; [apply regrown_owns; lia|].
  split; [apply elems_regrown; lia|]. framed.
Qed.

Lemma push_back_spec s this v buf x :
  owns s this v buf -> inv v -> max_sz v <= ptrdiff_max ->
  sz v < max_sz v \/ 2 * max_sz v <= max_alloc ->
  exists s' v' buf',
    push_back this x s = (Ret tt, s') /\
    owns s' this v' buf' /\
    sz v' = sz v + 1 /\
    max_sz v' = (if decide (sz v = max_sz v)
                 then max_sz v * 2 else max_sz v) /\
    elems v' buf' = elems v buf ++ [x] /\
    buf' !! Z.to_nat (sz v) = Some x /\
    frame s s' this (values v) /\
    (values v' = values v /\ brk s' = brk s \/ values v' = brk s).
Proof.
  intros Hown [Hsz Hmin] Hmax Hroom. open_owns Hown.
  unfold min_capacity in Hmin.
  destruct (decide (sz v = max_sz v)) as [Hfull|Hnot].
  - eexists _, _, _.
    split; [eapply push_back_full; eauto; lia|].
    assert (length (regrown v buf (2 * max_sz v))
            = Z.to_nat (2 * max_sz v)) as Hrg
      by (apply length_regrown_nat; lia).
    split; [constructor; proj; [look|look|proj|proj; lia]|].
    { rewrite length_insert, Hrg. lia. }
    proj. split; [done|]. split; [lia|].
    split.
    { unfold elems at 1. proj.
      replace (Z.to_nat (sz v + 1)) with (S (Z.to_nat (sz v))) by lia.
      rewrite take_push by lia. now rewrite take_regrown by lia. }
    split; [apply list_lookup_insert_eq; lia|].
    split; [framed|auto].
  - eexists _, _, _.
    split; [eapply push_back_room; eauto; lia|].
    split; [constructor; proj; [look|look|proj|proj; lia]|].
    { rewrite length_insert. lia. }
    proj. split; [done|]. split; [done|].
    split.
    { unfold elems. proj.
      replace (Z.to_nat (sz v + 1)) with (S (Z.to_nat (sz v))) by lia.
      now rewrite take_push by lia. }
    split; [apply list_lookup_insert_eq; lia|].
    split; [framed|auto].
Qed.

Lemma pop_back_spec s this v buf :
  owns s this v buf -> inv v -> max_sz v <= ptrdiff_max -> sz v <> 0 ->
  exists s',
    let v' := mkVector (sz v - 1) (max_sz v) (values v) in
    pop_back this s = (Ret tt, s') /\
    owns s' this v' buf /\
    elems v' buf = take (Z.to_nat (sz v) - 1) (elems v buf) /\
    frame s s' this (values v) /\ brk s' = brk s.
Proof.
  intros Hown [Hsz Hmin] Hmax Hne. open_owns Hown.
  eexists. split; [eapply pop_back_eq; eauto|].
  split; [constructor; proj; [look|look|proj; lia|proj; lia]|].
  split.
  { unfold elems. proj. rewrite take_take. f_equal. lia. }
  split; [framed|done].
Qed.

Lemma insert_spec s this v buf d x :
  owns s this v buf -> inv v -> max_sz v <= ptrdiff_max ->
  0 <= d <= sz v ->
  sz v < max_sz v \/ 2 * max_sz v <= max_alloc ->
  exists s' v' buf',
    insert this (mkConstIterator (Ptr (values v) d)) (ref_value x) s
    = (Ret (mkIterator (Ptr (values v') d)), s') /\
    owns s' this v' buf' /\
    sz v' = sz v + 1 /\
    max_sz v' = (if decide (sz v = max_sz v)
                 then max_sz v * 2 else max_sz v) /\
    elems v' buf' = insert_at (elems v buf) (Z.to_nat d) x /\
    frame s s' this (values v) /\
    (values v' = values v /\ brk s' = brk s \/ values v' = brk s).
Proof.
  intros Hown [Hsz Hmin] Hmax Hd Hroom. open_owns Hown.
  unfold min_capacity in Hmin.
  destruct (decide (sz v = max_sz v)) as [Hfull|Hnot].
  - eexists _, (mkVector (sz v + 1) (2 * max_sz v) n), _.
    split; [proj; eapply insert_full; eauto; lia|].
    assert (length (regrown v buf (2 * max_sz v))
            = Z.to_nat (2 * max_sz v)) as Hrg
      by (apply length_regrown_nat; lia).
    split; [constructor; proj; [look|look|proj|proj; lia]|].
    { rewrite length_insert, length_shift_right by lia. lia. }
    proj. split; [done|]. split; [lia|].
    split.
    { unfold elems at 1. proj.
      replace (Z.to_nat (sz v + 1)) with (S (Z.to_nat (sz v))) by lia.
      replace (Z.to_nat (sz v - d))
        with (Z.to_nat (sz v) - Z.to_nat d)%nat by lia.
      rewrite take_insert_shift by lia. now rewrite take_regrown by lia. }
    split; [framed|auto].
  - eexists _, (mkVector (sz v + 1) (max_sz v) (values v)), _.
    split; [proj; eapply insert_room; eauto; lia|].
    split; [constructor; proj; [look|look|proj|proj; lia]|].
    { rewrite length_insert, length_shift_right by lia. lia. }
    proj. split; [done|]. split; [done|].
    split.
    { unfold elems. proj.
      replace (Z.to_nat (sz v + 1)) with (S (Z.to_nat (sz v))) by lia.
      replace (Z.to_nat (sz v - d))
        with (Z.to_nat (sz v) - Z.to_nat d)%nat by lia.
      now rewrite take_insert_shift by lia. }
    split; [framed|auto].
Qed.

Lemma erase_spec s this v buf d :
  owns s this v buf -> inv v -> max_sz v <= ptrdiff_max ->
  0 <= d < sz v ->
  exists s' buf',
    let v' := mkVector (sz v - 1) (max_sz v) (values v) in
    erase this (mkConstIterator (Ptr (values v) d)) s
    = (Ret (mkIterator (Ptr (values v) d)), s') /\
    owns s' this v' buf' /\
    elems v' buf' = delete (Z.to_nat d) (elems v buf) /\
    frame s s' this (values v) /\ brk s' = brk s.
Proof.
  intros Hown [Hsz Hmin] Hmax Hd. open_owns Hown.
  eexists _, _.
  split; [eapply erase_eq; eauto; lia|].
  split; [constructor; proj; [look|look|proj|proj; lia]|].
  { rewrite length_shift_left by lia. lia. }
  split.
  { unfold elems. proj.
    replace (Z.to_nat (sz v - 1)) with (Z.to_nat (sz v) - 1)%nat by lia.
    replace (Z.to_nat (sz v - 1 - d))
      with (Z.to_nat (sz v) - 1 - Z.to_nat d)%nat by lia.
    now rewrite take_shift_left by lia. }
  split; [framed|done].
Qed.

(** ** Appending *)

Lemma push_back_all this (vs : list T) :
  forall s v buf,
    owns s this v buf -> inv v -> max_sz v <= max_alloc ->
    2 * (sz v + Z.of_nat (length vs)) <= max_alloc ->
    exists s' v' buf',
      for_each vs (push_back this) s = (Ret tt, s') /\
      owns s' this v' buf' /\ inv v' /\ max_sz v' <= max_alloc /\
      elems v' buf' = elems v buf ++ vs.
Proof.
  induction vs as [|x vs IH]; intros s v buf Hown Hinv Hmax Hroom.
  - exists s, v, buf. rewrite app_nil_r. auto.
  - simpl length in Hroom.
    destruct (push_back_spec s this v buf x Hown Hinv (granted_size _ Hmax))
      as (s1 & v1 & buf1 & Hrun & Hown1 & Hsz1 & Hmax1 & Hel1 & _).
    { destruct Hinv. lia. }
    assert (inv v1 /\ max_sz v1 <= max_alloc) as [Hinv1 Hmax1'].
    { destruct Hinv as [Hsz Hmin]. unfold inv. rewrite Hsz1, Hmax1.
      unfold min_capacity in *. destruct (decide (sz v = max_sz v)); lia. }
    destruct (IH s1 v1 buf1 Hown1 Hinv1 Hmax1') as (s' & v' & buf' & Hrun' & Hrest).
    { lia. }
    exists s', v', buf'. split.
    + cbn [for_each]. now erewrite bind_Ret by exact Hrun.
    + rewrite Hel1, <- app_assoc in Hrest. exact Hrest.
Qed.

Lemma Vector_default_spec s this :
  min_capacity <= max_alloc ->
  exists s' buf,
    let v := mkVector 0 min_capacity (brk s) in
    Vector_default this s = (Ret tt, s') /\
    owns s' this v buf /\ inv v /\ elems v buf = [] /\
    (forall o, o <> this -> objs s' !! o = objs s !! o) /\
    (forall b, (b < brk s)%nat -> heap s' !! b = heap s !! b).
Proof.
  intros Hm. destruct s as [o h n]. eexists _, _.
  split; [now apply Vector_default_eq|].
  split; [constructor; proj; [look|look|proj|proj; lia]|].
  { now rewrite length_replicate. }
  split; [unfold inv, min_capacity; proj; lia|].
  split; [reflexivity|].
  split; proj; intros; rewrite lookup_insert_ne by (congruence || lia); done.
Qed.

(** C1.  Starting from a default-constructed container, [push_back] of
    [v_0], ..., [v_(N-1)] in order succeeds and leaves a container whose
    [size()] is [N] and whose [i]-th element, read through [operator[]], is
    [v_i], however many times the capacity doubled on the way.  The
    allocator must be able to grant the buffers the run asks for: none is
    longer than [max (2 * N) 5] slots. *)
Theorem append_correctness (s : state) (this : nat) (vs : list T) :
  min_capacity <= max_alloc ->
  2 * Z.of_nat (length vs) <= max_alloc ->
  exists s',
    (Vector_default this;; for_each vs (push_back this)) s = (Ret tt, s') /\
    observes s' this vs.
Proof.
  intros Hmin Hroom.
  destruct (Vector_default_spec s this Hmin)
    as (s0 & buf0 & Hrun0 & Hown0 & Hinv0 & Hel0 & _).
  destruct (push_back_all this vs s0 _ buf0 Hown0 Hinv0)
    as (s' & v' & buf' & Hrun & Hown & Hinv & Hmax & Hel).
  { exact Hmin. }
  { proj. lia. }
  exists s'. split.
  - now erewrite bind_Ret by exact Hrun0.
  - rewrite Hel0 in Hel. simpl in Hel. rewrite <- Hel.
    apply owns_observes; [exact Hown|apply Hinv].
Qed.

(** C10.  [push_back(x)] followed at once by [pop_back()] succeeds and
    shows the sequence it started from: the same [size()] and the same
    element at every index below it.  (When the container is full the
    push reallocates, so the allocator must grant twice the capacity.) *)
Theorem push_pop_round_trip (s : state) (this : nat) (l : list T) (c : Z) (x : T) :
  wf s this -> observes s this l -> capacity this s = (Ret c, s) ->
  Z.of_nat (length l) < c \/ 2 * c <= max_alloc ->
  exists s',
    (push_back this x;; pop_back this) s = (Ret tt, s') /\
    observes s' this l /\ wf s' this.
Proof.
  intros Hwf Hobs Hcap Hroom.
  destruct (wf_view s this l c Hwf Hobs Hcap)
    as (v & buf & Hown & Hinv & Hmax & -> & -> & Hlen).
  destruct (push_back_spec s this v buf x Hown Hinv (granted_size _ Hmax))
    as (s1 & v1 & buf1 & Hrun1 & Hown1 & Hsz1 & Hmax1 & Hel1 & _).
  { lia. }
  assert (inv v1 /\ max_sz v1 <= max_alloc) as [Hinv1 Hmax1'].
  { destruct Hinv as [Hsz Hmin]. unfold inv. rewrite Hsz1, Hmax1.
    unfold min_capacity in *. destruct (decide (sz v = max_sz v)); lia. }
  destruct (pop_back_spec s1 this v1 buf1 Hown1 Hinv1 (granted_size _ Hmax1'))
    as (s2 & Hrun2 & Hown2 & Hel2 & _).
  { destruct Hinv. lia. }
  exists s2. split; [now erewrite bind_Ret by exact Hrun1|].
  assert (elems (mkVector (sz v1 - 1) (max_sz v1) (values v1)) buf1
          = elems v buf) as Hel.
  { rewrite Hel2, Hel1, Hsz1.
    replace (Z.to_nat (sz v + 1) - 1)%nat with (length (elems v buf)) by lia.
    now rewrite take_app_length. }
  split.
  - rewrite <- Hel. apply owns_observes; [exact Hown2|].
    proj. destruct Hinv1. lia.
  - eapply wf_intro; [exact Hown2| |exact Hmax1'].
    destruct Hinv1. unfold inv. proj. lia.
Qed.

Lemma delete_insert_at (l : list T) (d : nat) x :
  (d <= length l)%nat -> delete d (insert_at l d x) = l.
Proof.
  intros Hd. unfold insert_at. rewrite delete_take_drop.
  rewrite take_app_le, take_take, Nat.min_id by (rewrite length_take; lia).
  rewrite drop_app_ge by (rewrite length_take; lia).
  rewrite length_take, Nat.min_l by lia.
  replace (S d - d)%nat with 1%nat by lia. simpl.
  rewrite drop_0. apply take_drop.
Qed.

(** The buffer after the shifting loop of [insert]: slot [i] holds what
    it held before up to the insertion point, and what its left neighbour
    held beyond it. *)
Lemma lookup_shift_right (buf : list T) (c j i : nat) :
  (c + j < length buf)%nat -> (i <= c + j)%nat ->
  shift_right buf c j !! i
  = buf !! (if decide (i <= c)%nat then i else pred i).
Proof.
  intros Hlen Hi. unfold shift_right.
  destruct (decide (i <= c)%nat) as [Hle|Hgt].
  - rewrite lookup_app_l by (rewrite length_take; lia).
    apply lookup_take_lt. lia.
  - rewrite lookup_app_r by (rewrite length_take; lia).
    rewrite length_take, Nat.min_l by lia.
    rewrite lookup_app_l by (rewrite length_take, length_drop; lia).
    rewrite lookup_take_lt by lia. rewrite lookup_drop. f_equal. lia.
Qed.

Lemma insert_element_eq s this v buf d i :
  owns s this v buf -> 0 <= sz v <= max_sz v -> i < sz v ->
  insert_element this d i s
  = insert this (mkConstIterator (Ptr (values v) d))
           (ref_slot (Ptr (values v) i)) s.
Proof.
  intros Hown Hsz Hi. open_owns Hown. unfold insert_element.
  mstep by (eapply operator_index_eq; eauto).
  mstep by (eapply begin_eq; look).
  unfold advance, to_ConstIterator. proj. now rewrite Z.add_0_l.
Qed.

Lemma push_back_element_eq s this v buf (i : nat) x :
  owns s this v buf -> 0 <= sz v <= max_sz v ->
  elems v buf !! i = Some x ->
  push_back_element this (Z.of_nat i) s = push_back this x s.
Proof.
  intros Hown Hsz Hx. unfold push_back_element.
  now erewrite bind_Ret by (eapply owns_index_get; eauto).
Qed.

(** [insert] with room left and [val] bound to the container's own
    element [i]: the stored value [y] is the element the shifting loop
    left in slot [i]. *)
Lemma insert_slot_spec s this v buf d i :
  owns s this v buf -> inv v -> max_sz v <= ptrdiff_max ->
  0 <= d <= sz v -> 0 <= i < sz v -> sz v < max_sz v ->
  exists y s' buf',
    let v' := mkVector (sz v + 1) (max_sz v) (values v) in
    elems v buf !! Z.to_nat (if decide (i <= d) then i else i - 1) = Some y /\
    insert this (mkConstIterator (Ptr (values v) d))
           (ref_slot (Ptr (values v) i)) s
    = (Ret (mkIterator (Ptr (values v) d)), s') /\
    owns s' this v' buf' /\
    elems v' buf' = insert_at (elems v buf) (Z.to_nat d) y /\
    buf' !! Z.to_nat d = Some y /\
    frame s s' this (values v) /\ brk s' = brk s.
Proof.
  intros Hown [Hsz Hmin] Hmax Hd Hi Hroom. open_owns Hown.
  unfold min_capacity in Hmin.
  set (k := Z.to_nat (if decide (i <= d) then i else i - 1)).
  assert (k < Z.to_nat (sz v))%nat as Hk
    by (unfold k; destruct (decide (i <= d)); lia).
  destruct (lookup_lt_is_Some_2 buf k) as [y Hy]; [lia|].
  assert (shift_right buf (Z.to_nat d) (Z.to_nat (sz v - d)) !! Z.to_nat i
          = Some y) as Hslot.
  { rewrite lookup_shift_right by lia. rewrite <- Hy. f_equal. unfold k.
    destruct (decide (Z.to_nat i <= Z.to_nat d)%nat), (decide (i <= d));
      lia. }
  eexists y, _, _. cbv zeta.
  split; [unfold elems; rewrite lookup_take_lt by lia; exact Hy|].
  split; [eapply insert_room_slot; eauto; lia|].
  split; [constructor; proj; [look|look|proj|proj; lia]|].
  { rewrite length_insert, length_shift_right by lia. lia. }
  split.
  { unfold elems. proj.
    replace (Z.to_nat (sz v + 1)) with (S (Z.to_nat (sz v))) by lia.
    replace (Z.to_nat (sz v - d))
      with (Z.to_nat (sz v) - Z.to_nat d)%nat by lia.
    now rewrite take_insert_shift by lia. }
  split; [apply list_lookup_insert_eq;
          rewrite length_shift_right by lia; lia|].
  split; [framed|reflexivity].
Qed.

(** C2.  The round trip does not hold for every value.  [insert] takes
    its value by reference and reads it last, after [reserve] and after
    the shifting loop.  When the container is full and the value is one of
    its own elements, [c.insert(c.begin() + d, c[i])], then [reserve] has
    freed the block the reference points into by the time it is read: the
    call is a read of freed memory at every position [d] and every element
    [i], and so is [erase] of its result. *)
Theorem insert_erase_self_reference
  (s : state) (this : nat) (l : list T) (c d i : Z) :
  wf s this -> observes s this l -> capacity this s = (Ret c, s) ->
  Z.of_nat (length l) = c -> 2 * c <= max_alloc ->
  0 <= d <= Z.of_nat (length l) -> 0 <= i < Z.of_nat (length l) ->
  exists s',
    insert_element this d i s = (Undef, s') /\
    (it ← insert_element this d i; erase this (to_ConstIterator it)) s
    = (Undef, s').
Proof.
  intros Hwf Hobs Hcap Hfull Hgrant Hd Hi.
  destruct (wf_view s this l c Hwf Hobs Hcap)
    as (v & buf & Hown & Hinv & Hmax & -> & -> & Hlen).
  pose proof Hinv as [Hsz Hmin]. rewrite Hlen in *.
  unfold min_capacity in Hmin.
  pose proof (insert_element_eq s this v buf d i Hown Hsz ltac:(lia)) as Heq.
  pose proof Hown as Hown'. open_owns Hown'.
  eexists.
  assert (forall s', insert this (mkConstIterator (Ptr (values v) d))
                            (ref_slot (Ptr (values v) i))
                            (mkState o h n) = (Undef, s') ->
                     insert_element this d i (mkState o h n) = (Undef, s'))
    as Hrun by (intros s' E; now rewrite Heq).
  split.
  - apply Hrun. eapply insert_full_slot; eauto; lia.
  - erewrite bind_Undef; [reflexivity|].
    apply Hrun. eapply insert_full_slot; eauto; lia.
Qed.

(** X19.  Where the round trip does hold.  For a value of the caller's,
    at any position [d] in [[0, length]]: [insert] at [begin() + d]
    succeeds (on a full container, when the allocator grants twice the
    capacity), and [erase] on the cursor it returns shows the sequence the
    container started with.  For one of the container's own elements,
    [c.insert(c.begin() + d, c[i])], the same holds while there is room:
    whichever value ends up inserted, [erase] removes it again. *)
Theorem insert_erase_round_trip
  (s : state) (this : nat) (l : list T) (c d : Z) :
  wf s this -> observes s this l -> capacity this s = (Ret c, s) ->
  0 <= d <= Z.of_nat (length l) ->
  (forall x, Z.of_nat (length l) < c \/ 2 * c <= max_alloc ->
     exists it s1 it' s2,
       insert_from_begin this d x s = (Ret it, s1) /\
       observes s1 this (insert_at l (Z.to_nat d) x) /\
       erase this (to_ConstIterator it) s1 = (Ret it', s2) /\
       observes s2 this l /\ wf s2 this) /\
  (forall i, 0 <= i < Z.of_nat (length l) -> Z.of_nat (length l) < c ->
     exists it s1 it' s2,
       insert_element this d i s = (Ret it, s1) /\
       erase this (to_ConstIterator it) s1 = (Ret it', s2) /\
       observes s2 this l /\ wf s2 this).
Proof.
  intros Hwf Hobs Hcap Hd.
  destruct (wf_view s this l c Hwf Hobs Hcap)
    as (v & buf & Hown & Hinv & Hmax & -> & -> & Hlen).
  split.
  - intros x Hroom.
    destruct (insert_spec s this v buf d x Hown Hinv (granted_size _ Hmax))
      as (s1 & v1 & buf1 & Hrun1 & Hown1 & Hsz1 & Hmax1 & Hel1 & _);
      [lia|lia|].
    assert (inv v1 /\ max_sz v1 <= max_alloc) as [Hinv1 Hmax1'].
    { destruct Hinv as [Hsz Hmin]. unfold inv. rewrite Hsz1, Hmax1.
      unfold min_capacity in *. destruct (decide (sz v = max_sz v)); lia. }
    destruct (erase_spec s1 this v1 buf1 d Hown1 Hinv1
                (granted_size _ Hmax1'))
      as (s2 & buf2 & Hrun2 & Hown2 & Hel2 & _); [lia|].
    exists (mkIterator (Ptr (values v1) d)), s1,
           (mkIterator (Ptr (values v1) d)), s2.
    split.
    { erewrite insert_from_begin_eq by apply Hown. exact Hrun1. }
    split.
    { rewrite <- Hel1. apply owns_observes; [exact Hown1|apply Hinv1]. }
    split; [exact Hrun2|].
    rewrite Hel1, delete_insert_at in Hel2 by lia.
    split.
    + rewrite <- Hel2. apply owns_observes; [exact Hown2|].
      proj. destruct Hinv1. lia.
    + eapply wf_intro; [exact Hown2| |exact Hmax1'].
      destruct Hinv1. unfold inv. proj. lia.
  - intros i Hi Hroom. pose proof Hinv as [Hsz Hmin].
    destruct (insert_slot_spec s this v buf d i Hown Hinv
                (granted_size _ Hmax))
      as (y & s1 & buf1 & _ & Hrun1 & Hown1 & Hel1 & _); [lia|lia|lia|].
    set (v1 := mkVector (sz v + 1) (max_sz v) (values v)) in *.
    assert (inv v1) as Hinv1
      by (unfold inv, v1, min_capacity in *; proj; lia).
    destruct (erase_spec s1 this v1 buf1 d Hown1 Hinv1
                (granted_size _ Hmax))
      as (s2 & buf2 & Hrun2 & Hown2 & Hel2 & _); [unfold v1; proj; lia|].
    exists (mkIterator (Ptr (values v) d)), s1,
           (mkIterator (Ptr (values v) d)), s2.
    split.
    { erewrite insert_element_eq by (eauto; lia). exact Hrun1. }
    split; [exact Hrun2|].
    rewrite Hel1, delete_insert_at in Hel2 by lia.
    split.
    + rewrite <- Hel2. apply owns_observes; [exact Hown2|].
      unfold v1. proj. lia.
    + eapply wf_intro; [exact Hown2| |exact Hmax].
      unfold inv, v1, min_capacity in *. proj. lia.
Qed.

(** C3.  On any well-formed container showing [l]: [operator[]] at any
    index [>= size()] throws the index error; [pop_back] on an empty
    container throws the underflow error; [insert] with a cursor at a slot
    distance outside [[0, length]] and [erase] with one outside
    [[0, length)] throw the cursor error.  Each failing call hands back
    the very state it was given: sizes, capacity and every element are
    untouched. *)
Theorem bounds_signaling (s : state) (this : nat) (l : list T) :
  wf s this -> observes s this l ->
  (forall i, i >= Z.of_nat (length l) ->
     operator_index this i s
     = (Throw (runtime_error "Index out of bounds"), s)) /\
  (l = [] ->
     pop_back this s
     = (Throw (runtime_error "Cannot pop from empty vector"), s)) /\
  (forall d x, in_ptrdiff d -> d < 0 \/ d > Z.of_nat (length l) ->
     insert_from_begin this d x s
     = (Throw (runtime_error "Iterator out of bounds"), s)) /\
  (forall d, in_ptrdiff d -> d < 0 \/ d >= Z.of_nat (length l) ->
     erase_from_begin this d s
     = (Throw (runtime_error "Iterator out of bounds"), s)).
Proof.
  intros Hwf Hobs.
  destruct Hwf as (v & buf & Hown & Hinv & Hmax).
  assert (l = elems v buf) as ->
    by (eapply observes_inj; eauto; apply owns_observes; auto; apply Hinv).
  assert (Z.of_nat (length (elems v buf)) = sz v) as Hlen.
  { unfold elems. rewrite length_take. destruct Hown, Hinv. lia. }
  rewrite Hlen. pose proof Hown as Hown'. open_owns Hown'.
  split; [|split; [|split]].
  - intros i Hi. eapply operator_index_throw; eauto.
  - intros Hnil. rewrite Hnil in Hlen. simpl in Hlen.
    eapply pop_back_empty; eauto.
  - intros d x Hd Hout.
    erewrite insert_from_begin_eq by apply Hown.
    eapply insert_throw; eauto.
  - intros d Hd Hout.
    erewrite erase_from_begin_eq by apply Hown.
    eapply erase_throw; eauto.
Qed.

(** C9.  On a well-formed container of capacity [c]: [pop_back] on a
    non-empty container and [erase] at a valid position succeed and leave
    [capacity()] at [c]; and while [size() < capacity()], [push_back] and
    [insert] at a valid position succeed, leave [capacity()] at [c] and
    allocate no block. *)
Theorem capacity_frame (s : state) (this : nat) (l : list T) (c : Z) :
  wf s this -> observes s this l -> capacity this s = (Ret c, s) ->
  (l <> [] ->
     exists s', pop_back this s = (Ret tt, s') /\
                capacity this s' = (Ret c, s')) /\
  (forall d, 0 <= d < Z.of_nat (length l) ->
     exists it s', erase_from_begin this d s = (Ret it, s') /\
                   capacity this s' = (Ret c, s')) /\
  (Z.of_nat (length l) < c ->
     forall x,
     exists s', push_back this x s = (Ret tt, s') /\
                capacity this s' = (Ret c, s') /\ brk s' = brk s) /\
  (Z.of_nat (length l) < c ->
     forall d x, 0 <= d <= Z.of_nat (length l) ->
     exists it s', insert_from_begin this d x s = (Ret it, s') /\
                   capacity this s' = (Ret c, s') /\ brk s' = brk s).
Proof.
  intros Hwf Hobs Hcap.
  destruct (wf_view s this l c Hwf Hobs Hcap)
    as (v & buf & Hown & Hinv & Hmax & -> & -> & Hlen).
  rewrite Hlen. split; [|split; [|split]].
  - intros Hne.
    destruct (pop_back_spec s this v buf Hown Hinv (granted_size _ Hmax))
      as (s' & Hrun & Hown' & _).
    { intros Hz. apply Hne. rewrite Hz in Hlen.
      now destruct (elems v buf). }
    exists s'. split; [exact Hrun|].
    now erewrite owns_capacity by exact Hown'.
  - intros d Hd.
    destruct (erase_spec s this v buf d Hown Hinv (granted_size _ Hmax) Hd)
      as (s' & buf' & Hrun & Hown' & _).
    eexists _, s'. erewrite erase_from_begin_eq by apply Hown.
    split; [exact Hrun|].
    now erewrite owns_capacity by exact Hown'.
  - intros Hroom x. pose proof Hown as Hown'. open_owns Hown'.
    destruct Hinv as [Hsz Hmin].
    eexists. split; [eapply push_back_room; eauto|].
    split; [|reflexivity]. now erewrite get_max_sz_eq by look.
  - intros Hroom d x Hd. pose proof Hown as Hown'. open_owns Hown'.
    destruct Hinv as [Hsz Hmin].
    erewrite insert_from_begin_eq by apply Hown.
    eexists _, _. split; [eapply insert_room; eauto|].
    split; [|reflexivity]. now erewrite get_max_sz_eq by look.
Qed.

(** C6.  On a well-formed container of capacity [c] showing [l]:
    [reserve(n)] with [n <= c] returns the state unchanged; [reserve(n)] with
    [n > c] (that the allocator grants) makes [capacity()] exactly [n] and
    keeps [size()] and every element; and [push_back(x)] on a full
    container makes [capacity()] exactly [c * 2], stores [x] at index
    [length] and makes [size()] one more. *)
Theorem reserve_and_growth (s : state) (this : nat) (l : list T) (c : Z) :
  wf s this -> observes s this l -> capacity this s = (Ret c, s) ->
  (forall n, n <= c -> reserve this n s = (Ret tt, s)) /\
  (forall n, c < n <= max_alloc ->
     exists s', reserve this n s = (Ret tt, s') /\
                capacity this s' = (Ret n, s') /\
                observes s' this l /\ wf s' this) /\
  (forall x, Z.of_nat (length l) = c -> 2 * c <= max_alloc ->
     exists s', push_back this x s = (Ret tt, s') /\
                capacity this s' = (Ret (c * 2), s') /\
                size this s' = (Ret (Z.of_nat (length l) + 1), s') /\
                index_get this (Z.of_nat (length l)) s' = (Ret x, s') /\
                observes s' this (l ++ [x]) /\ wf s' this).
Proof.
  intros Hwf Hobs Hcap.
  destruct (wf_view s this l c Hwf Hobs Hcap)
    as (v & buf & Hown & Hinv & Hmax & -> & -> & Hlen).
  split; [|split].
  - intros n Hn. eapply reserve_noop; [apply Hown|exact Hn].
  - intros n Hn.
    destruct (reserve_spec s this v buf n Hown) as (s' & buf' & Hrun & Hown' & Hel & _);
      [apply Hinv|exact Hn|].
    exists s'. split; [exact Hrun|].
    split; [now erewrite owns_capacity by exact Hown'|].
    destruct Hinv as [Hsz Hmin]. split.
    + rewrite <- Hel. apply owns_observes; [exact Hown'|]. proj. lia.
    + eapply wf_intro; [exact Hown'| |proj; lia].
      unfold inv. proj. lia.
  - intros x Hfull Hroom.
    destruct (push_back_spec s this v buf x Hown Hinv (granted_size _ Hmax))
      as (s' & v' & buf' & Hrun & Hown' & Hsz' & Hmax' & Hel' & Hx & _);
      [now right|].
    rewrite decide_True in Hmax' by lia.
    assert (inv v') as Hinv'.
    { destruct Hinv as [Hsz Hmin]. unfold inv. rewrite Hsz', Hmax'.
      unfold min_capacity in *. lia. }
    exists s'. split; [exact Hrun|].
    split; [erewrite owns_capacity by exact Hown'; now rewrite Hmax'|].
    split; [erewrite owns_size by exact Hown'; now rewrite Hsz', Hlen|].
    split.
    { eapply owns_index_get; [exact Hown'|apply Hinv'|].
      rewrite Hel'. rewrite lookup_app_r by lia.
      now rewrite Nat.sub_diag. }
    split.
    + rewrite <- Hel'. apply owns_observes; [exact Hown'|apply Hinv'].
    + eapply wf_intro; [exact Hown'|exact Hinv'|]. rewrite Hmax'. lia.
Qed.

Lemma elems_init_buffer init k b :
  elems (mkVector (Z.of_nat (length init)) k b) (init_buffer init) = init.
Proof.
  unfold elems, init_buffer. proj. rewrite Nat2Z.id.
  now rewrite take_app_length.
Qed.

(** C5, as the code has it.  Constructing from a list of values (that the
    allocator can hold) succeeds with [size()] equal to the number of
    values, [capacity()] equal to the larger of that number and the floor,
    the listed values at indices [[0, count)], and every remaining slot
    value-initialised. *)
Theorem from_list_construction (s : state) (this : nat) (init : list T) :
  Z.max (Z.of_nat (length init)) min_capacity <= max_alloc ->
  exists s',
    Vector_init this init s = (Ret tt, s') /\
    size this s' = (Ret (Z.of_nat (length init)), s') /\
    capacity this s'
    = (Ret (Z.max (Z.of_nat (length init)) min_capacity), s') /\
    observes s' this init /\
    owns s' this
         (mkVector (Z.of_nat (length init))
                   (Z.max (Z.of_nat (length init)) min_capacity) (brk s))
         (init ++ replicate (Z.to_nat min_capacity - length init) value_init) /\
    wf s' this.
Proof.
  intros Hm. destruct s as [o h n].
  set (v := mkVector (Z.of_nat (length init))
                     (Z.max (Z.of_nat (length init)) min_capacity) n).
  assert (owns (mkState (<[this := v]> o) (<[n := init_buffer init]> h) (S n))
               this v (init_buffer init)) as Hown.
  { constructor; unfold v; proj; [look|look| |lia].
    unfold init_buffer. rewrite length_app, length_replicate.
    unfold min_capacity. lia. }
  assert (inv v) as Hinv by (unfold inv, v, min_capacity; proj; lia).
  eexists. split; [now apply Vector_init_eq|].
  split; [now erewrite owns_size by exact Hown|].
  split; [now erewrite owns_capacity by exact Hown|].
  split.
  { pose proof (owns_observes _ _ _ _ Hown (proj1 Hinv)) as Hobs.
    assert (elems v (init_buffer init) = init) as E
      by apply elems_init_buffer.
    now rewrite E in Hobs. }
  split; [exact Hown|].
  eapply wf_intro; [exact Hown|exact Hinv|exact Hm].
Qed.

(** ** Any operation, any outcome *)

(** ** One call, against a bound *)

Section Within.
Variable bound : Z.
Hypothesis bound_grants : max_alloc <= bound.
Hypothesis bound_array : bound <= ptrdiff_max.

Lemma step_within_same s this v buf r :
  owns s this v buf -> inv v -> max_sz v <= bound -> r <> Undef ->
  step_ok_within bound s this v r s.
Proof.
  intros. split; [assumption|]. exists v, buf.
  repeat (split; [assumption|]). split; [apply frame_refl|now left].
Qed.

Lemma step_within_ret s this v s' v' buf' :
  owns s' this v' buf' -> inv v' -> max_sz v' <= bound ->
  frame s s' this (values v) ->
  values v' = values v \/ (brk s <= values v')%nat ->
  step_ok_within bound s this v (Ret tt) s'.
Proof. intros. split; [discriminate|]. exists v', buf'. auto. Qed.

Lemma exec_spec_within s this v buf c :
  owns s this v buf -> inv v -> max_sz v <= bound -> well_typed c ->
  exists r s', exec this c s = (r, s') /\ step_ok_within bound s this v r s'.
Proof.
  intros Hown Hinv Hbound Hty.
  assert (max_sz v <= ptrdiff_max) as Hmax by lia.
  pose proof Hinv as [Hsz Hmin]. unfold min_capacity in Hmin.
  destruct c as [|z| |x| |d x|d|i x]; cbn [exec well_typed] in *.
  - (* clear *)
    pose proof Hown as Hown'. open_owns Hown'.
    eexists _, _. split; [eapply clear_eq; eauto|].
    eapply step_within_ret; [constructor; proj; [look|look|exact Hlen|exact Hn]
                        |unfold inv, min_capacity; proj; lia|proj; lia
                        |framed|now left].
  - (* reserve *)
    destruct (decide (z <= max_sz v)) as [Hle|Hgt].
    { eexists _, _. split; [eapply reserve_noop; [apply Hown|exact Hle]|].
      eapply step_within_same; eauto; discriminate. }
    destruct (decide (z <= max_alloc)) as [Hok|Hbig].
    + destruct (reserve_spec s this v buf z Hown Hsz)
        as (s' & buf' & Hrun & Hown' & _ & Hfr); [lia|].
      eexists _, _. split; [exact Hrun|].
      eapply step_within_ret; [exact Hown'|unfold inv, min_capacity; proj; lia
                          |proj; lia|exact Hfr|right; proj; lia].
    + eexists _, _.
      split; [eapply reserve_fail; [apply Hown|lia|lia]|].
      eapply step_within_same; eauto; discriminate.
  - (* shrink_to_fit *)
    destruct (decide (sz v = max_sz v)) as [Heq|Hne].
    { pose proof Hown as Hown'. open_owns Hown'.
      eexists _, _. split; [eapply shrink_to_fit_noop; eauto|].
      eapply step_within_same; eauto; discriminate. }
    destruct (decide (Z.max (sz v) min_capacity <= max_alloc))
      as [Hok|Hno]; cycle 1.
    { eexists _, _.
      split; [eapply shrink_to_fit_fail; [apply Hown|exact Hne|lia]|].
      eapply step_within_same; eauto; discriminate. }
    destruct (shrink_to_fit_spec s this v buf Hown Hinv Hok Hne)
      as (s' & buf' & Hrun & Hown' & _ & Hfr).
    eexists _, _. split; [exact Hrun|].
    eapply step_within_ret; [exact Hown'|unfold inv, min_capacity; proj; lia
                        |unfold min_capacity; proj; lia|exact Hfr
                        |right; proj; lia].
  - (* push_back *)
    destruct (decide (sz v < max_sz v \/ 2 * max_sz v <= max_alloc))
      as [Hroom|Hno].
    + destruct (push_back_spec s this v buf x Hown Hinv Hmax Hroom)
        as (s' & v' & buf' & Hrun & Hown' & Hsz' & Hmax' & _ & _ & Hfr & Hbl).
      eexists _, _. split; [exact Hrun|].
      eapply step_within_ret; [exact Hown'| | |exact Hfr|].
      * unfold inv, min_capacity. rewrite Hsz', Hmax'.
        destruct (decide (sz v = max_sz v)); lia.
      * rewrite Hmax'. destruct (decide (sz v = max_sz v)); lia.
      * destruct Hbl as [[-> _]| ->]; [now left|right; lia].
    + pose proof Hown as Hown'. open_owns Hown'.
      eexists _, _. split; [eapply push_back_fail; eauto; lia|].
      eapply step_within_same; eauto; discriminate.
  - (* pop_back *)
    destruct (decide (sz v = 0)) as [Hz|Hnz].
    { pose proof Hown as Hown'. open_owns Hown'.
      eexists _, _. split; [eapply pop_back_empty; eauto|].
      eapply step_within_same; eauto; discriminate. }
    destruct (pop_back_spec s this v buf Hown Hinv Hmax Hnz)
      as (s' & Hrun & Hown' & _ & Hfr & _).
    eexists _, _. split; [exact Hrun|].
    eapply step_within_ret; [exact Hown'|unfold inv, min_capacity; proj; lia
                        |proj; lia|exact Hfr|now left].
  - (* insert *)
    destruct (decide (0 <= d <= sz v)) as [Hin|Hout].
    + destruct (decide (sz v < max_sz v \/ 2 * max_sz v <= max_alloc))
        as [Hroom|Hno].
      * destruct (insert_spec s this v buf d x Hown Hinv Hmax Hin Hroom)
          as (s' & v' & buf' & Hrun & Hown' & Hsz' & Hmax' & _ & Hfr & Hbl).
        eexists _, _. split.
        { erewrite bind_Ret; [reflexivity|].
          erewrite insert_from_begin_eq by apply Hown. exact Hrun. }
        eapply step_within_ret; [exact Hown'| | |exact Hfr|].
        -- unfold inv, min_capacity. rewrite Hsz', Hmax'.
           destruct (decide (sz v = max_sz v)); lia.
        -- rewrite Hmax'. destruct (decide (sz v = max_sz v)); lia.
        -- destruct Hbl as [[-> _]| ->]; [now left|right; lia].
      * pose proof Hown as Hown'. open_owns Hown'.
        eexists _, _. split.
        { erewrite bind_Throw; [reflexivity|].
          erewrite insert_from_begin_eq by apply Hown.
          eapply insert_fail; eauto; lia. }
        eapply step_within_same; eauto; discriminate.
    + pose proof Hown as Hown'. open_owns Hown'.
      eexists _, _. split.
      { erewrite bind_Throw; [reflexivity|].
        erewrite insert_from_begin_eq by apply Hown.
        eapply insert_throw; eauto; lia. }
      eapply step_within_same; eauto; discriminate.
  - (* erase *)
    destruct (decide (0 <= d < sz v)) as [Hin|Hout].
    + destruct (erase_spec s this v buf d Hown Hinv Hmax Hin)
        as (s' & buf' & Hrun & Hown' & _ & Hfr & _).
      eexists _, _. split.
      { erewrite bind_Ret; [reflexivity|].
        erewrite erase_from_begin_eq by apply Hown. exact Hrun. }
      eapply step_within_ret; [exact Hown'|unfold inv, min_capacity; proj; lia
                          |proj; lia|exact Hfr|now left].
    + pose proof Hown as Hown'. open_owns Hown'.
      eexists _, _. split.
      { erewrite bind_Throw; [reflexivity|].
        erewrite erase_from_begin_eq by apply Hown.
        eapply erase_throw; eauto; lia. }
      eapply step_within_same; eauto; discriminate.
  - (* container[i] = x *)
    pose proof Hown as Hown'. open_owns Hown'. unfold index_set.
    destruct (decide (i < sz v)) as [Hin|Hout].
    + eexists _, _. split.
      { mstep by (eapply operator_index_eq; eauto).
        eapply write_eq; [look|lia]. }
      eapply step_within_ret;
        [constructor; proj; [look|look|rewrite length_insert; exact Hlen
                            |exact Hn]
        |exact Hinv|exact Hbound|framed|now left].
    + eexists _, _.
      split; [now erewrite bind_Throw
                by (eapply operator_index_throw; eauto; lia)|].
      eapply step_within_same; eauto; discriminate.
Qed.

(** ** Whole-program states *)

(** A call on [this] that keeps [this] well-formed, on its old buffer or
    on a fresh block, and leaves the rest of the state alone, keeps the
    whole state well-formed. *)
Lemma all_within_update s s' this v' buf' :
  all_within bound s ->
  owns s' this v' buf' -> inv v' -> max_sz v' <= bound ->
  (forall o, o <> this -> objs s' !! o = objs s !! o) ->
  (forall b, (b < brk s)%nat ->
             (forall v, objs s !! this = Some v -> b <> values v) ->
             heap s' !! b = heap s !! b) ->
  (brk s <= brk s')%nat ->
  (exists v, objs s !! this = Some v /\ values v' = values v)
  \/ (brk s <= values v')%nat ->
  all_within bound s'.
Proof.
  intros [Hall Hsep] Hown Hinv Hmax Hobjs Hheap Hbrk Hblk.
  assert (forall a va, a <> this -> objs s !! a = Some va ->
                       values va <> values v' /\ (values va < brk s)%nat)
    as Hother.
  { intros a va Ha Hva. destruct (Hall a va Hva) as (bufa & Howna & _).
    split; [|apply Howna].
    destruct Hblk as [(v & Hv & ->)|Hfresh].
    - eapply Hsep; eauto.
    - pose proof (owns_live _ _ _ _ Howna). lia. }
  split.
  - intros a va Hva. destruct (decide (a = this)) as [->|Hne].
    + rewrite (owns_obj _ _ _ _ Hown) in Hva. inversion Hva; subst va.
      exists buf'. auto.
    + rewrite Hobjs in Hva by done.
      destruct (Hall a va Hva) as (bufa & Howna & Hinva & Hmaxa).
      exists bufa. split; [|auto].
      destruct Howna as [Ho Hh Hlen Hn].
      constructor; [now rewrite Hobjs| |exact Hlen|lia].
      rewrite Hheap; [exact Hh|exact Hn|].
      intros v Hv. eapply Hsep; eauto.
  - intros a b va vb Hab Hva Hvb.
    destruct (decide (a = this)) as [->|Ha];
      destruct (decide (b = this)) as [->|Hb]; try congruence.
    + rewrite (owns_obj _ _ _ _ Hown) in Hva. inversion Hva; subst va.
      rewrite Hobjs in Hvb by done.
      destruct (Hother b vb Hb Hvb). congruence.
    + rewrite (owns_obj _ _ _ _ Hown) in Hvb. inversion Hvb; subst vb.
      rewrite Hobjs in Hva by done.
      now destruct (Hother a va Ha Hva).
    + rewrite Hobjs in Hva by done. rewrite Hobjs in Hvb by done.
      exact (Hsep a b va vb Hab Hva Hvb).
Qed.

Lemma all_within_step s this v r s' :
  all_within bound s -> objs s !! this = Some v -> step_ok_within bound s this v r s' -> all_within bound s'.
Proof.
  intros Hall Hv (_ & v' & buf' & Hown & Hinv & Hmax & (Hf1 & Hf2 & Hf3) & Hblk).
  refine (all_within_update s s' this v' buf' Hall Hown Hinv Hmax Hf1 _ Hf3 _).
  - intros b Hb Hne. apply Hf2; [|exact Hb]. now apply Hne.
  - destruct Hblk; [left|right]; eauto.
Qed.

(** A constructor's effect: a new object on a fresh block. *)
Lemma all_within_construct o h n this v' buf' :
  all_within bound (mkState o h n) ->
  values v' = n -> Z.of_nat (length buf') = max_sz v' ->
  inv v' -> max_sz v' <= bound ->
  all_within bound (mkState (<[this := v']> o) (<[n := buf']> h) (S n)).
Proof.
  intros Hall Hval Hlen Hinv Hmax.
  refine (all_within_update _ _ this v' buf' Hall _ Hinv Hmax _ _ _ _); proj.
  - constructor; proj; [look|rewrite Hval; look|exact Hlen|lia].
  - intros. now rewrite lookup_insert_ne.
  - intros. rewrite lookup_insert_ne by lia. done.
  - lia.
  - right. lia.
Qed.

Lemma Vector_default_within s this r s' :
  all_within bound s -> Vector_default this s = (r, s') -> r <> Undef /\ all_within bound s'.
Proof.
  intros Hall Hrun. destruct s as [o h n].
  destruct (decide (min_capacity <= max_alloc)) as [Hok|Hno].
  - rewrite Vector_default_eq in Hrun by done. inversion Hrun; subst.
    split; [discriminate|].
    apply all_within_construct; proj; [exact Hall|reflexivity| | |lia].
    + reflexivity.
    + unfold inv, min_capacity. proj. lia.
  - unfold Vector_default in Hrun.
    erewrite bind_Throw in Hrun by (apply make_unique_fail; lia).
    inversion Hrun; subst. split; [discriminate|done].
Qed.

Lemma Vector_sized_within s this z r s' :
  all_within bound s -> Vector_sized this z s = (r, s') -> r <> Undef /\ all_within bound s'.
Proof.
  intros Hall Hrun. destruct s as [o h n].
  destruct (decide (Z.max z min_capacity <= max_alloc)) as [Hok|Hno].
  - rewrite Vector_sized_eq in Hrun by done. inversion Hrun; subst.
    split; [discriminate|].
    apply all_within_construct; proj; [exact Hall|reflexivity| | |lia].
    + rewrite length_replicate. unfold min_capacity. lia.
    + unfold inv, min_capacity. proj. lia.
  - rewrite Vector_sized_fail in Hrun by lia.
    inversion Hrun; subst. split; [discriminate|done].
Qed.

Lemma Vector_init_within s this init r s' :
  all_within bound s -> Vector_init this init s = (r, s') -> r <> Undef /\ all_within bound s'.
Proof.
  intros Hall Hrun. destruct s as [o h n].
  destruct (decide (Z.max (Z.of_nat (length init)) min_capacity <= max_alloc))
    as [Hok|Hno].
  - rewrite Vector_init_eq in Hrun by done. inversion Hrun; subst.
    split; [discriminate|].
    apply all_within_construct; proj; [exact Hall|reflexivity| | |lia].
    + unfold init_buffer. rewrite length_app, length_replicate.
      unfold min_capacity. lia.
    + unfold inv, min_capacity. proj. lia.
  - unfold Vector_init in Hrun.
    erewrite bind_Throw in Hrun by (apply make_unique_fail; lia).
    inversion Hrun; subst. split; [discriminate|done].
Qed.

Lemma Vector_copy_within s this other r s' :
  all_within bound s -> is_Some (objs s !! other) ->
  Vector_copy this other s = (r, s') -> r <> Undef /\ all_within bound s'.
Proof.
  intros Hall [vo Hvo] Hrun. destruct s as [o h n].
  destruct (proj1 Hall other vo Hvo) as (bo & Hown & [Hsz Hmin] & Hmax).
  destruct (decide (max_sz vo <= max_alloc)) as [Hok|Hno]; cycle 1.
  { erewrite Vector_copy_fail in Hrun by (eauto; lia).
    inversion Hrun; subst. split; [discriminate|done]. }
  open_owns Hown.
  erewrite Vector_copy_eq in Hrun by (eauto; lia). inversion Hrun; subst.
  split; [discriminate|].
  apply all_within_construct; proj; [exact Hall|reflexivity| | |lia].
  - apply length_regrown; lia.
  - unfold inv. proj. lia.
Qed.

(** Copy assignment keeps the state in order when it returns; refused, it
    throws. *)
Lemma operator_assign_within s this other r s' :
  all_within bound s ->
  is_Some (objs s !! this) -> is_Some (objs s !! other) ->
  operator_assign this other s = (r, s') ->
  r <> Undef /\ (r = Ret tt -> all_within bound s').
Proof.
  intros Hall [vt Hvt] [vo Hvo] Hrun.
  destruct (decide (this = other)) as [->|Hne].
  { rewrite operator_assign_self in Hrun. inversion Hrun; subst.
    split; [discriminate|done]. }
  destruct s as [o h n].
  destruct (proj1 Hall other vo Hvo) as (bo & Howno & [Hsz Hmin] & Hmax).
  destruct (proj1 Hall this vt Hvt) as (bt & Hownt & _).
  pose proof (proj2 Hall this other vt vo Hne Hvt Hvo) as Hsep.
  destruct (decide (max_sz vo <= max_alloc)) as [Hok|Hno]; cycle 1.
  { erewrite operator_assign_fail in Hrun by (eauto; lia).
    inversion Hrun; subst. split; discriminate. }
  open_owns Howno. open_owns Hownt.
  erewrite operator_assign_eq in Hrun by (eauto; lia).
  inversion Hrun; subst. split; [discriminate|]. intros _.
  refine (all_within_update _ _ this (mkVector (sz vo) (max_sz vo) n)
            (regrown vo bo (max_sz vo)) Hall _ _ _ _ _ _ _); proj.
  - constructor; proj; [look|look|apply length_regrown; lia|lia].
  - unfold inv. proj. lia.
  - lia.
  - intros. now rewrite lookup_insert_ne.
  - intros b Hb Hnb. rewrite lookup_insert_ne by lia.
    rewrite lookup_delete_ne; [done|]. intros E.
    now apply (Hnb vt Hvt).
  - lia.
  - right. lia.
Qed.

Lemma exec_within s this c r s' :
  all_within bound s -> is_Some (objs s !! this) -> well_typed c ->
  exec this c s = (r, s') -> r <> Undef /\ all_within bound s'.
Proof.
  intros Hall [v Hv] Hty Hrun.
  destruct (proj1 Hall this v Hv) as (buf & Hown & Hinv & Hmax).
  destruct (exec_spec_within s this v buf c Hown Hinv Hmax Hty)
    as (r' & s'' & Hrun' & Hok).
  rewrite Hrun in Hrun'. inversion Hrun'; subst.
  split; [apply Hok|]. eapply all_within_step; eauto.
Qed.

End Within.

(** ** Under the one limit of a run *)

Lemma step_ok_same s this v buf r :
  owns s this v buf -> inv v -> max_sz v <= max_alloc -> r <> Undef ->
  step_ok s this v r s.
Proof. exact (step_within_same max_alloc s this v buf r). Qed.

Lemma step_ok_ret s this v s' v' buf' :
  owns s' this v' buf' -> inv v' -> max_sz v' <= max_alloc ->
  frame s s' this (values v) ->
  values v' = values v \/ (brk s <= values v')%nat ->
  step_ok s this v (Ret tt) s'.
Proof. exact (step_within_ret max_alloc s this v s' v' buf'). Qed.

Lemma exec_spec s this v buf c :
  owns s this v buf -> inv v -> max_sz v <= max_alloc -> well_typed c ->
  exists r s', exec this c s = (r, s') /\ step_ok s this v r s'.
Proof.
  exact (exec_spec_within max_alloc (Z.le_refl _) max_alloc_bound
           s this v buf c).
Qed.

Lemma all_wf_wf s this :
  all_wf s -> is_Some (objs s !! this) -> wf s this.
Proof.
  intros [Hall _] [v Hv]. destruct (Hall this v Hv) as (buf & ?).
  exists v, buf. auto.
Qed.

Lemma all_wf_update s s' this v' buf' :
  all_wf s ->
  owns s' this v' buf' -> inv v' -> max_sz v' <= max_alloc ->
  (forall o, o <> this -> objs s' !! o = objs s !! o) ->
  (forall b, (b < brk s)%nat ->
             (forall v, objs s !! this = Some v -> b <> values v) ->
             heap s' !! b = heap s !! b) ->
  (brk s <= brk s')%nat ->
  (exists v, objs s !! this = Some v /\ values v' = values v)
  \/ (brk s <= values v')%nat ->
  all_wf s'.
Proof. exact (all_within_update max_alloc s s' this v' buf'). Qed.

Lemma all_wf_step s this v r s' :
  all_wf s -> objs s !! this = Some v -> step_ok s this v r s' -> all_wf s'.
Proof. exact (all_within_step max_alloc s this v r s'). Qed.

Lemma all_wf_construct o h n this v' buf' :
  all_wf (mkState o h n) ->
  values v' = n -> Z.of_nat (length buf') = max_sz v' ->
  inv v' -> max_sz v' <= max_alloc ->
  all_wf (mkState (<[this := v']> o) (<[n := buf']> h) (S n)).
Proof. exact (all_within_construct max_alloc o h n this v' buf'). Qed.

Lemma Vector_default_wf s this r s' :
  all_wf s -> Vector_default this s = (r, s') -> r <> Undef /\ all_wf s'.
Proof. exact (Vector_default_within max_alloc (Z.le_refl _) s this r s'). Qed.

Lemma Vector_sized_wf s this z r s' :
  all_wf s -> Vector_sized this z s = (r, s') -> r <> Undef /\ all_wf s'.
Proof. exact (Vector_sized_within max_alloc (Z.le_refl _) s this z r s'). Qed.

Lemma Vector_init_wf s this init r s' :
  all_wf s -> Vector_init this init s = (r, s') -> r <> Undef /\ all_wf s'.
Proof.
  exact (Vector_init_within max_alloc (Z.le_refl _) s this init r s').
Qed.

Lemma Vector_copy_wf s this other r s' :
  all_wf s -> is_Some (objs s !! other) ->
  Vector_copy this other s = (r, s') -> r <> Undef /\ all_wf s'.
Proof.
  exact (Vector_copy_within max_alloc s this other r s').
Qed.

Lemma operator_assign_wf s this other r s' :
  all_wf s -> is_Some (objs s !! this) -> is_Some (objs s !! other) ->
  operator_assign this other s = (r, s') -> r <> Undef /\ all_wf s'.
Proof.
  intros Hall [vt Hvt] [vo Hvo] Hrun.
  destruct (decide (this = other)) as [->|Hne].
  { rewrite operator_assign_self in Hrun. inversion Hrun; subst.
    split; [discriminate|done]. }
  destruct s as [o h n].
  destruct (proj1 Hall other vo Hvo) as (bo & Howno & [Hsz Hmin] & Hmax).
  destruct (proj1 Hall this vt Hvt) as (bt & Hownt & _).
  pose proof (proj2 Hall this other vt vo Hne Hvt Hvo) as Hsep.
  open_owns Howno. open_owns Hownt.
  erewrite operator_assign_eq in Hrun by (eauto; lia).
  inversion Hrun; subst. split; [discriminate|].
  refine (all_wf_update _ _ this (mkVector (sz vo) (max_sz vo) n)
                        (regrown vo bo (max_sz vo)) Hall _ _ _ _ _ _ _); proj.
  - constructor; proj; [look|look|apply length_regrown; lia|lia].
  - unfold inv. proj. lia.
  - lia.
  - intros. now rewrite lookup_insert_ne.
  - intros b Hb Hnb. rewrite lookup_insert_ne by lia.
    rewrite lookup_delete_ne; [done|]. intros E.
    now apply (Hnb vt Hvt).
  - lia.
  - right. lia.
Qed.

Lemma exec_wf s this c r s' :
  all_wf s -> is_Some (objs s !! this) -> well_typed c ->
  exec this c s = (r, s') -> r <> Undef /\ all_wf s'.
Proof.
  intros Hall [v Hv] Hty Hrun.
  destruct (proj1 Hall this v Hv) as (buf & Hown & Hinv & Hmax).
  destruct (exec_spec s this v buf c Hown Hinv Hmax Hty)
    as (r' & s'' & Hrun' & Hok).
  rewrite Hrun in Hrun'. inversion Hrun'; subst.
  split; [apply Hok|]. eapply all_wf_step; eauto.
Qed.

Lemma reachable_all_wf s : reachable s -> all_wf s.
Proof.
  induction 1 as [|s this r s' _ IH Hrun|s this n r s' _ IH Hrun
                  |s this init r s' _ IH Hrun|s this other r s' _ IH Ho Hrun
                  |s this other r s' _ IH Ht Ho Hrun
                  |s this c r s' _ IH Ht Hty Hrun].
  - split; proj.
    + intros this v Hv. rewrite lookup_empty in Hv. discriminate.
    + intros a b va vb _ Hva. rewrite lookup_empty in Hva. discriminate.
  - eapply proj2, Vector_default_wf; eauto.
  - eapply proj2, Vector_sized_wf; eauto.
  - eapply proj2, Vector_init_wf; eauto.
  - eapply proj2, Vector_copy_wf; eauto.
  - eapply proj2, (operator_assign_wf s this other); eauto.
  - eapply proj2, exec_wf; eauto.
Qed.

Lemma reachable_wf s this :
  reachable s -> is_Some (objs s !! this) -> wf s this.
Proof. intros Hr Hl. apply all_wf_wf; [now apply reachable_all_wf|exact Hl]. Qed.

(** No call a program makes on a live container runs into undefined
    behaviour: it returns or it throws. *)
Lemma reachable_safe s this c :
  reachable s -> is_Some (objs s !! this) -> well_typed c ->
  fst (exec this c s) <> Undef.
Proof.
  intros Hr Hl Hty. destruct (exec this c s) as [r s'] eqn:Hrun.
  apply (exec_wf s this c r s' (reachable_all_wf s Hr) Hl Hty Hrun).
Qed.

(** C4.  In every state a program can reach, by whichever construction
    path and through any sequence of operations (throwing ones included),
    every live container has [0 <= size() <= capacity()] and
    [capacity() >= 5]. *)
Theorem invariant_always (s : state) (this : nat) :
  reachable s -> is_Some (objs s !! this) -> invariant s this.
Proof.
  intros Hreach Hlive. apply wf_invariant.
  apply all_wf_wf; [|exact Hlive]. now apply reachable_all_wf.
Qed.

(** ** Formatting *)

Lemma append_nil_r (a : string) : a +:+ "" = a.
Proof.
  induction a as [|c a IH]; [reflexivity|].
  change (String c (a +:+ "") = String c a). now rewrite IH.
Qed.

Lemma append_assoc (a b c : string) : (a +:+ b) +:+ c = a +:+ (b +:+ c).
Proof.
  induction a as [|x a IH]; [reflexivity|].
  change (String x ((a +:+ b) +:+ c) = String x (a +:+ (b +:+ c))).
  now rewrite IH.
Qed.

Lemma shl_loop s this v buf :
  owns s this v buf -> 0 <= sz v <= max_sz v -> sz v < modulus ->
  forall (l : list T) (k : nat) (acc : string),
    drop k (elems v buf) = l ->
    fold_each (seqZ (Z.of_nat k) (Z.of_nat (length l)))
      (fun os i =>
         r ← operator_index this i;
         x ← read r;
         let os := os +:+ pretty x in
         n' ← size this;
         if decide (wrap (i + 1) < n') then ret (os +:+ ", ") else ret os)
      acc s
    = (Ret (acc +:+ String.concat ", " (pretty <$> l)), s).
Proof.
  intros Hown Hsz Hmod.
  assert (length (elems v buf) = Z.to_nat (sz v)) as Hlen.
  { unfold elems. rewrite length_take. destruct Hown. lia. }
  pose proof Hown as Hown'. open_owns Hown'.
  induction l as [|x l IH]; intros k acc Hdrop.
  - rewrite seqZ_nil by (simpl; lia). cbn [fold_each].
    change (String.concat ", " (pretty <$> [])) with "".
    now rewrite append_nil_r.
  - assert (k + S (length l) = Z.to_nat (sz v))%nat as Hk.
    { assert (length (drop k (elems v buf)) = S (length l))
        as E by now rewrite Hdrop.
      rewrite length_drop in E. lia. }
    assert (buf !! k = Some x) as Hx.
    { assert (elems v buf !! k = Some x) as E.
      { rewrite <- (Nat.add_0_r k), <- lookup_drop, Hdrop. reflexivity. }
      now apply lookup_take_Some in E as [E _]. }
    assert (drop (S k) (elems v buf) = l) as Hdrop'.
    { rewrite <- Nat.add_1_r, <- drop_drop, Hdrop. reflexivity. }
    rewrite seqZ_cons by (simpl length; lia). cbn [fold_each].
    replace (Z.succ (Z.of_nat k)) with (Z.of_nat (S k)) by lia.
    replace (Z.pred (Z.of_nat (length (x :: l)))) with (Z.of_nat (length l))
      by (simpl length; lia).
    destruct l as [|y l'].
    + mstep by (mstep by (eapply operator_index_eq; eauto; lia);
                mstep by (eapply read_eq; [look|lia|];
                          rewrite Nat2Z.id; exact Hx);
                mstep by (eapply get_sz_eq; look);
                rewrite wrap_small by lia;
                rewrite decide_False by (simpl in Hk; lia);
                reflexivity).
      rewrite IH by exact Hdrop'.
      change (String.concat ", " (pretty <$> [])) with "".
      now rewrite append_nil_r.
    + mstep by (mstep by (eapply operator_index_eq; eauto; lia);
                mstep by (eapply read_eq; [look|lia|];
                          rewrite Nat2Z.id; exact Hx);
                mstep by (eapply get_sz_eq; look);
                rewrite wrap_small by lia;
                rewrite decide_True by (simpl in Hk; lia);
                reflexivity).
      rewrite IH by exact Hdrop'.
      change (String.concat ", " (pretty <$> x :: y :: l'))
        with (pretty x +:+ ", " +:+ String.concat ", " (pretty <$> y :: l')).
      now rewrite !append_assoc.
Qed.

(** C8.  On a well-formed container showing [l], [os << vec] succeeds,
    leaves the container alone, and appends to the stream exactly the
    bracketed, comma-separated rendering of [l], the [size()] live
    elements in index order, so ["[]"] for an empty container and
    nothing of the slots at or beyond [size()]. *)
Theorem formatting (s : state) (this : nat) (l : list T) (os : string) :
  wf s this -> observes s this l ->
  operator_shl os this s = (Ret (os +:+ render l), s) /\
  (l = [] -> operator_shl os this s = (Ret (os +:+ "[]"), s)).
Proof.
  intros Hwf Hobs.
  assert (operator_shl os this s = (Ret (os +:+ render l), s)) as Hshl.
  { destruct Hwf as (v & buf & Hown & [Hsz Hmin] & Hmax).
    assert (l = elems v buf) as ->
      by (eapply observes_inj; eauto; apply owns_observes; auto).
    assert (Z.of_nat (length (elems v buf)) = sz v) as Hlen.
    { unfold elems. rewrite length_take. destruct Hown. lia. }
    unfold operator_shl.
    mstep by (eapply owns_size; exact Hown).
    rewrite <- Hlen. change 0 with (Z.of_nat 0).
    erewrite bind_Ret;
      [|eapply (shl_loop s this v buf Hown Hsz);
        [unfold modulus, ptrdiff_max in *; lia|apply drop_0]].
    unfold render. now rewrite !append_assoc. }
  split; [exact Hshl|]. intros ->. exact Hshl.
Qed.

(** ** Copies *)

(** Calls on [b] do not touch another container [a]. *)
Lemma exec_other s a b va bufa c :
  all_wf s -> a <> b -> owns s a va bufa -> is_Some (objs s !! b) ->
  well_typed c ->
  owns (snd (exec b c s)) a va bufa /\ all_wf (snd (exec b c s)) /\
  is_Some (objs (snd (exec b c s)) !! b).
Proof.
  intros Hall Hab Howna [vb Hvb] Hty.
  destruct (proj1 Hall b vb Hvb) as (bufb & Hownb & Hinvb & Hmaxb).
  destruct (exec_spec s b vb bufb c Hownb Hinvb Hmaxb Hty)
    as (r & s' & Hrun & Hok).
  rewrite Hrun. cbn [snd].
  pose proof (all_wf_step s b vb r s' Hall Hvb Hok) as Hall'.
  destruct Hok as (_ & v' & buf' & Hown' & _ & _ & (Hf1 & Hf2 & Hf3) & _).
  split; [|split; [exact Hall'|]].
  - destruct Howna as [Ho Hh Hlen Hn].
    constructor; [now rewrite Hf1| |exact Hlen|lia].
    rewrite Hf2; [exact Hh| |exact Hn].
    eapply (proj2 Hall a b); eauto.
  - exists v'. apply Hown'.
Qed.

Lemma exec_all_other s a b va bufa cs :
  all_wf s -> a <> b -> owns s a va bufa -> is_Some (objs s !! b) ->
  Forall well_typed cs ->
  owns (exec_all b cs s) a va bufa /\ all_wf (exec_all b cs s).
Proof.
  intros Hall Hab Howna Hb Hty. revert s Hall Howna Hb.
  induction Hty as [|c cs Hc _ IH]; intros s Hall Howna Hb.
  - simpl. auto.
  - simpl.
    destruct (exec_other s a b va bufa c Hall Hab Howna Hb Hc)
      as (Howna' & Hall' & Hb').
    now apply IH.
Qed.

Lemma is_copy_intro o h n this src vs bs v' :
  this <> src ->
  all_wf (mkState o h n) ->
  o !! src = Some vs -> h !! values vs = Some bs ->
  Z.of_nat (length bs) = max_sz vs -> (values vs < n)%nat ->
  inv vs -> max_sz vs <= max_alloc ->
  v' = mkVector (sz vs) (max_sz vs) n ->
  forall s',
    all_wf s' ->
    objs s' !! this = Some v' -> objs s' !! src = Some vs ->
    heap s' !! n = Some (regrown vs bs (max_sz vs)) ->
    heap s' !! values vs = Some bs ->
    brk s' = S n ->
    is_copy s' this src (elems vs bs) (max_sz vs).
Proof.
  intros Hne Hall Hvs Hbs Hlen Hn [Hsz Hmin] Hmax -> s' Hall' Ht Hs Hhn Hhs Hbrk.
  assert (owns s' this (mkVector (sz vs) (max_sz vs) n)
               (regrown vs bs (max_sz vs))) as Hown.
  { constructor; proj; [exact Ht|exact Hhn|apply length_regrown; lia|lia]. }
  assert (owns s' src vs bs) as Howns.
  { constructor; [exact Hs|exact Hhs|exact Hlen|lia]. }
  split; [exact Hall'|].
  split.
  { rewrite <- (elems_regrown vs bs (max_sz vs) (max_sz vs) n) by lia.
    apply owns_observes; [exact Hown|proj; lia]. }
  split; [now erewrite owns_capacity by exact Hown|].
  split; [now apply owns_observes|].
  split; [now erewrite owns_capacity by exact Howns|].
  exists (mkVector (sz vs) (max_sz vs) n), vs.
  split; [|split; [exact Hs|proj; lia]].
  replace (Z.to_nat (max_sz vs) - length (elems vs bs))%nat
    with (Z.to_nat (max_sz vs) - Z.to_nat (sz vs))%nat.
  - exact Hown.
  - unfold elems. rewrite length_take. lia.
Qed.

Lemma capacity_live s this c :
  capacity this s = (Ret c, s) -> is_Some (objs s !! this).
Proof.
  unfold capacity. mred. destruct (objs s !! this); [eauto|discriminate].
Qed.

Lemma is_copy_independent s this src l c cs :
  is_copy s this src l c -> this <> src -> Forall well_typed cs ->
  observes (exec_all this cs s) src l /\ observes (exec_all src cs s) this l.
Proof.
  intros (Hall & Hot & _ & Hos & _ & v & vs & Hown & Hvs & _) Hne Hty.
  destruct (proj1 Hall src vs Hvs) as (bs & Howns & [Hszs _] & _).
  assert (l = elems vs bs) as Hl
    by (eapply (observes_inj s src); [exact Hos|now apply owns_observes]).
  destruct (proj1 Hall this v (owns_obj _ _ _ _ Hown))
    as (bt & Hownt & [Hszt _] & _).
  assert (l = elems v bt) as Hl'
    by (eapply (observes_inj s this); [exact Hot|now apply owns_observes]).
  split.
  - destruct (exec_all_other s src this vs bs cs) as [Hown' _]; auto.
    { exists v. apply Hown. }
    rewrite Hl. now apply owns_observes.
  - destruct (exec_all_other s this src v bt cs) as [Hown' _]; eauto.
    rewrite Hl'. now apply owns_observes.
Qed.

(** C7, as the code has it.  In a well-formed state where [src] shows [l]
    at capacity [c], copy construction of a distinct [this] and copy
    assignment to a distinct live [this] both succeed and leave [this]
    showing [l] at capacity [c] on a block of its own: the first
    [length l] slots are copied and the slots from there up to the capacity
    are value-initialised, not copied.  After that no sequence of mutating
    calls on one of the two changes what the other shows.  Assigning a
    container to itself returns the state unchanged. *)
Theorem copy_semantics (s : state) (this src : nat) (l : list T) (c : Z) :
  all_wf s -> this <> src ->
  observes s src l -> capacity src s = (Ret c, s) ->
  (exists s', Vector_copy this src s = (Ret tt, s') /\
              is_copy s' this src l c) /\
  (is_Some (objs s !! this) ->
   exists s', operator_assign this src s = (Ret tt, s') /\
              is_copy s' this src l c) /\
  (forall s' cs, is_copy s' this src l c -> Forall well_typed cs ->
     observes (exec_all this cs s') src l /\
     observes (exec_all src cs s') this l) /\
  operator_assign src src s = (Ret tt, s).
Proof.
  intros Hall Hne Hobs Hcap.
  pose proof (capacity_live _ _ _ Hcap) as Hlive.
  destruct (wf_view s src l c (all_wf_wf s src Hall Hlive) Hobs Hcap)
    as (vs & bs & Howns & Hinvs & Hmaxs & -> & -> & _).
  pose proof Hinvs as [Hszs Hmins].
  split; [|split; [|split]].
  - destruct (Vector_copy this src s) as [r s'] eqn:Hrun.
    pose proof (proj2 (Vector_copy_wf s this src r s' Hall Hlive Hrun)) as Hall'.
    destruct s as [o h n]. pose proof Howns as Howns'. open_owns Howns'.
    erewrite Vector_copy_eq in Hrun by (eauto; lia).
    inversion Hrun; subst r s'. eexists. split; [reflexivity|].
    eapply (is_copy_intro o h n this src vs bs); eauto; proj.
    + look.
    + now rewrite lookup_insert_ne.
    + look.
    + rewrite lookup_insert_ne by lia. exact Hh.
  - intros [vt Hvt].
    destruct (operator_assign this src s) as [r s'] eqn:Hrun.
    pose proof (proj2 (operator_assign_wf s this src r s' Hall
                         (ex_intro _ vt Hvt) Hlive Hrun)) as Hall'.
    destruct (proj1 Hall this vt Hvt) as (bt & Hownt & _).
    pose proof (proj2 Hall this src vt vs Hne Hvt (owns_obj _ _ _ _ Howns))
      as Hsep.
    destruct s as [o h n]. pose proof Howns as Howns'. open_owns Howns'.
    pose proof (owns_live _ _ _ _ Hownt) as Hnt. proj_all.
    erewrite operator_assign_eq in Hrun by (eauto; lia).
    inversion Hrun; subst r s'. eexists. split; [reflexivity|].
    eapply (is_copy_intro o h n this src vs bs); eauto; proj.
    + look.
    + now rewrite lookup_insert_ne.
    + look.
    + rewrite lookup_insert_ne by lia. now rewrite lookup_delete_ne.
  - intros s' cs Hcopy Hty. eapply is_copy_independent; eauto.
  - apply operator_assign_self.
Qed.

(** ** The footprint of a call *)

Lemma footprint_same s this v buf :
  owns s this v buf -> footprint s s this v v buf.
Proof.
  intros [Ho Hh _ _]. split; [now rewrite insert_id|].
  left. split; [reflexivity|]. split; [now rewrite insert_id|reflexivity].
Qed.

Lemma footprint_fields o h n this v v' buf :
  h !! values v = Some buf -> values v' = values v ->
  footprint (mkState o h n) (mkState (<[this := v']> o) h n) this v v' buf.
Proof.
  intros Hh Hv. split; [reflexivity|]. left. proj.
  split; [exact Hv|]. split; [now rewrite insert_id|reflexivity].
Qed.

Lemma exec_footprint_aux s this v buf c :
  owns s this v buf -> inv v -> max_sz v <= max_alloc -> well_typed c ->
  exists r s' v' buf',
    exec this c s = (r, s') /\ r <> Undef /\ footprint s s' this v v' buf'.
Proof.
  intros Hown Hinv Hmax Hty.
  pose proof Hinv as [Hsz Hmin]. unfold min_capacity in Hmin.
  pose proof (footprint_same s this v buf Hown) as Hsame.
  pose proof Hown as Hown'. open_owns Hown'.
  destruct c as [|z| |x| |d x|d|i x]; cbn [exec well_typed] in *.
  - eexists _, _, _, _. split; [eapply clear_eq; eauto|].
    split; [discriminate|].
    eapply footprint_fields; [exact Hh|reflexivity].
  - destruct (decide (z <= max_sz v)) as [Hle|Hgt].
    { eexists _, _, v, buf.
      split; [eapply reserve_noop; [apply Ho|exact Hle]|]. split; [discriminate|done]. }
    destruct (decide (z <= max_alloc)) as [Hok|Hbig].
    + eexists _, _, _, _.
      split; [eapply reserve_grow; eauto; lia|]. split; [discriminate|].
      split; [reflexivity|]. right. proj. auto.
    + eexists _, _, v, buf.
      split; [eapply reserve_fail; [apply Ho|lia|lia]|].
      split; [discriminate|done].
  - destruct (decide (sz v = max_sz v)) as [Heq|Hne].
    { eexists _, _, v, buf.
      split; [eapply shrink_to_fit_noop; eauto|]. split; [discriminate|done]. }
    eexists _, _, _, _.
    split; [eapply shrink_to_fit_eq; eauto; unfold min_capacity; lia|].
    split; [discriminate|].
    split; [reflexivity|]. right. proj. auto.
  - destruct (decide (sz v < max_sz v)) as [Hroom|Hfull].
    { eexists _, _, _, _.
      split; [eapply push_back_room; eauto|]. split; [discriminate|].
      split; [reflexivity|]. left. proj. auto. }
    destruct (decide (2 * max_sz v <= max_alloc)) as [Hok|Hno].
    + eexists _, _, _, _.
      split; [eapply push_back_full; eauto; lia|]. split; [discriminate|].
      split; [reflexivity|]. right. proj. auto.
    + eexists _, _, v, buf.
      split; [eapply push_back_fail; eauto; lia|].
      split; [discriminate|done].
  - destruct (decide (sz v = 0)) as [Hz|Hnz].
    { eexists _, _, v, buf.
      split; [eapply pop_back_empty; eauto|]. split; [discriminate|done]. }
    eexists _, _, _, _. split; [eapply pop_back_eq; eauto|].
    split; [discriminate|].
    eapply footprint_fields; [exact Hh|reflexivity].
  - destruct (decide (0 <= d <= sz v)) as [Hin|Hout].
    + destruct (decide (sz v < max_sz v)) as [Hroom|Hfull].
      { eexists _, _, _, _. split.
        { erewrite bind_Ret; [reflexivity|].
          erewrite insert_from_begin_eq by apply Ho.
          eapply insert_room; eauto. }
        split; [discriminate|]. split; [reflexivity|]. left. proj. auto. }
      destruct (decide (2 * max_sz v <= max_alloc)) as [Hok|Hno].
      * eexists _, _, _, _. split.
        { erewrite bind_Ret; [reflexivity|].
          erewrite insert_from_begin_eq by apply Ho.
          eapply insert_full; eauto; lia. }
        split; [discriminate|]. split; [reflexivity|]. right. proj. auto.
      * eexists _, _, v, buf. split.
        { erewrite bind_Throw; [reflexivity|].
          erewrite insert_from_begin_eq by apply Ho.
          eapply insert_fail; eauto; lia. }
        split; [discriminate|done].
    + eexists _, _, v, buf. split.
      { erewrite bind_Throw; [reflexivity|].
        erewrite insert_from_begin_eq by apply Ho.
        eapply insert_throw; eauto; lia. }
      split; [discriminate|done].
  - destruct (decide (0 <= d < sz v)) as [Hin|Hout].
    + eexists _, _, _, _. split.
      { erewrite bind_Ret; [reflexivity|].
        erewrite erase_from_begin_eq by apply Ho.
        eapply erase_eq; eauto. }
      split; [discriminate|]. split; [reflexivity|]. left. proj. auto.
    + eexists _, _, v, buf. split.
      { erewrite bind_Throw; [reflexivity|].
        erewrite erase_from_begin_eq by apply Ho.
        eapply erase_throw; eauto; lia. }
      split; [discriminate|done].
  - unfold index_set. destruct (decide (i < sz v)) as [Hin|Hout].
    + eexists _, _, v, _. split.
      { mstep by (eapply operator_index_eq; eauto).
        eapply write_eq; [look|lia]. }
      split; [discriminate|]. split; [proj; now rewrite insert_id|].
      left. proj. auto.
    + eexists _, _, v, buf. split.
      { erewrite bind_Throw; [reflexivity|].
        eapply operator_index_throw; eauto; lia. }
      split; [discriminate|done].
Qed.

(** ** Further properties of the code *)

Lemma index_get_safe s this v buf i :
  owns s this v buf -> 0 <= sz v <= max_sz v -> 0 <= i ->
  fst (index_get this i s) <> Undef.
Proof.
  intros Hown Hsz Hi. pose proof Hown as Hown'. open_owns Hown'.
  unfold index_get. destruct (decide (i < sz v)) as [Hin|Hout].
  - destruct (lookup_lt_is_Some_2 buf (Z.to_nat i)) as [x Hx]; [lia|].
    erewrite bind_Ret by (eapply operator_index_eq; eauto).
    erewrite read_eq by eauto. discriminate.
  - erewrite bind_Throw by (eapply operator_index_throw; eauto; lia).
    discriminate.
Qed.

Lemma wf_valid s this : wf s this -> valid s this.
Proof.
  intros (v & buf & Hown & Hinv & Hmax). exists v, buf. auto.
Qed.

Lemma all_wf_valid s : all_wf s -> all_valid s.
Proof.
  intros [Hall Hsep]. split; [|exact Hsep].
  intros this v Hv. destruct (Hall this v Hv) as (buf & Hown & Hinv & Hmax).
  exists buf. auto.
Qed.

(** From a state in which every container is valid, no call on a live
    container runs into undefined behaviour, whatever the allocator
    answers: those that take a value receive an object of the caller's,
    those that take a cursor receive [begin() + d]. *)
Lemma all_valid_safe (s : state) (this other : nat) :
  all_valid s ->
  fst (Vector_default this s) <> Undef /\
  (forall n, fst (Vector_sized this n s) <> Undef) /\
  (forall init, fst (Vector_init this init s) <> Undef) /\
  (is_Some (objs s !! other) -> fst (Vector_copy this other s) <> Undef) /\
  (is_Some (objs s !! this) -> is_Some (objs s !! other) ->
   fst (operator_assign this other s) <> Undef) /\
  (is_Some (objs s !! this) ->
   forall c, well_typed c -> fst (exec this c s) <> Undef) /\
  (is_Some (objs s !! this) ->
   forall i, 0 <= i -> fst (index_get this i s) <> Undef).
Proof.
  intros Hall.
  split; [|split; [|split; [|split; [|split; [|split]]]]].
  - destruct (Vector_default this s) as [r s'] eqn:E.
    apply (Vector_default_within ptrdiff_max max_alloc_bound s this r s'
             Hall E).
  - intros n. destruct (Vector_sized this n s) as [r s'] eqn:E.
    apply (Vector_sized_within ptrdiff_max max_alloc_bound s this n r s'
             Hall E).
  - intros init. destruct (Vector_init this init s) as [r s'] eqn:E.
    apply (Vector_init_within ptrdiff_max max_alloc_bound s this init r s'
             Hall E).
  - intros Ho. destruct (Vector_copy this other s) as [r s'] eqn:E.
    apply (Vector_copy_within ptrdiff_max s this other r s' Hall Ho E).
  - intros Ht Ho. destruct (operator_assign this other s) as [r s'] eqn:E.
    apply (operator_assign_within ptrdiff_max s this other r s'
             Hall Ht Ho E).
  - intros Ht c Hty. destruct (exec this c s) as [r s'] eqn:E.
    apply (exec_within ptrdiff_max max_alloc_bound (Z.le_refl _)
             s this c r s' Hall Ht Hty E).
  - intros [v Hv] i Hi.
    destruct (proj1 Hall this v Hv) as (buf & Hown & [Hsz _] & _).
    eapply index_get_safe; eauto.
Qed.

Lemma owns_empty s this v buf :
  owns s this v buf ->
  empty this s = (Ret (bool_decide (sz v = 0)), s).
Proof.
  intros [Ho _ _ _]. unfold empty.
  now erewrite bind_Ret by (eapply get_sz_eq; exact Ho).
Qed.

(** X2.  [Vector(n)] makes an empty container whose capacity is exactly
    [max(n, 5)], so a request for fewer than five slots, zero included,
    still gets five; when the allocator refuses that many slots the
    constructor throws [bad_alloc] and the state is as before.  [Vector()]
    makes an empty container of capacity 5. *)
Theorem construct_empty (s : state) (this : nat) (n : Z) :
  (Z.max n min_capacity <= max_alloc ->
   exists s', Vector_sized this n s = (Ret tt, s') /\
              observes s' this [] /\ empty this s' = (Ret true, s') /\
              capacity this s' = (Ret (Z.max n min_capacity), s') /\
              wf s' this) /\
  (max_alloc < Z.max n min_capacity ->
   Vector_sized this n s = (Throw bad_alloc, s)) /\
  (min_capacity <= max_alloc ->
   exists s', Vector_default this s = (Ret tt, s') /\
              observes s' this [] /\ empty this s' = (Ret true, s') /\
              capacity this s' = (Ret min_capacity, s') /\ wf s' this).
Proof.
  destruct s as [o h k].
  assert (forall m, min_capacity <= m <= max_alloc ->
            let v := mkVector 0 m k in
            let s' := mkState (<[this := v]> o)
                        (<[k := replicate (Z.to_nat m) value_init]> h) (S k) in
            observes s' this [] /\ empty this s' = (Ret true, s') /\
            capacity this s' = (Ret m, s') /\ wf s' this) as Hnew.
  { intros m Hm v s'. unfold min_capacity in Hm.
    assert (owns s' this v (replicate (Z.to_nat m) value_init)) as Hown.
    { constructor; unfold s', v; proj; [look|look| |lia].
      rewrite length_replicate. lia. }
    split; [exact (owns_observes _ _ _ _ Hown ltac:(unfold v; proj; lia))|].
    split; [now erewrite owns_empty by exact Hown|].
    split; [now erewrite owns_capacity by exact Hown|].
    eapply wf_intro; [exact Hown| |unfold v; proj; lia].
    unfold inv, min_capacity, v. proj. lia. }
  split; [|split].
  - intros Hm. eexists. split; [now apply Vector_sized_eq|].
    apply Hnew. unfold min_capacity in *. lia.
  - intros Hm. now apply Vector_sized_fail.
  - intros Hm. eexists. split; [now apply Vector_default_eq|].
    apply (Hnew min_capacity). lia.
Qed.

(** X3.  [clear()] empties the container without giving anything back:
    afterwards [size()] is 0 and [empty()] is true, [capacity()] is what it
    was, and the heap, the cleared slots included, is untouched and no
    block was allocated or freed.  Before and after, [empty()] is true
    exactly when the container shows no element. *)
Theorem clear_effect (s : state) (this : nat) (l : list T) (c : Z) :
  wf s this -> observes s this l -> capacity this s = (Ret c, s) ->
  empty this s = (Ret (bool_decide (l = [])), s) /\
  exists s',
    clear this s = (Ret tt, s') /\
    observes s' this [] /\ empty this s' = (Ret true, s') /\
    capacity this s' = (Ret c, s') /\
    heap s' = heap s /\ brk s' = brk s /\ wf s' this.
Proof.
  intros Hwf Hobs Hcap.
  destruct (wf_view s this l c Hwf Hobs Hcap)
    as (v & buf & Hown & Hinv & Hmax & -> & -> & Hlen).
  pose proof Hinv as [Hsz Hmin].
  split.
  - erewrite owns_empty by exact Hown. do 2 f_equal.
    apply bool_decide_ext. split.
    + intros Hz. rewrite Hz in Hlen. now destruct (elems v buf).
    + intros Hnil. rewrite Hnil in Hlen. simpl in Hlen. lia.
  - pose proof Hown as Hown'. open_owns Hown'.
    assert (owns (mkState (<[this := mkVector 0 (max_sz v) (values v)]> o) h n)
                 this (mkVector 0 (max_sz v) (values v)) buf) as Hown1
      by (constructor; proj; [look|look|exact Hlen0|exact Hn]).
    eexists. split; [eapply clear_eq; eauto|].
    split; [exact (owns_observes _ _ _ _ Hown1 ltac:(proj; lia))|].
    split; [now erewrite owns_empty by exact Hown1|].
    split; [now erewrite owns_capacity by exact Hown1|].
    split; [reflexivity|]. split; [reflexivity|].
    eapply wf_intro; [exact Hown1| |exact Hmax].
    unfold inv. proj. lia.
Qed.

(** X4.  [shrink_to_fit()] returns the state unchanged when [size()]
    equals [capacity()].  Otherwise it asks the allocator for
    [max(size(), 5)] slots.  When they are granted, the container shows
    the same elements, [capacity()] becomes [max(size(), 5)], never less
    than the floor, and the buffer has moved to the newly allocated block,
    the old one being freed, also when the capacity comes out the same.
    When they are refused, the call throws [bad_alloc] and the state is as
    before.  The container need not have been built under the allocator's
    present limit. *)
Theorem shrink_to_fit_effect (s : state) (this : nat) (l : list T) (c : Z) :
  valid s this -> observes s this l -> capacity this s = (Ret c, s) ->
  (Z.of_nat (length l) = c -> shrink_to_fit this s = (Ret tt, s)) /\
  (Z.of_nat (length l) <> c ->
   Z.max (Z.of_nat (length l)) min_capacity <= max_alloc ->
   exists s' old,
     shrink_to_fit this s = (Ret tt, s') /\
     observes s' this l /\
     capacity this s' = (Ret (Z.max (Z.of_nat (length l)) min_capacity), s') /\
     get_values this s = (Ret old, s) /\
     get_values this s' = (Ret (brk s), s') /\
     heap s' !! old = None /\ brk s' = S (brk s) /\ wf s' this) /\
  (Z.of_nat (length l) <> c ->
   max_alloc < Z.max (Z.of_nat (length l)) min_capacity ->
   shrink_to_fit this s = (Throw bad_alloc, s)).
Proof.
  intros Hwf Hobs Hcap.
  destruct (within_view ptrdiff_max s this l c Hwf Hobs Hcap)
    as (v & buf & Hown & Hinv & Hmax & -> & -> & Hlen).
  pose proof Hinv as [Hsz Hmin]. rewrite Hlen.
  pose proof Hown as Hown'. open_owns Hown'.
  split; [|split].
  - intros Heq. eapply shrink_to_fit_noop; eauto.
  - intros Hne Hgrant.
    set (z := Z.max (sz v) min_capacity) in *.
    assert (owns (mkState (<[this := mkVector (sz v) z n]> o)
                    (<[n := regrown v buf z]> (delete (values v) h)) (S n))
                 this (mkVector (sz v) z n) (regrown v buf z)) as Hown1
      by (apply regrown_owns; unfold z; lia).
    eexists _, (values v).
    split; [eapply shrink_to_fit_eq; eauto|].
    fold z.
    split.
    { rewrite <- (elems_regrown v buf z z n) by lia.
      apply owns_observes; [exact Hown1|]. unfold z. proj. lia. }
    split; [now erewrite owns_capacity by exact Hown1|].
    split; [now erewrite get_values_eq by look|].
    split; [now erewrite get_values_eq by look|].
    split; [proj; rewrite lookup_insert_ne by lia; apply lookup_delete_eq|].
    split; [reflexivity|].
    eapply wf_intro; [exact Hown1| |proj; exact Hgrant].
    unfold inv, z, min_capacity in *. proj. lia.
  - intros Hne Hno. eapply shrink_to_fit_fail; [look|exact Hne|exact Hno].
Qed.

(** X5.  [c[i] = x] with [i < size()] replaces the element at index [i]
    and nothing else: the other elements, [size()] and [capacity()] stay,
    and [c[i]] then reads [x].  With [i >= size()] the assignment throws
    the index error and the state is as before. *)
Theorem index_assignment (s : state) (this : nat) (l : list T) (c i : Z) (x : T) :
  wf s this -> observes s this l -> capacity this s = (Ret c, s) ->
  (0 <= i < Z.of_nat (length l) ->
   exists s',
     index_set this i x s = (Ret tt, s') /\
     observes s' this (<[Z.to_nat i := x]> l) /\
     index_get this i s' = (Ret x, s') /\
     capacity this s' = (Ret c, s') /\ wf s' this) /\
  (i >= Z.of_nat (length l) ->
   index_set this i x s
   = (Throw (runtime_error "Index out of bounds"), s)).
Proof.
  intros Hwf Hobs Hcap.
  destruct (wf_view s this l c Hwf Hobs Hcap)
    as (v & buf & Hown & Hinv & Hmax & -> & -> & Hlen).
  pose proof Hinv as [Hsz Hmin]. rewrite Hlen.
  pose proof Hown as Hown'. open_owns Hown'.
  unfold index_set. split.
  - intros Hi.
    assert (owns (mkState o (<[values v := <[Z.to_nat i := x]> buf]> h) n)
                 this v (<[Z.to_nat i := x]> buf)) as Hown1
      by (constructor; proj; [look|look|now rewrite length_insert|exact Hn]).
    assert (elems v (<[Z.to_nat i := x]> buf)
            = <[Z.to_nat i := x]> (elems v buf)) as Hel
      by (unfold elems; now rewrite take_insert_lt by lia).
    eexists. split.
    { mstep by (eapply operator_index_eq; eauto; lia).
      eapply write_eq; [look|lia]. }
    split; [rewrite <- Hel; now apply owns_observes|].
    split.
    { rewrite <- (Z2Nat.id i) at 1 by lia.
      eapply owns_index_get; [exact Hown1|exact Hsz|].
      rewrite Hel. apply list_lookup_insert_eq.
      unfold elems. rewrite length_take. lia. }
    split; [now erewrite owns_capacity by exact Hown1|].
    eapply wf_intro; eauto.
  - intros Hi.
    now erewrite bind_Throw by (eapply operator_index_throw; eauto).
Qed.

Lemma iter_incr b (k : nat) :
  Nat.iter k operator_incr (mkIterator (Ptr b 0))
  = mkIterator (Ptr b (Z.of_nat k)).
Proof.
  rewrite <- advance_incr. unfold advance. proj. now rewrite Z.add_0_l.
Qed.

(** X6.  [begin()] and [end()] bound exactly the live elements.  On a
    container showing [l]: [end() - begin()] is [size()]; the cursor
    reached from [begin()] by [k] increments compares equal to [end()]
    exactly when [k] is [size()], and unequal ([operator!=]) otherwise; for
    [k < size()] dereferencing it reads the element at index [k].  The
    read-only [begin()] and [end()] give the same positions. *)
Theorem cursor_range (s : state) (this : nat) (l : list T) :
  wf s this -> observes s this l ->
  exists b e,
    begin this s = (Ret b, s) /\ end_ this s = (Ret e, s) /\
    begin_const this s = (Ret (to_ConstIterator b), s) /\
    end_const this s = (Ret (to_ConstIterator e), s) /\
    operator_minus (to_ConstIterator e) (to_ConstIterator b) s
    = (Ret (Z.of_nat (length l)), s) /\
    forall k : nat,
      let it := Nat.iter k operator_incr b in
      (Iterator_eq it (to_ConstIterator e) = true <-> k = length l) /\
      Iterator_ne it (to_ConstIterator e)
      = negb (Iterator_eq it (to_ConstIterator e)) /\
      (forall x, l !! k = Some x ->
                 operator_star (to_ConstIterator it) s = (Ret x, s)).
Proof.
  intros Hwf Hobs.
  destruct Hwf as (v & buf & Hown & [Hsz Hmin] & Hmax).
  assert (l = elems v buf) as ->
    by (eapply observes_inj; eauto; now apply owns_observes).
  assert (Z.of_nat (length (elems v buf)) = sz v) as Hlen.
  { unfold elems. rewrite length_take. destruct Hown. lia. }
  pose proof Hown as Hown'. open_owns Hown'.
  exists (mkIterator (Ptr (values v) 0)), (mkIterator (Ptr (values v) (sz v))).
  split; [eapply begin_eq; look|]. split; [eapply end_eq; look|].
  split; [unfold begin_const; now msteps|].
  split; [unfold end_const; now msteps|].
  split.
  { unfold operator_minus, ptr_diff, to_ConstIterator. proj.
    rewrite decide_True by done.
    rewrite decide_True
      by (unfold in_ptrdiff, ptrdiff_min, ptrdiff_max in *; lia).
    rewrite Z.sub_0_r, Hlen. reflexivity. }
  intros k. cbv zeta. rewrite iter_incr.
  unfold Iterator_eq, Iterator_ne, to_ConstIterator. proj.
  split; [|split; [reflexivity|]].
  - rewrite bool_decide_eq_true. split.
    + intros E. inversion E. lia.
    + intros ->. f_equal. lia.
  - intros x Hx. apply lookup_take_Some in Hx as [Hx Hk].
    unfold operator_star. proj.
    eapply read_eq; [look|lia|]. now rewrite Nat2Z.id.
Qed.

(** X7.  The cursor [insert] returns.  For a value [x] of the caller's,
    after a successful [c.insert(c.begin() + d, x)] the returned cursor is
    [d] slots on from the new [begin()] and dereferences to [x];
    [capacity()] has doubled exactly when the container was full.  With
    room left, [begin()] is the same cursor as before and nothing was
    allocated.  When the container was full, the buffer moved to a new
    block: [begin()] differs from the one taken before the call, and
    dereferencing any cursor into the old buffer is undefined.

    For one of the container's own elements and room left,
    [c.insert(c.begin() + d, c[i])] stores what the shifting loop left in
    slot [i], since the reference is read after the loop: the element
    [l_i] when [i <= d], but its left neighbour [l_(i-1)] when [i > d]. *)
Theorem insert_cursor (s : state) (this : nat) (l : list T) (c d : Z) :
  wf s this -> observes s this l -> capacity this s = (Ret c, s) ->
  0 <= d <= Z.of_nat (length l) ->
  (forall x, Z.of_nat (length l) < c \/ 2 * c <= max_alloc ->
   exists b it s' b',
     begin this s = (Ret b, s) /\
     insert_from_begin this d x s = (Ret it, s') /\
     begin this s' = (Ret b', s') /\
     it = advance b' d /\
     operator_star (to_ConstIterator it) s' = (Ret x, s') /\
     capacity this s'
     = (Ret (if decide (Z.of_nat (length l) = c) then 2 * c else c), s') /\
     (Z.of_nat (length l) < c -> b' = b /\ brk s' = brk s) /\
     (Z.of_nat (length l) = c ->
      b' <> b /\ brk s' = S (brk s) /\
      forall k,
        operator_star (to_ConstIterator (advance b k)) s' = (Undef, s'))) /\
  (forall i y, 0 <= i < Z.of_nat (length l) -> Z.of_nat (length l) < c ->
   l !! Z.to_nat (if decide (i <= d) then i else i - 1) = Some y ->
   exists it s',
     insert_element this d i s = (Ret it, s') /\
     operator_star (to_ConstIterator it) s' = (Ret y, s') /\
     observes s' this (insert_at l (Z.to_nat d) y)).
Proof.
  intros Hwf Hobs Hcap Hd. split.
  { intros x Hroom.
  destruct (wf_view s this l c Hwf Hobs Hcap)
    as (v & buf & Hown & Hinv & Hmax & -> & -> & Hlen).
  pose proof Hinv as [Hsz Hmin]. rewrite Hlen in *.
  pose proof Hown as Hown'. open_owns Hown'.
  unfold min_capacity in Hmin.
  exists (mkIterator (Ptr (values v) 0)).
  destruct (decide (sz v = max_sz v)) as [Hfull|Hnot].
  - assert (length (regrown v buf (2 * max_sz v))
            = Z.to_nat (2 * max_sz v)) as Hrg
      by (apply length_regrown_nat; lia).
    eexists (mkIterator (Ptr n d)), _, (mkIterator (Ptr n 0)).
    split; [eapply begin_eq; look|].
    split.
    { erewrite insert_from_begin_eq by look. proj.
      eapply insert_full; eauto; lia. }
    split; [eapply (begin_eq _ _ (mkVector _ _ _)); look|].
    split; [unfold advance; proj; now rewrite Z.add_0_l|].
    split.
    { unfold operator_star, to_ConstIterator. proj.
      eapply read_eq; [look|lia|]. apply list_lookup_insert_eq.
      rewrite length_shift_right by lia. lia. }
    split; [unfold capacity; now erewrite get_max_sz_eq by look|].
    split; [lia|]. intros _.
    split; [intros E; inversion E; lia|]. split; [reflexivity|].
    intros k. unfold operator_star, to_ConstIterator, advance, read. proj.
    rewrite lookup_insert_ne by lia. now rewrite lookup_delete_eq.
  - eexists (mkIterator (Ptr (values v) d)), _,
            (mkIterator (Ptr (values v) 0)).
    split; [eapply begin_eq; look|].
    split.
    { erewrite insert_from_begin_eq by look. proj.
      eapply insert_room; eauto; lia. }
    split; [eapply (begin_eq _ _ (mkVector _ _ _)); look|].
    split; [unfold advance; proj; now rewrite Z.add_0_l|].
    split.
    { unfold operator_star, to_ConstIterator. proj.
      eapply read_eq; [look|lia|]. apply list_lookup_insert_eq.
      rewrite length_shift_right by lia. lia. }
    split; [unfold capacity; now erewrite get_max_sz_eq by look|].
    split; [intros _; split; reflexivity|]. intros E. lia.
}
  intros i y Hi Hroom Hy.
  destruct (wf_view s this l c Hwf Hobs Hcap)
    as (v & buf & Hown & Hinv & Hmax & -> & -> & Hlen).
  pose proof Hinv as [Hsz Hmin].
  destruct (insert_slot_spec s this v buf d i Hown Hinv
              (granted_size _ Hmax))
    as (y' & s1 & buf1 & Hy' & Hrun1 & Hown1 & Hel1 & Hslot & _);
    [lia|lia|lia|].
  rewrite Hy in Hy'. inversion Hy'; subst y'.
  exists (mkIterator (Ptr (values v) d)), s1.
  split; [erewrite insert_element_eq by (eauto; lia); exact Hrun1|].
  split.
  - open_owns Hown1. unfold operator_star, to_ConstIterator. proj.
    eapply read_eq; [exact Hh|lia|exact Hslot].
  - rewrite <- Hel1. apply owns_observes; [exact Hown1|]. proj. lia.
Qed.

(** X8.  [c.erase(c.begin() + d)] with [d < size()] removes exactly the
    element at index [d]: the container then shows the other elements in
    their order.  Nothing is allocated, so [begin()] and [capacity()] are
    as before, and the returned cursor is the position that was erased: it
    dereferences to the element that followed the erased one, and it
    compares equal to the new [end()] exactly when the last element was
    erased. *)
Theorem erase_effect (s : state) (this : nat) (l : list T) (c d : Z) :
  wf s this -> observes s this l -> capacity this s = (Ret c, s) ->
  0 <= d < Z.of_nat (length l) ->
  exists b e' it s',
    begin this s = (Ret b, s) /\
    erase_from_begin this d s = (Ret it, s') /\
    it = advance b d /\
    begin this s' = (Ret b, s') /\
    end_ this s' = (Ret e', s') /\
    observes s' this (delete (Z.to_nat d) l) /\
    capacity this s' = (Ret c, s') /\ brk s' = brk s /\
    (Iterator_eq it (to_ConstIterator e') = true
     <-> d = Z.of_nat (length l) - 1) /\
    (forall y, l !! S (Z.to_nat d) = Some y ->
               operator_star (to_ConstIterator it) s' = (Ret y, s')) /\
    wf s' this.
Proof.
  intros Hwf Hobs Hcap Hd.
  destruct (wf_view s this l c Hwf Hobs Hcap)
    as (v & buf & Hown & Hinv & Hmax & -> & -> & Hlen).
  pose proof Hinv as [Hsz Hmin]. rewrite Hlen in *.
  destruct (erase_spec s this v buf d Hown Hinv (granted_size _ Hmax) Hd)
    as (s' & buf' & Hrun & Hown1 & Hel & _ & Hbrk).
  cbv zeta in *.
  set (v' := mkVector (sz v - 1) (max_sz v) (values v)) in *.
  exists (mkIterator (Ptr (values v) 0)),
         (mkIterator (Ptr (values v) (sz v - 1))),
         (mkIterator (Ptr (values v) d)), s'.
  split; [eapply begin_eq; apply Hown|].
  split; [now erewrite erase_from_begin_eq by apply Hown|].
  split; [unfold advance; proj; now rewrite Z.add_0_l|].
  split; [apply (begin_eq s' this v'), Hown1|].
  split; [apply (end_eq s' this v'), Hown1|].
  split; [rewrite <- Hel; apply owns_observes; [exact Hown1|]|].
  { unfold v'. proj. lia. }
  split; [now erewrite owns_capacity by exact Hown1|].
  split; [exact Hbrk|].
  split.
  { unfold Iterator_eq, to_ConstIterator. proj.
    rewrite bool_decide_eq_true. split.
    - intros E. inversion E. lia.
    - intros ->. reflexivity. }
  split; [|eapply wf_intro; [exact Hown1| |exact Hmax]].
  - intros y Hy.
    assert (S (Z.to_nat d) < length (elems v buf))%nat as Hlt
      by (eapply lookup_lt_Some; eauto).
    assert (buf' !! Z.to_nat d = Some y) as Hb.
    { assert (elems v' buf' !! Z.to_nat d = Some y) as Hy'.
      { rewrite Hel, list_lookup_delete_ge by lia. exact Hy. }
      unfold elems in Hy'. now apply lookup_take_Some in Hy' as [? _]. }
    open_owns Hown1.
    unfold operator_star, to_ConstIterator. proj.
    eapply read_eq; [exact Hh|lia|exact Hb].
  - unfold inv, v', min_capacity in *. proj. lia.
Qed.

(** X9.  A refused allocation leaves the container as it was.  On a
    well-formed container [reserve(n)] for an [n] the allocator refuses
    throws [bad_alloc]; on a full one whose doubled capacity is refused,
    [push_back] and [insert] at any valid position throw [bad_alloc].  In
    each case the state handed back is the state the call was given. *)
Theorem allocation_failure (s : state) (this : nat) (l : list T) (c : Z) :
  wf s this -> observes s this l -> capacity this s = (Ret c, s) ->
  (forall n, max_alloc < n -> reserve this n s = (Throw bad_alloc, s)) /\
  (Z.of_nat (length l) = c -> max_alloc < 2 * c ->
   (forall x, push_back this x s = (Throw bad_alloc, s)) /\
   (forall d x, 0 <= d <= Z.of_nat (length l) ->
      insert_from_begin this d x s = (Throw bad_alloc, s))).
Proof.
  intros Hwf Hobs Hcap.
  destruct (wf_view s this l c Hwf Hobs Hcap)
    as (v & buf & Hown & Hinv & Hmax & -> & -> & Hlen).
  pose proof Hinv as [Hsz Hmin]. rewrite Hlen. unfold min_capacity in Hmin.
  pose proof Hown as Hown'. open_owns Hown'.
  split.
  - intros z Hz. eapply reserve_fail; [look|lia|lia].
  - intros Hfull Hno. split.
    + intros x. eapply push_back_fail; eauto; lia.
    + intros d x Hd. erewrite insert_from_begin_eq by look. proj.
      eapply insert_fail; eauto; lia.
Qed.

(** One [push_back], with the block it ends up in. *)
Lemma push_back_count s this v buf x :
  owns s this v buf -> inv v -> max_sz v <= max_alloc ->
  sz v < max_sz v \/ 2 * max_sz v <= max_alloc ->
  exists s' v' buf',
    push_back this x s = (Ret tt, s') /\
    owns s' this v' buf' /\
    sz v' = sz v + 1 /\
    elems v' buf' = elems v buf ++ [x] /\
    (sz v < max_sz v ->
     max_sz v' = max_sz v /\ values v' = values v /\ brk s' = brk s) /\
    (sz v = max_sz v ->
     max_sz v' = 2 * max_sz v /\ values v' = brk s /\ brk s' = S (brk s)).
Proof.
  intros Hown Hinv Hmax Hroom.
  destruct (push_back_spec s this v buf x Hown Hinv (granted_size _ Hmax) Hroom)
    as (s' & v' & buf' & Hrun & Hown' & Hsz' & Hmax' & Hel & _).
  exists s', v', buf'.
  split; [exact Hrun|]. split; [exact Hown'|]. split; [exact Hsz'|].
  split; [exact Hel|].
  destruct Hinv as [Hsz Hmin]. unfold min_capacity in Hmin.
  pose proof Hown as Hown1. open_owns Hown1.
  destruct (decide (sz v = max_sz v)) as [Hfull|Hnot].
  - split; [lia|]. intros _.
    erewrite push_back_full in Hrun by (eauto; lia).
    inversion Hrun; subst s'. destruct Hown' as [Ho' _ _ _].
    proj_all. rewrite lookup_insert_eq in Ho'. inversion Ho'; subst v'.
    proj. auto.
  - split; [|lia]. intros _.
    erewrite push_back_room in Hrun by (eauto; lia).
    inversion Hrun; subst s'. destruct Hown' as [Ho' _ _ _].
    proj_all. rewrite lookup_insert_eq in Ho'. inversion Ho'; subst v'.
    proj. auto.
Qed.

(** A run of [push_back]s doubles the capacity [k] times, [k] the least
    number of doublings that makes room, and allocates [k] blocks. *)
Lemma push_back_growth this (vs : list T) :
  forall s v buf,
    owns s this v buf -> inv v -> max_sz v <= max_alloc ->
    sz v + Z.of_nat (length vs) <= max_sz v \/
    2 * (sz v + Z.of_nat (length vs)) <= max_alloc ->
    exists s' v' buf' (k : nat),
      for_each vs (push_back this) s = (Ret tt, s') /\
      owns s' this v' buf' /\ inv v' /\ max_sz v' <= max_alloc /\
      elems v' buf' = elems v buf ++ vs /\
      max_sz v' = max_sz v * 2 ^ Z.of_nat k /\
      brk s' = (brk s + k)%nat /\
      (k = 0%nat -> values v' = values v) /\
      (forall j : nat, (j < k)%nat ->
         max_sz v * 2 ^ Z.of_nat j < sz v + Z.of_nat (length vs)).
Proof.
  induction vs as [|x vs IH]; intros s v buf Hown Hinv Hmax Hroom.
  - exists s, v, buf, 0%nat. rewrite app_nil_r.
    split; [reflexivity|]. split; [exact Hown|]. split; [exact Hinv|].
    split; [exact Hmax|]. split; [reflexivity|].
    split; [change (2 ^ Z.of_nat 0) with 1; lia|].
    split; [lia|]. split; [reflexivity|]. intros j Hj. lia.
  - simpl length in Hroom. pose proof Hinv as [Hsz Hmin].
    unfold min_capacity in Hmin.
    destruct (push_back_count s this v buf x Hown Hinv Hmax)
      as (s1 & v1 & buf1 & Hrun & Hown1 & Hsz1 & Hel1 & Hr & Hf); [lia|].
    assert (max_sz v1 = max_sz v /\ sz v < max_sz v \/
            max_sz v1 = 2 * max_sz v /\ sz v = max_sz v) as Hcase.
    { destruct (decide (sz v = max_sz v)) as [E|E];
        [right; split; [apply Hf|]; exact E|left; split; [apply Hr|]; lia]. }
    assert (inv v1 /\ max_sz v1 <= max_alloc) as [Hinv1 Hmax1].
    { unfold inv, min_capacity. lia. }
    destruct (IH s1 v1 buf1 Hown1 Hinv1 Hmax1)
      as (s' & v' & buf' & k & Hrun' & Hown' & Hinv' & Hmax' & Hel'
          & Hcap' & Hbrk' & Hval' & Hleast); [lia|].
    destruct Hcase as [[Hm Hlt]|[Hm Hfull]].
    + destruct (Hr Hlt) as (_ & Hv1 & Hb1).
      exists s', v', buf', k.
      split; [cbn [for_each]; now erewrite bind_Ret by exact Hrun|].
      split; [exact Hown'|]. split; [exact Hinv'|]. split; [exact Hmax'|].
      split; [now rewrite Hel', Hel1, <- app_assoc|].
      split; [now rewrite Hcap', Hm|].
      split; [lia|]. split; [intros E; rewrite Hval' by exact E; exact Hv1|].
      intros j Hj. specialize (Hleast j Hj). simpl length. lia.
    + destruct (Hf Hfull) as (_ & Hv1 & Hb1).
      exists s', v', buf', (S k).
      split; [cbn [for_each]; now erewrite bind_Ret by exact Hrun|].
      split; [exact Hown'|]. split; [exact Hinv'|]. split; [exact Hmax'|].
      split; [now rewrite Hel', Hel1, <- app_assoc|].
      split.
      { rewrite Hcap', Hm, Nat2Z.inj_succ, Z.pow_succ_r by lia. lia. }
      split; [lia|]. split; [discriminate|].
      intros [|j] Hj; simpl length.
      * change (2 ^ Z.of_nat 0) with 1. lia.
      * assert (j < k)%nat as Hj' by lia. specialize (Hleast j Hj').
        rewrite Nat2Z.inj_succ, Z.pow_succ_r by lia. lia.
Qed.

(** X10.  Geometric growth.  [push_back] of [v_0], ..., [v_(N-1)] on a
    container of capacity [c] showing [l] leaves it showing [l] followed by
    the new elements, at capacity [c * 2^k], where [k] is the least number
    of doublings for which the elements fit; exactly [k] blocks were
    allocated on the way. *)
Theorem growth_sequence
  (s : state) (this : nat) (l : list T) (c : Z) (vs : list T) :
  wf s this -> observes s this l -> capacity this s = (Ret c, s) ->
  2 * (Z.of_nat (length l) + Z.of_nat (length vs)) <= max_alloc ->
  exists s' (k : nat),
    for_each vs (push_back this) s = (Ret tt, s') /\
    observes s' this (l ++ vs) /\
    capacity this s' = (Ret (c * 2 ^ Z.of_nat k), s') /\
    brk s' = (brk s + k)%nat /\
    Z.of_nat (length l) + Z.of_nat (length vs) <= c * 2 ^ Z.of_nat k /\
    (forall j : nat, (j < k)%nat ->
       c * 2 ^ Z.of_nat j < Z.of_nat (length l) + Z.of_nat (length vs)) /\
    wf s' this.
Proof.
  intros Hwf Hobs Hcap Hroom.
  destruct (wf_view s this l c Hwf Hobs Hcap)
    as (v & buf & Hown & Hinv & Hmax & -> & -> & Hlen).
  rewrite Hlen in *.
  destruct (push_back_growth this vs s v buf Hown Hinv Hmax)
    as (s' & v' & buf' & k & Hrun & Hown' & Hinv' & Hmax' & Hel
        & Hcap' & Hbrk & _ & Hleast); [lia|].
  exists s', k.
  split; [exact Hrun|].
  split; [rewrite <- Hel; apply owns_observes; [exact Hown'|apply Hinv']|].
  split; [rewrite <- Hcap'; now erewrite owns_capacity by exact Hown'|].
  split; [exact Hbrk|].
  split.
  { assert (Z.of_nat (length (elems v' buf')) = sz v') as Hlen'.
    { unfold elems. rewrite length_take. destruct Hown', Hinv'. lia. }
    rewrite Hel, length_app in Hlen'.
    unfold elems in Hlen' at 1. rewrite length_take in Hlen'.
    destruct Hown, Hinv, Hinv'. lia. }
  split; [exact Hleast|]. eapply wf_intro; eauto.
Qed.

(** X11.  [reserve(n)] ahead of a run of [push_back]s that fits in [n]:
    the one allocation is the one [reserve] makes.  The pushes allocate
    nothing, [capacity()] stays [n], and [begin()] taken after [reserve]
    still is [begin()] after the last push. *)
Theorem reserve_then_push
  (s : state) (this : nat) (l : list T) (c n : Z) (vs : list T) :
  wf s this -> observes s this l -> capacity this s = (Ret c, s) ->
  c < n <= max_alloc ->
  Z.of_nat (length l) + Z.of_nat (length vs) <= n ->
  exists s1 s' b,
    reserve this n s = (Ret tt, s1) /\
    begin this s1 = (Ret b, s1) /\
    for_each vs (push_back this) s1 = (Ret tt, s') /\
    observes s' this (l ++ vs) /\
    capacity this s' = (Ret n, s') /\
    begin this s' = (Ret b, s') /\
    brk s1 = S (brk s) /\ brk s' = brk s1.
Proof.
  intros Hwf Hobs Hcap Hn Hfit.
  destruct (wf_view s this l c Hwf Hobs Hcap)
    as (v & buf & Hown & Hinv & Hmax & -> & -> & Hlen).
  rewrite Hlen in *. pose proof Hinv as [Hsz Hmin].
  destruct (reserve_spec s this v buf n Hown Hsz Hn)
    as (s1 & buf1 & Hrun1 & Hown1 & Hel1 & _).
  set (v1 := mkVector (sz v) n (brk s)) in *.
  assert (inv v1) as Hinv1 by (unfold inv, v1; proj; lia).
  destruct (push_back_growth this vs s1 v1 buf1 Hown1 Hinv1)
    as (s' & v' & buf' & k & Hrun & Hown' & Hinv' & Hmax' & Hel
        & Hcap' & Hbrk & Hval & Hleast);
    [unfold v1; proj; lia|unfold v1; proj; lia|].
  assert (k = 0%nat) as ->.
  { destruct k as [|k]; [reflexivity|].
    specialize (Hleast 0%nat ltac:(lia)).
    change (2 ^ Z.of_nat 0) with 1 in Hleast.
    unfold v1 in Hleast. proj_all. lia. }
  change (2 ^ Z.of_nat 0) with 1 in Hcap'. rewrite Z.mul_1_r in Hcap'.
  exists s1, s', (mkIterator (Ptr (brk s) 0)).
  split; [exact Hrun1|].
  split; [apply (begin_eq s1 this v1), Hown1|].
  split; [exact Hrun|].
  split; [rewrite <- Hel1, <- Hel; apply owns_observes;
          [exact Hown'|apply Hinv']|].
  split; [erewrite owns_capacity by exact Hown'; now rewrite Hcap'|].
  split.
  { replace (brk s) with (values v') by now rewrite Hval.
    apply begin_eq, Hown'. }
  split; [|lia].
  pose proof Hown as Hown0. open_owns Hown0.
  erewrite reserve_grow in Hrun1 by (eauto; lia).
  now inversion Hrun1.
Qed.

(** X12.  [c.insert(c.end(), x)] against [c.push_back(x)].  For a value
    [x] of the caller's the two do the same: either both succeed and leave
    the very same state, the returned cursor being one step before the new
    [end()], or both throw [bad_alloc] and leave the state as it was.

    For one of the container's own elements they part on a full
    container.  [push_back] copies its argument before it does anything,
    [insert] keeps a reference and reads it after [reserve]: with room
    left, [c.push_back(c[i])] and [c.insert(c.end(), c[i])] leave the same
    state; on a full container whose doubled capacity is granted,
    [c.push_back(c[i])] succeeds and appends the element, while
    [c.insert(c.end(), c[i])] reads freed memory; when the doubled
    capacity is refused, both throw [bad_alloc]. *)
Theorem insert_at_end (s : state) (this : nat) (l : list T) (c : Z) :
  wf s this -> observes s this l -> capacity this s = (Ret c, s) ->
  (forall x,
     (exists s' it e,
        push_back this x s = (Ret tt, s') /\
        insert_from_begin this (Z.of_nat (length l)) x s = (Ret it, s') /\
        end_ this s' = (Ret e, s') /\ e = operator_incr it) \/
     (push_back this x s = (Throw bad_alloc, s) /\
      insert_from_begin this (Z.of_nat (length l)) x s
      = (Throw bad_alloc, s))) /\
  (forall (i : nat) x, l !! i = Some x ->
     (Z.of_nat (length l) < c ->
      exists s' it,
        push_back_element this (Z.of_nat i) s = (Ret tt, s') /\
        insert_element this (Z.of_nat (length l)) (Z.of_nat i) s
        = (Ret it, s') /\
        observes s' this (l ++ [x])) /\
     (Z.of_nat (length l) = c -> 2 * c <= max_alloc ->
      (exists s',
         push_back_element this (Z.of_nat i) s = (Ret tt, s') /\
         observes s' this (l ++ [x])) /\
      (exists s',
         insert_element this (Z.of_nat (length l)) (Z.of_nat i) s
         = (Undef, s'))) /\
     (Z.of_nat (length l) = c -> max_alloc < 2 * c ->
      push_back_element this (Z.of_nat i) s = (Throw bad_alloc, s) /\
      insert_element this (Z.of_nat (length l)) (Z.of_nat i) s
      = (Throw bad_alloc, s))).
Proof.
  intros Hwf Hobs Hcap. split.
  { intros x.
  destruct Hwf as (v & buf & Hown & [Hsz Hmin] & Hmax).
  assert (l = elems v buf) as ->
    by (eapply observes_inj; eauto; now apply owns_observes).
  assert (Z.of_nat (length (elems v buf)) = sz v) as ->.
  { unfold elems. rewrite length_take. destruct Hown. lia. }
  unfold min_capacity in Hmin.
  pose proof Hown as Hown'. open_owns Hown'.
  erewrite insert_from_begin_eq by look. proj.
  destruct (decide (sz v < max_sz v)) as [Hroom|Hfull].
  { left. eexists _, _, _.
    split; [eapply push_back_room; eauto|].
    split.
    { erewrite insert_room by (eauto; lia).
      now rewrite Z.sub_diag, shift_right_0. }
    split; [eapply (end_eq _ _ (mkVector _ _ _)); look|].
    unfold operator_incr. proj. reflexivity. }
  destruct (decide (2 * max_sz v <= max_alloc)) as [Hok|Hno].
  - left. eexists _, _, _.
    split; [eapply push_back_full; eauto; lia|].
    split.
    { erewrite insert_full by (eauto; lia).
      now rewrite Z.sub_diag, shift_right_0. }
    split; [eapply (end_eq _ _ (mkVector _ _ _)); look|].
    unfold operator_incr. proj. reflexivity.
  - right. split.
    + eapply push_back_fail; eauto; lia.
    + eapply insert_fail; eauto; lia.
}
  intros i x Hx.
  destruct (wf_view s this l c Hwf Hobs Hcap)
    as (v & buf & Hown & Hinv & Hmax & -> & -> & Hlen).
  pose proof Hinv as [Hsz Hmin]. rewrite Hlen.
  unfold min_capacity in Hmin.
  assert (i < length (elems v buf))%nat as Hi
    by (eapply lookup_lt_Some; eauto).
  pose proof (push_back_element_eq s this v buf i x Hown Hsz Hx) as Hpe.
  pose proof (insert_element_eq s this v buf (sz v) (Z.of_nat i) Hown Hsz
                ltac:(lia)) as Hie.
  rewrite Hpe, Hie.
  assert (buf !! i = Some x) as Hbx
    by (unfold elems in Hx; now apply lookup_take_Some in Hx as [? _]).
  split; [|split].
  - intros Hroom.
    destruct (push_back_spec s this v buf x Hown Hinv (granted_size _ Hmax))
      as (s' & v' & buf' & Hrun & Hown' & Hsz' & Hmax' & Hel & _); [lia|].
    pose proof Hown as Hown0. open_owns Hown0.
    exists s', (mkIterator (Ptr (values v) (sz v))).
    split; [exact Hrun|].
    split.
    { erewrite push_back_room in Hrun by (eauto; lia).
      inversion Hrun; subst s'.
      erewrite (insert_room_slot _ _ _ _ _ _ Ho Hh) with (y := x);
        [|lia..|].
      - now rewrite Z.sub_diag, shift_right_0.
      - rewrite Z.sub_diag, shift_right_0, Nat2Z.id. exact Hbx. }
    rewrite <- Hel. apply owns_observes; [exact Hown'|].
    rewrite Hsz', Hmax'. destruct (decide (sz v = max_sz v)); lia.
  - intros Hfull Hgrant. split.
    + destruct (push_back_spec s this v buf x Hown Hinv
                  (granted_size _ Hmax))
        as (s' & v' & buf' & Hrun & Hown' & Hsz' & Hmax' & Hel & _); [lia|].
      exists s'. split; [exact Hrun|].
      rewrite <- Hel. apply owns_observes; [exact Hown'|].
      rewrite Hsz', Hmax'. destruct (decide (sz v = max_sz v)); lia.
    + pose proof Hown as Hown0. open_owns Hown0.
      eexists. eapply insert_full_slot; eauto; lia.
  - intros Hfull Hno.
    pose proof Hown as Hown0. open_owns Hown0. split.
    + eapply push_back_fail; eauto; lia.
    + eapply insert_fail; eauto; lia.
Qed.

(** X13.  [c.erase(c.end() - 1)] does what [c.pop_back()] does.  On a
    non-empty well-formed container both succeed and leave the very same
    state, and the cursor [erase] returns is the new [end()]. *)
Theorem erase_at_end (s : state) (this : nat) (l : list T) :
  wf s this -> observes s this l -> l <> [] ->
  exists s' it,
    pop_back this s = (Ret tt, s') /\
    erase_from_begin this (Z.of_nat (length l) - 1) s = (Ret it, s') /\
    end_ this s' = (Ret it, s').
Proof.
  intros Hwf Hobs Hne.
  destruct Hwf as (v & buf & Hown & [Hsz Hmin] & Hmax).
  assert (l = elems v buf) as ->
    by (eapply observes_inj; eauto; now apply owns_observes).
  assert (Z.of_nat (length (elems v buf)) = sz v) as Hlen.
  { unfold elems. rewrite length_take. destruct Hown. lia. }
  assert (sz v <> 0) as Hpos.
  { intros E. apply Hne. apply nil_length_inv. lia. }
  rewrite Hlen.
  pose proof Hown as Hown'. open_owns Hown'.
  erewrite erase_from_begin_eq by look. proj.
  eexists _, _.
  split; [eapply pop_back_eq; eauto|].
  split.
  { erewrite erase_eq by (eauto; lia).
    rewrite Z.sub_diag, shift_left_0. now rewrite (insert_id h) by exact Hh. }
  eapply (end_eq _ _ (mkVector _ _ _)); look.
Qed.

Lemma Vector_destroy_eq o h n this v :
  o !! this = Some v ->
  Vector_destroy this (mkState o h n)
  = (Ret tt, mkState (delete this o) (delete (values v) h) n).
Proof.
  intros Ho. unfold Vector_destroy. msteps.
  reflexivity.
Qed.

(** What a constructor that returned left behind: the new object on the
    block the allocator handed out next. *)
Lemma construct_shape s this s1 :
  all_wf s ->
  Vector_default this s = (Ret tt, s1) \/
  (exists n, Vector_sized this n s = (Ret tt, s1)) \/
  (exists init, Vector_init this init s = (Ret tt, s1)) \/
  (exists other, is_Some (objs s !! other) /\
                 Vector_copy this other s = (Ret tt, s1)) ->
  exists v buf,
    s1 = mkState (<[this := v]> (objs s)) (<[brk s := buf]> (heap s))
                 (S (brk s)) /\
    values v = brk s /\ Z.of_nat (length buf) = max_sz v /\
    inv v /\ max_sz v <= max_alloc.
Proof.
  intros Hall Hrun. destruct s as [o h n]. proj.
  destruct Hrun as [Hrun|[[z Hrun]|[[init Hrun]|(other & [vo Hvo] & Hrun)]]].
  - destruct (decide (min_capacity <= max_alloc)) as [Hok|Hno].
    + rewrite Vector_default_eq in Hrun by done. inversion Hrun.
      eexists _, _. split; [reflexivity|]. proj.
      split; [reflexivity|]. split; [reflexivity|].
      unfold inv, min_capacity in *. proj. lia.
    + unfold Vector_default in Hrun.
      erewrite bind_Throw in Hrun by (apply make_unique_fail; lia).
      discriminate.
  - destruct (decide (Z.max z min_capacity <= max_alloc)) as [Hok|Hno].
    + rewrite Vector_sized_eq in Hrun by done. inversion Hrun.
      eexists _, _. split; [reflexivity|]. proj.
      split; [reflexivity|].
      split; [rewrite length_replicate; unfold min_capacity; lia|].
      unfold inv, min_capacity in *. proj. lia.
    + rewrite Vector_sized_fail in Hrun by lia. discriminate.
  - destruct (decide (Z.max (Z.of_nat (length init)) min_capacity
                      <= max_alloc)) as [Hok|Hno].
    + rewrite Vector_init_eq in Hrun by done. inversion Hrun.
      eexists _, _. split; [reflexivity|]. proj.
      split; [reflexivity|].
      split.
      { unfold init_buffer. rewrite length_app, length_replicate.
        unfold min_capacity. lia. }
      unfold inv, min_capacity in *. proj. lia.
    + unfold Vector_init in Hrun. cbv zeta in Hrun.
      erewrite bind_Throw in Hrun by (apply make_unique_fail; lia).
      discriminate.
  - destruct (proj1 Hall other vo Hvo) as (bo & Howno & [Hsz Hmin] & Hmax).
    open_owns Howno.
    erewrite Vector_copy_eq in Hrun by (eauto; lia). inversion Hrun.
    eexists _, _. split; [reflexivity|]. proj.
    split; [reflexivity|]. split; [apply length_regrown; lia|].
    unfold inv, min_capacity in *. proj. lia.
Qed.

(** Calls on [this] keep the rest of memory: the objects other than
    [this] are [o0], the blocks other than its buffer are [h0]. *)
Lemma exec_all_rest this o0 h0 cs :
  forall s v buf,
    owns s this v buf -> inv v -> max_sz v <= max_alloc ->
    Forall well_typed cs ->
    (forall b, is_Some (h0 !! b) -> (b < brk s)%nat) ->
    objs s = <[this := v]> o0 -> delete (values v) (heap s) = h0 ->
    exists v' buf',
      owns (exec_all this cs s) this v' buf' /\
      objs (exec_all this cs s) = <[this := v']> o0 /\
      delete (values v') (heap (exec_all this cs s)) = h0 /\
      (brk s <= brk (exec_all this cs s))%nat.
Proof.
  induction cs as [|c cs IH];
    intros s v buf Hown Hinv Hmax Hty Hlow Hobjs Hheap.
  - exists v, buf. cbn [exec_all]. auto.
  - apply Forall_cons in Hty as [Hc Hcs]. cbn [exec_all].
    destruct (exec_footprint_aux s this v buf c Hown Hinv Hmax Hc)
      as (r & s1 & v1 & buf1 & Hrun & _ & Hobj1 & Hfoot).
    destruct (exec_spec s this v buf c Hown Hinv Hmax Hc)
      as (r' & s1' & Hrun' & _ & v1' & buf1' & Hown1 & Hinv1 & Hmax1 & _).
    rewrite Hrun in Hrun'. inversion Hrun'; subst r' s1'. clear Hrun'.
    rewrite Hrun. cbn [snd].
    assert (v1' = v1) as ->.
    { destruct Hown1 as [Ho1 _ _ _]. rewrite Hobj1, lookup_insert_eq in Ho1.
      now inversion Ho1. }
    assert (delete (values v1) (heap s1) = h0 /\ (brk s <= brk s1)%nat)
      as [Hheap1 Hbrk1].
    { destruct Hfoot as [(Hv & Hh & Hb)|(Hv & Hh & Hb)].
      - rewrite Hv, Hh, delete_insert_eq, Hb. split; [exact Hheap|lia].
      - rewrite Hv, Hh, delete_insert_eq, Hheap, Hb. split; [|lia].
        apply delete_id. destruct (h0 !! brk s) eqn:E; [|reflexivity].
        assert (brk s < brk s)%nat by (apply Hlow; eauto). lia. }
    destruct (IH s1 v1 buf1' Hown1 Hinv1 Hmax1 Hcs)
      as (v' & buf' & Hown' & Hobjs' & Hheap' & Hbrk').
    + intros b Hb. specialize (Hlow b Hb). lia.
    + rewrite Hobj1, Hobjs. apply insert_insert_eq.
    + exact Hheap1.
    + exists v', buf'. split; [exact Hown'|]. split; [exact Hobjs'|].
      split; [exact Hheap'|lia].
Qed.

(** X14.  No leak over a lifetime.  Construct a container at a free
    address (by any of the four constructors), run any sequence of calls
    on it, some of which may throw, then run the destructor: the
    destructor succeeds, and what is left is the memory the constructor
    started from, with the same objects and the same live blocks.  Every
    block the container allocated on the way has been freed, and no other
    block was touched. *)
Theorem lifetime_no_leak
  (s0 s1 : state) (this : nat) (cs : list operation) :
  all_wf s0 -> heap_closed s0 -> objs s0 !! this = None ->
  Vector_default this s0 = (Ret tt, s1) \/
  (exists n, Vector_sized this n s0 = (Ret tt, s1)) \/
  (exists init, Vector_init this init s0 = (Ret tt, s1)) \/
  (exists other, is_Some (objs s0 !! other) /\
                 Vector_copy this other s0 = (Ret tt, s1)) ->
  Forall well_typed cs ->
  exists s3,
    Vector_destroy this (exec_all this cs s1) = (Ret tt, s3) /\
    objs s3 = objs s0 /\ heap s3 = heap s0 /\
    (brk s0 < brk s3)%nat /\ heap_closed s3.
Proof.
  intros Hall Hclosed Hfree Hctor Hcs.
  destruct (construct_shape s0 this s1 Hall Hctor)
    as (v & buf & -> & Hval & Hlen & Hinv & Hmax).
  assert (heap s0 !! brk s0 = None) as Hnone.
  { destruct (heap s0 !! brk s0) eqn:E; [|reflexivity].
    assert (brk s0 < brk s0)%nat by (apply Hclosed; eauto). lia. }
  set (s1 := mkState (<[this := v]> (objs s0)) (<[brk s0 := buf]> (heap s0))
                     (S (brk s0))).
  destruct (exec_all_rest this (objs s0) (heap s0) cs s1 v buf)
    as (v' & buf' & Hown' & Hobjs' & Hheap' & Hbrk'); unfold s1; proj.
  - constructor; proj; [look|rewrite Hval; look|exact Hlen|lia].
  - exact Hinv.
  - exact Hmax.
  - exact Hcs.
  - intros b Hb. specialize (Hclosed b Hb). lia.
  - reflexivity.
  - rewrite Hval, delete_insert_eq. now apply delete_id.
  - fold s1 in Hown', Hobjs', Hheap', Hbrk' |- *.
    destruct (exec_all this cs s1) as [o2 h2 n2] eqn:E. proj_all.
    eexists. split; [apply Vector_destroy_eq, Hown'|]. proj.
    split; [rewrite Hobjs', delete_insert_eq; now apply delete_id|].
    unfold s1 in Hbrk'. proj_all.
    split; [exact Hheap'|]. split; [lia|].
    intros b Hb. proj_all. rewrite Hheap' in Hb.
    specialize (Hclosed b Hb). lia.
Qed.

(** X15.  Copy assignment always moves the target to a new block.  For
    distinct live containers, when the allocator grants a buffer of the
    source's capacity, [this = src] returns; the target's buffer then is
    the block the allocator handed out next, its old block is freed,
    whatever capacity it had, and exactly one block was allocated.  The
    source's fields and every block other than the target's old one are
    as before.  (What a refusal leaves is X16.) *)
Theorem assign_blocks (s : state) (this src : nat) (c : Z) :
  all_valid s -> this <> src -> is_Some (objs s !! this) ->
  capacity src s = (Ret c, s) -> c <= max_alloc ->
  exists old s',
    get_values this s = (Ret old, s) /\
    operator_assign this src s = (Ret tt, s') /\
    get_values this s' = (Ret (brk s), s') /\
    capacity this s' = (Ret c, s') /\
    heap s' !! old = None /\ brk s' = S (brk s) /\
    (forall o, o <> this -> objs s' !! o = objs s !! o) /\
    (forall b, b <> old -> (b < brk s)%nat -> heap s' !! b = heap s !! b).
Proof.
  intros Hall Hne [vt Hvt] Hcap Hgrant.
  destruct (capacity_live s src c Hcap) as [vo Hvo].
  unfold capacity in Hcap. erewrite get_max_sz_eq in Hcap by exact Hvo.
  inversion Hcap; subst c. clear Hcap.
  destruct s as [o h n].
  destruct (proj1 Hall src vo Hvo) as (bo & Howno & [Hsz Hmin] & Hmax).
  destruct (proj1 Hall this vt Hvt) as (bt & Hownt & _).
  pose proof (proj2 Hall this src vt vo Hne Hvt Hvo) as Hsep.
  open_owns Howno. open_owns Hownt.
  eexists (values vt), _.
  split; [now apply get_values_eq|].
  split; [eapply operator_assign_eq; eauto; lia|].
  split; [now erewrite get_values_eq by look|].
  split; [unfold capacity; now erewrite get_max_sz_eq by look|].
  proj. split; [rewrite lookup_insert_ne by lia; apply lookup_delete_eq|].
  split; [reflexivity|].
  split; intros; [now rewrite lookup_insert_ne|].
  rewrite lookup_insert_ne by lia. now rewrite lookup_delete_ne.
Qed.

(** X16.  Copy assignment is not atomic under allocation failure.  The
    code overwrites [sz] and [max_sz] before it asks for the new buffer,
    so when the allocator refuses a buffer of the source's capacity, the
    call throws [bad_alloc] with the target already claiming the source's
    size and capacity over its old buffer. *)
Theorem assign_alloc_failure
  (s : state) (this src : nat) (vt vs : Vector) :
  this <> src ->
  objs s !! this = Some vt -> objs s !! src = Some vs ->
  max_alloc < max_sz vs ->
  operator_assign this src s
  = (Throw bad_alloc,
     mkState (<[this := mkVector (sz vs) (max_sz vs) (values vt)]> (objs s))
             (heap s) (brk s)).
Proof.
  intros Hne Ht Hs Hno. destruct s as [o h n]. proj_all.
  unfold operator_assign. rewrite decide_True by done. msteps.
  erewrite bind_Throw by (apply make_unique_fail; exact Hno).
  now rewrite insert_insert_eq.
Qed.

(** X17.  [pop_back()] on a container showing [l ++ [x]] succeeds and
    leaves it showing [l].  It only decrements [sz]: no block changes, the
    removed value still sits in the slot [end()] now points to, and
    [capacity()] is as before. *)
Theorem pop_back_effect
  (s : state) (this : nat) (l : list T) (x : T) (c : Z) :
  wf s this -> observes s this (l ++ [x]) ->
  capacity this s = (Ret c, s) ->
  exists s' e,
    pop_back this s = (Ret tt, s') /\
    observes s' this l /\
    capacity this s' = (Ret c, s') /\
    heap s' = heap s /\ brk s' = brk s /\
    end_ this s' = (Ret e, s') /\
    operator_star (to_ConstIterator e) s' = (Ret x, s') /\
    wf s' this.
Proof.
  intros Hwf Hobs Hcap.
  destruct (wf_view s this _ c Hwf Hobs Hcap)
    as (v & buf & Hown & Hinv & Hmax & Hl & -> & Hlen).
  pose proof Hinv as [Hsz Hmin].
  rewrite length_app in Hlen. simpl in Hlen.
  pose proof Hown as Hown'. open_owns Hown'.
  set (v' := mkVector (sz v - 1) (max_sz v) (values v)).
  assert (owns (mkState (<[this := v']> o) h n) this v' buf) as Hown1
    by (constructor; proj; [look|look|exact Hlen0|exact Hn]).
  assert (elems v' buf = l /\ buf !! Z.to_nat (sz v - 1) = Some x)
    as [Hel Hx].
  { unfold elems in Hl |- *. unfold v'. proj.
    assert (take (Z.to_nat (sz v - 1)) (take (Z.to_nat (sz v)) buf) = l)
      as Ht.
    { rewrite <- Hl. rewrite take_app_length'; [reflexivity|lia]. }
    rewrite take_take, Nat.min_l in Ht by lia. split; [exact Ht|].
    assert (take (Z.to_nat (sz v)) buf !! Z.to_nat (sz v - 1) = Some x)
      as Hx.
    { rewrite <- Hl. rewrite lookup_app_r by lia.
      replace (Z.to_nat (sz v - 1) - length l)%nat with 0%nat by lia.
      reflexivity. }
    now apply lookup_take_Some in Hx as [? _]. }
  eexists _, (mkIterator (Ptr (values v) (sz v - 1))).
  split; [eapply pop_back_eq; eauto; lia|].
  split; [rewrite <- Hel; apply owns_observes;
          [exact Hown1|unfold v'; proj; lia]|].
  split; [now erewrite owns_capacity by exact Hown1|].
  split; [reflexivity|]. split; [reflexivity|].
  split; [apply (end_eq _ this v'); look|].
  split.
  { unfold operator_star, to_ConstIterator. proj.
    eapply read_eq; [exact Hh|lia|exact Hx]. }
  eapply wf_intro; [exact Hown1| |exact Hmax].
  unfold inv, v', min_capacity in *. proj. lia.
Qed.

Lemma visit_from_eq o h n b (buf : list T) (z : nat) :
  h !! b = Some buf -> (z <= length buf)%nat ->
  forall fuel (k : nat) acc,
    (k <= z)%nat ->
    visit_from fuel (mkConstIterator (Ptr b (Z.of_nat k)))
               (mkConstIterator (Ptr b (Z.of_nat z))) acc (mkState o h n)
    = (Ret (if decide (z - k <= fuel)%nat
            then Some (acc ++ drop k (take z buf))
            else None),
       mkState o h n).
Proof.
  intros Hb Hz.
  induction fuel as [|f IH]; intros k acc Hk.
  - cbn [visit_from]. unfold ConstIterator_ne. proj.
    destruct (decide (k = z)) as [->|Hne].
    + rewrite bool_decide_eq_true_2 by reflexivity. cbn [negb].
      rewrite decide_True by lia.
      rewrite drop_ge by (rewrite length_take; lia).
      now rewrite app_nil_r.
    + rewrite bool_decide_eq_false_2 by (intros E; inversion E; lia).
      cbn [negb]. now rewrite decide_False by lia.
  - cbn [visit_from]. unfold ConstIterator_ne. proj.
    destruct (decide (k = z)) as [->|Hne].
    + rewrite bool_decide_eq_true_2 by reflexivity. cbn [negb].
      rewrite decide_True by lia.
      rewrite drop_ge by (rewrite length_take; lia).
      now rewrite app_nil_r.
    + rewrite bool_decide_eq_false_2 by (intros E; inversion E; lia).
      cbn [negb].
      destruct (lookup_lt_is_Some_2 buf k) as [x Hx]; [lia|].
      mstep by (unfold operator_star; proj; eapply read_eq;
                [exact Hb|lia|rewrite Nat2Z.id; exact Hx]).
      unfold ConstIterator_incr. proj.
      replace (Z.of_nat k + 1) with (Z.of_nat (S k)) by lia.
      rewrite IH by lia.
      assert (drop k (take z buf) = x :: drop (S k) (take z buf)) as ->.
      { apply drop_S. rewrite lookup_take_lt by lia. exact Hx. }
      rewrite <- app_assoc. simpl.
      destruct (decide (z - S k <= f)%nat), (decide (z - k <= S f)%nat);
        (reflexivity || lia).
Qed.

(** X18.  Traversal.  The loop from [begin()] to [end()] over a read-only
    container, stepping with [operator++], testing with [operator!=] and
    reading with [operator*], visits exactly the elements the container
    shows, in index order, and stops after [size()] rounds; it leaves the
    state as it was.  Cut short after fewer rounds, it has not reached
    [end()]. *)
Theorem range_for_visits (s : state) (this : nat) (l : list T) (fuel : nat) :
  wf s this -> observes s this l ->
  range_for fuel this s
  = (Ret (if decide (length l <= fuel)%nat then Some l else None), s).
Proof.
  intros Hwf Hobs.
  destruct Hwf as (v & buf & Hown & [Hsz Hmin] & Hmax).
  assert (l = elems v buf) as ->
    by (eapply observes_inj; eauto; now apply owns_observes).
  assert (length (elems v buf) = Z.to_nat (sz v)) as Hlen.
  { unfold elems. rewrite length_take. destruct Hown. lia. }
  pose proof Hown as Hown'. open_owns Hown'.
  unfold range_for.
  mstep by (unfold begin_const; now msteps).
  mstep by (unfold end_const; now msteps).
  rewrite <- (Z2Nat.id (sz v)) by lia.
  change 0 with (Z.of_nat 0).
  rewrite (visit_from_eq o h n (values v) buf) by (eauto; lia).
  rewrite Nat.sub_0_r, drop_0, Hlen. reflexivity.
Qed.

Lemma insert_foreign s this v pos val :
  objs s !! this = Some v -> blk (cit_ptr pos) <> values v ->
  insert this pos val s = (Undef, s).
Proof.
  intros Ho Hne. unfold insert.
  mstep by (eapply begin_eq; exact Ho).
  erewrite bind_Undef; [reflexivity|].
  unfold operator_minus, ptr_diff, to_ConstIterator. proj.
  now rewrite decide_False.
Qed.

Lemma erase_foreign s this v pos :
  objs s !! this = Some v -> blk (cit_ptr pos) <> values v ->
  erase this pos s = (Undef, s).
Proof.
  intros Ho Hne. unfold erase.
  mstep by (eapply begin_eq; exact Ho).
  erewrite bind_Undef; [reflexivity|].
  unfold operator_minus, ptr_diff, to_ConstIterator. proj.
  now rewrite decide_False.
Qed.

(** X20.  Cursors that do not point into the container's present buffer.
    [insert] and [erase] find the position by subtracting [begin()] from
    the cursor they are given.  With a cursor into any other block, such
    as the buffer of another container, that subtraction is undefined, and
    so is the call, for every value.  The same holds for a cursor the
    container itself handed out before it reallocated: after a
    [reserve(n)] that grows the buffer, [insert] and [erase] at
    [b + d], with [b] the [begin()] taken before, are undefined for every
    [d]. *)
Theorem foreign_cursor (s : state) (this : nat) :
  valid s this ->
  exists b,
    begin this s = (Ret b, s) /\
    (forall pos val, blk (cit_ptr pos) <> blk (it_ptr b) ->
       insert this pos val s = (Undef, s) /\
       erase this pos s = (Undef, s)) /\
    (forall n c, capacity this s = (Ret c, s) -> c < n <= max_alloc ->
       exists s',
         reserve this n s = (Ret tt, s') /\
         forall d val,
           insert this (to_ConstIterator (advance b d)) val s'
           = (Undef, s') /\
           erase this (to_ConstIterator (advance b d)) s' = (Undef, s')).
Proof.
  intros (v & buf & Hown & [Hsz Hmin] & Hmax).
  exists (mkIterator (Ptr (values v) 0)).
  split; [apply begin_eq, Hown|]. split.
  - intros pos val Hne. proj_all. split.
    + eapply insert_foreign; [apply Hown|exact Hne].
    + eapply erase_foreign; [apply Hown|exact Hne].
  - intros z c Hcap Hz.
    erewrite owns_capacity in Hcap by exact Hown. inversion Hcap; subst c.
    pose proof Hown as Hown'. open_owns Hown'.
    eexists. split; [apply reserve_grow; eauto; lia|].
    intros d val. unfold advance, to_ConstIterator. proj. split.
    + eapply insert_foreign; [look|proj; lia].
    + eapply erase_foreign; [look|proj; lia].
Qed.

(** X21.  The object a refused copy assignment leaves is not a valid
    container.  When the allocator refuses a buffer of the source's
    capacity, the target reports the source's [size()] and [capacity()]
    over its old buffer; at every index below that size that lies past
    the old buffer, reading or assigning [c[i]] passes the bounds check
    and then runs off the buffer. *)
Theorem assign_torn_object
  (s : state) (this src : nat) (vt vs : Vector) (bt : list T) (i : Z) :
  this <> src ->
  owns s this vt bt -> objs s !! src = Some vs ->
  max_alloc < max_sz vs ->
  max_sz vt <= i < sz vs -> 0 <= i ->
  exists s',
    operator_assign this src s = (Throw bad_alloc, s') /\
    size this s' = (Ret (sz vs), s') /\
    capacity this s' = (Ret (max_sz vs), s') /\
    index_get this i s' = (Undef, s') /\
    forall x, index_set this i x s' = (Undef, s').
Proof.
  intros Hne Hown Hs Hno Hi Hi0. open_owns Hown.
  eexists. split; [eapply operator_assign_fail; eauto|].
  split; [unfold size; now erewrite get_sz_eq by look|].
  split; [unfold capacity; now erewrite get_max_sz_eq by look|].
  assert (forall s1, s1 = mkState (<[this := mkVector (sz vs) (max_sz vs)
                                               (values vt)]> o) h n ->
                     operator_index this i s1 = (Ret (Ptr (values vt) i), s1))
    as Hidx.
  { intros s1 ->. unfold operator_index. msteps.
    rewrite decide_False by lia. now msteps. }
  assert (bt !! Z.to_nat i = None) as Hout
    by (apply lookup_ge_None; lia).
  split.
  - unfold index_get. mstep by (now apply Hidx).
    unfold read. proj. rewrite Hh, decide_True by lia. now rewrite Hout.
  - intros x. unfold index_set. mstep by (now apply Hidx).
    unfold write. proj. rewrite Hh.
    destruct (decide (0 <= i < Z.of_nat (length bt))); [lia|reflexivity].
Qed.

End Model.








(** * Concrete runs

    The element type is [int] (modelled by [Z], printed in decimal by
    stdpp's [pretty]); the allocator grants arrays of up to a thousand
    slots. *)

(** * Runs under a changing allocator *)

Section Pressure.
Context {T : Type} `{ValueInit T}.

(** The states a program reaches when the allocator answers every request
    as it likes: each call is made under a limit [m] of its own.  The
    program constructs containers (default, sized, from a list, by copy
    of another live container), assigns one live container to another and
    calls operations on live
    containers, handing them values of its own and cursors [begin() + d].
    A call that throws leaves a state the program goes on from, with one
    exception: a copy assignment the allocator refuses leaves a torn
    object, and the run ends there. *)
Inductive run : @state T -> Prop :=
| run_start : run (mkState ∅ ∅ 0)
| run_default m s this r s' :
    m <= ptrdiff_max -> run s ->
    Vector_default m this s = (r, s') -> run s'
| run_sized m s this n r s' :
    m <= ptrdiff_max -> run s ->
    Vector_sized m this n s = (r, s') -> run s'
| run_init m s this init r s' :
    m <= ptrdiff_max -> run s ->
    Vector_init m this init s = (r, s') -> run s'
| run_copy m s this other r s' :
    m <= ptrdiff_max -> run s ->
    this <> other -> is_Some (objs s !! other) ->
    Vector_copy m this other s = (r, s') -> run s'
| run_assign m s this other s' :
    m <= ptrdiff_max -> run s ->
    is_Some (objs s !! this) -> is_Some (objs s !! other) ->
    operator_assign m this other s = (Ret tt, s') -> run s'
| run_exec m s this c r s' :
    m <= ptrdiff_max -> run s ->
    is_Some (objs s !! this) -> well_typed c ->
    exec m this c s = (r, s') -> run s'.

Lemma run_all_valid s : run s -> all_valid s.
Proof.
  induction 1 as [|m s this r s' Hm _ IH Hrun|m s this n r s' Hm _ IH Hrun
                  |m s this init r s' Hm _ IH Hrun
                  |m s this other r s' Hm _ IH _ Ho Hrun
                  |m s this other s' Hm _ IH Ht Ho Hrun
                  |m s this c r s' Hm _ IH Ht Hty Hrun].
  - split; cbn [objs].
    + intros this v Hv. rewrite lookup_empty in Hv. discriminate.
    + intros a b va vb _ Hva. rewrite lookup_empty in Hva. discriminate.
  - exact (proj2 (Vector_default_within m ptrdiff_max Hm s this r s'
                    IH Hrun)).
  - exact (proj2 (Vector_sized_within m ptrdiff_max Hm s this n r s'
                    IH Hrun)).
  - exact (proj2 (Vector_init_within m ptrdiff_max Hm s this init r s'
                    IH Hrun)).
  - exact (proj2 (Vector_copy_within m ptrdiff_max s this other r s'
                    IH Ho Hrun)).
  - exact (proj2 (operator_assign_within m ptrdiff_max s this other
                    (Ret tt) s' IH Ht Ho Hrun) eq_refl).
  - exact (proj2 (exec_within m Hm ptrdiff_max Hm (Z.le_refl _)
                    s this c r s' IH Ht Hty Hrun)).
Qed.

(** X1.  Memory safety of a run under a changing allocator.  In every
    state such a run reaches, and whatever the allocator answers next,
    each further constructor call, copy construction from another live
    container, copy assignment between live containers, member call
    ([clear], [reserve], [shrink_to_fit], [push_back], [pop_back],
    [insert], [erase], indexed assignment) on a live container and indexed
    read returns or throws: none runs into undefined behaviour.  The calls
    are those of [run]: values are objects of the caller's, cursors are
    [begin() + d] for any [d] in the range of [ptrdiff_t], in bounds or
    not.  What lies outside is undefined and stated where it belongs:
    [insert] of a full container's own element (C2), a cursor into
    another block (X20), a call on the object a refused copy assignment
    leaves (X21). *)
Theorem memory_safety (s : state) (m : Z) (this other : nat) :
  run s -> m <= ptrdiff_max ->
  fst (Vector_default m this s) <> Undef /\
  (forall n, fst (Vector_sized m this n s) <> Undef) /\
  (forall init, fst (Vector_init m this init s) <> Undef) /\
  (this <> other -> is_Some (objs s !! other) ->
   fst (Vector_copy m this other s) <> Undef) /\
  (is_Some (objs s !! this) -> is_Some (objs s !! other) ->
   fst (operator_assign m this other s) <> Undef) /\
  (is_Some (objs s !! this) ->
   forall c, well_typed c -> fst (exec m this c s) <> Undef) /\
  (is_Some (objs s !! this) ->
   forall i, 0 <= i -> fst (index_get this i s) <> Undef).
Proof.
  intros Hrun Hm.
  destruct (all_valid_safe m Hm s this other (run_all_valid s Hrun))
    as (Hd & Hs & Hi & Hc & Ha & He & Hg).
  repeat (split; [assumption|]). split; [auto|].
  repeat (split; [assumption|]). assumption.
Qed.

End Pressure.

Module Examples.

Definition limit : Z := 1000.

(** No object, no block. *)
Definition start : @state Z := mkState ∅ ∅ 0.

(** [Vector<int> a{10, 20, 30};] at address 0. *)
Definition abc : @state Z := snd (Vector_init limit 0 [10; 20; 30] start).

(** [Vector<int> f{1, 2, 3, 4, 5};] at address 0: a full container. *)
Definition full : @state Z := snd (Vector_init limit 0 [1; 2; 3; 4; 5] start).

(** [Vector<int> a{1, 2, 3}; a.pop_back();]: the slot after the last
    element still holds 3. *)
Definition popped : @state Z :=
  snd ((Vector_init limit 0 [1; 2; 3];; pop_back 0) start).

(** [Vector<int> e;] at address 0: an empty container. *)
Definition fresh : @state Z := snd (Vector_default limit 0 start).

(** [Vector<int> t(0); t.reserve(12); t.clear(); t.shrink_to_fit();] *)
Definition trimmed : @state Z :=
  snd (exec limit 0 ShrinkToFit
         (snd (exec limit 0 Clear
                 (snd (exec limit 0 (Reserve 12)
                         (snd (Vector_sized limit 0 0 start))))))).

(** An allocator that refuses every request for more than eight slots. *)
Definition tight : Z := 8.

(** [Vector<int> big(12); Vector<int> small;] at addresses 0 and 1. *)
Definition pair : @state Z :=
  snd (Vector_default limit 1 (snd (Vector_sized limit 0 12 start))).

(** [Vector<int> a{1, 2, 3}; a.pop_back(); Vector<int> b{7, 8};] *)
Definition second : @state Z := snd (Vector_init limit 1 [7; 8] popped).

(** Calls on the second container: two of them throw. *)
Definition calls : list (@operation Z) :=
  [PushBack 9; Insert 1 4; Reserve 2000; PushBack 10; PushBack 11;
   PushBack 12; Erase 0; SetAt 50 1; ShrinkToFit; PopBack; Clear].

(** [Vector<int> n{1, ..., 9}; n.reserve(12);]: nine elements at
    capacity 12. *)
Definition nine : @state Z :=
  snd (exec limit 0 (Reserve 12)
         (snd (Vector_init limit 0 [1; 2; 3; 4; 5; 6; 7; 8; 9] start))).

(** [Vector<int> a{1, ..., 7}; a.reserve(12); Vector<int> b;] at
    addresses 0 and 1. *)
Definition seven : @state Z :=
  snd (Vector_default limit 1
         (snd (exec limit 0 (Reserve 12)
                 (snd (Vector_init limit 0 [1; 2; 3; 4; 5; 6; 7] start))))).

Lemma limit_bound : limit <= ptrdiff_max.
Proof. unfold limit, ptrdiff_max. lia. Qed.

Lemma run_pair {A} (c : @M Z A) (s : state) : c s = (fst (c s), snd (c s)).
Proof. apply surjective_pairing. Qed.

Lemma abc_owns : owns abc 0 (mkVector 3 5 0) [10; 20; 30; 0; 0].
Proof. constructor; vm_compute; (reflexivity || lia). Qed.

Lemma full_owns : owns full 0 (mkVector 5 5 0) [1; 2; 3; 4; 5].
Proof. constructor; vm_compute; (reflexivity || lia). Qed.

Lemma popped_owns : owns popped 0 (mkVector 2 5 0) [1; 2; 3; 0; 0].
Proof. constructor; vm_compute; (reflexivity || lia). Qed.

Lemma small_inv s c b : 0 <= s <= c -> 5 <= c <= limit -> 
  inv (mkVector s c b) /\ max_sz (mkVector s c b) <= limit.
Proof. unfold inv, min_capacity. simpl. lia. Qed.

Lemma abc_wf : wf limit abc 0.
Proof.
  destruct (small_inv 3 5 0) as [Hi Hm]; [lia|unfold limit; lia|].
  exact (wf_intro limit _ _ _ _ abc_owns Hi Hm).
Qed.

Lemma full_wf : wf limit full 0.
Proof.
  destruct (small_inv 5 5 0) as [Hi Hm]; [lia|unfold limit; lia|].
  exact (wf_intro limit _ _ _ _ full_owns Hi Hm).
Qed.

Lemma popped_wf : wf limit popped 0.
Proof.
  destruct (small_inv 2 5 0) as [Hi Hm]; [lia|unfold limit; lia|].
  exact (wf_intro limit _ _ _ _ popped_owns Hi Hm).
Qed.

Lemma abc_observes : observes abc 0 [10; 20; 30].
Proof. apply (owns_observes abc 0 _ _ abc_owns). simpl. lia. Qed.

Lemma full_observes : observes full 0 [1; 2; 3; 4; 5].
Proof. apply (owns_observes full 0 _ _ full_owns). simpl. lia. Qed.

Lemma popped_observes : observes popped 0 [1; 2].
Proof. apply (owns_observes popped 0 _ _ popped_owns). simpl. lia. Qed.

Lemma popped_reachable : reachable limit popped.
Proof.
  eapply (reach_exec limit _ 0 PopBack).
  - eapply (reach_init limit start 0 [1; 2; 3]); [apply reach_start|].
    apply run_pair.
  - vm_compute. eauto.
  - exact I.
  - apply run_pair.
Qed.

Lemma fresh_owns : owns fresh 0 (mkVector 0 5 0) [0; 0; 0; 0; 0].
Proof. constructor; vm_compute; (reflexivity || lia). Qed.

Lemma fresh_wf : wf limit fresh 0.
Proof.
  destruct (small_inv 0 5 0) as [Hi Hm]; [lia|unfold limit; lia|].
  exact (wf_intro limit _ _ _ _ fresh_owns Hi Hm).
Qed.

Lemma fresh_observes : observes fresh 0 [].
Proof. apply (owns_observes fresh 0 _ _ fresh_owns). simpl. lia. Qed.

Lemma trimmed_reachable : reachable limit trimmed.
Proof.
  eapply (reach_exec limit _ 0 ShrinkToFit);
    [eapply (reach_exec limit _ 0 Clear);
       [eapply (reach_exec limit _ 0 (Reserve 12));
          [eapply (reach_sized limit start 0 0); [apply reach_start|]|..]
       |..]
    |..];
    try apply run_pair; try exact I;
    try (vm_compute; eauto; fail).
  unfold well_typed, modulus. lia.
Qed.

(** Eleven appends cross the capacities 5 and 10. *)
Lemma append_correctness_witness :
  exists s',
    (Vector_default limit 0;;
     for_each [1; 2; 3; 4; 5; 6; 7; 8; 9; 10; 11] (push_back limit 0)) start
    = (Ret tt, s') /\
    observes s' 0 [1; 2; 3; 4; 5; 6; 7; 8; 9; 10; 11].
Proof.
  apply (@append_correctness Z _ limit limit_bound start 0
           [1; 2; 3; 4; 5; 6; 7; 8; 9; 10; 11]).
  - unfold min_capacity, limit. lia.
  - simpl. unfold limit. lia.
Defined.

(** [Vector<int> f{1, 2, 3, 4, 5}; f.erase(f.insert(f.begin(), f[4]));] *)
Lemma insert_erase_self_reference_witness :
  exists s',
    insert_element limit 0 0 4 full = (Undef, s') /\
    (it ← insert_element limit 0 0 4; erase 0 (to_ConstIterator it)) full
    = (Undef, s').
Proof.
  apply (@insert_erase_self_reference Z _ limit limit_bound full 0
           [1; 2; 3; 4; 5] 5 0 4 full_wf full_observes).
  - vm_compute. reflexivity.
  - reflexivity.
  - unfold limit. lia.
  - simpl. lia.
  - simpl. lia.
Defined.

(** A value of the caller's into a full container; the container's own
    last element into one with room. *)
Lemma insert_erase_round_trip_witness :
  (exists it s1 it' s2,
     insert_from_begin limit 0 2 99 full = (Ret it, s1) /\
     observes s1 0 (insert_at [1; 2; 3; 4; 5] (Z.to_nat 2) 99) /\
     erase 0 (to_ConstIterator it) s1 = (Ret it', s2) /\
     observes s2 0 [1; 2; 3; 4; 5] /\ wf limit s2 0) /\
  (exists it s1 it' s2,
     insert_element limit 0 0 2 abc = (Ret it, s1) /\
     erase 0 (to_ConstIterator it) s1 = (Ret it', s2) /\
     observes s2 0 [10; 20; 30] /\ wf limit s2 0).
Proof.
  destruct (@insert_erase_round_trip Z _ limit limit_bound full 0
              [1; 2; 3; 4; 5] 5 2 full_wf full_observes)
    as (Hvalue & _); [vm_compute; reflexivity|simpl; lia|].
  destruct (@insert_erase_round_trip Z _ limit limit_bound abc 0
              [10; 20; 30] 5 0 abc_wf abc_observes)
    as (_ & Helement); [vm_compute; reflexivity|simpl; lia|].
  split.
  - apply Hvalue. right. unfold limit. lia.
  - apply Helement; simpl; lia.
Defined.

Lemma bounds_signaling_witness :
  operator_index 0 3 abc = (Throw (runtime_error "Index out of bounds"), abc) /\
  pop_back 0 fresh
  = (Throw (runtime_error "Cannot pop from empty vector"), fresh) /\
  insert_from_begin limit 0 4 7 abc
  = (Throw (runtime_error "Iterator out of bounds"), abc) /\
  insert_from_begin limit 0 (-1) 7 abc
  = (Throw (runtime_error "Iterator out of bounds"), abc) /\
  erase_from_begin 0 3 abc
  = (Throw (runtime_error "Iterator out of bounds"), abc).
Proof.
  destruct (@bounds_signaling Z _ limit abc 0 [10; 20; 30]
              abc_wf abc_observes) as (Hidx & _ & Hins & Hera).
  destruct (@bounds_signaling Z _ limit fresh 0 []
              fresh_wf fresh_observes) as (_ & Hpop & _).
  assert (in_ptrdiff 4 /\ in_ptrdiff (-1) /\ in_ptrdiff 3)
    as (H4 & Hm1 & H3)
    by (unfold in_ptrdiff, ptrdiff_min, ptrdiff_max; lia).
  split; [|split; [|split; [|split]]].
  - apply Hidx. simpl. lia.
  - now apply Hpop.
  - apply Hins; [exact H4|right; simpl; lia].
  - apply Hins; [exact Hm1|left; lia].
  - apply Hera; [exact H3|right; simpl; lia].
Defined.

Lemma invariant_always_witness :
  invariant trimmed 0 /\ invariant popped 0 /\
  size 0 trimmed = (Ret 0, trimmed) /\ capacity 0 trimmed = (Ret 5, trimmed).
Proof.
  split; [|split; [|split; vm_compute; reflexivity]].
  - apply (@invariant_always Z _ limit limit_bound trimmed 0
             trimmed_reachable).
    vm_compute. eauto.
  - apply (@invariant_always Z _ limit limit_bound popped 0 popped_reachable).
    vm_compute. eauto.
Defined.

Lemma from_list_construction_witness :
  exists s',
    Vector_init limit 0 [10; 20; 30] start = (Ret tt, s') /\
    size 0 s' = (Ret 3, s') /\
    capacity 0 s' = (Ret 5, s') /\
    observes s' 0 [10; 20; 30] /\
    owns s' 0 (mkVector 3 5 0) [10; 20; 30; 0; 0] /\
    wf limit s' 0.
Proof.
  apply (@from_list_construction Z _ limit start 0 [10; 20; 30]).
  vm_compute. discriminate.
Defined.

(** C5 as stated fails on a three-element list: [size()] is 3, not
    [max 3 5 = 5], and differs from [capacity()]. *)
Lemma from_list_size_counterexample :
  exists s',
    Vector_init limit 0 [10; 20; 30] start = (Ret tt, s') /\
    size 0 s' = (Ret 3, s') /\
    capacity 0 s' = (Ret 5, s') /\
    size 0 s'
    <> (Ret (Z.max (Z.of_nat (length [10; 20; 30])) min_capacity), s').
Proof.
  exists abc. repeat split; try (vm_compute; reflexivity).
  vm_compute. discriminate.
Qed.

Lemma reserve_and_growth_witness :
  reserve limit 0 3 full = (Ret tt, full) /\
  (exists s', reserve limit 0 12 full = (Ret tt, s') /\
              capacity 0 s' = (Ret 12, s') /\
              observes s' 0 [1; 2; 3; 4; 5] /\ wf limit s' 0) /\
  (exists s', push_back limit 0 6 full = (Ret tt, s') /\
              capacity 0 s' = (Ret (5 * 2), s') /\
              size 0 s' = (Ret (5 + 1), s') /\
              index_get 0 5 s' = (Ret 6, s') /\
              observes s' 0 [1; 2; 3; 4; 5; 6] /\ wf limit s' 0).
Proof.
  destruct (@reserve_and_growth Z _ limit limit_bound full 0
              [1; 2; 3; 4; 5] 5 full_wf full_observes)
    as (Hnoop & Hgrow & Hpush); [vm_compute; reflexivity|].
  split; [apply Hnoop; lia|].
  split; [apply Hgrow; unfold limit; lia|].
  apply Hpush; [reflexivity|unfold limit; lia].
Defined.

Lemma popped_all_wf : all_wf limit popped.
Proof. exact (reachable_all_wf limit limit_bound popped popped_reachable). Qed.

Lemma copy_semantics_witness :
  (exists s', Vector_copy limit 1 0 popped = (Ret tt, s') /\
              is_copy limit s' 1 0 [1; 2] 5) /\
  (is_Some (objs popped !! 1%nat) ->
   exists s', operator_assign limit 1 0 popped = (Ret tt, s') /\
              is_copy limit s' 1 0 [1; 2] 5) /\
  (forall s' cs, is_copy limit s' 1 0 [1; 2] 5 ->
     Forall well_typed cs ->
     observes (exec_all limit 1 cs s') 0 [1; 2] /\
     observes (exec_all limit 0 cs s') 1 [1; 2]) /\
  operator_assign limit 0 0 popped = (Ret tt, popped).
Proof.
  apply (@copy_semantics Z _ limit limit_bound popped 1 0 [1; 2] 5
           popped_all_wf).
  - discriminate.
  - exact popped_observes.
  - vm_compute. reflexivity.
Defined.

(** C7 as stated fails past the length: after [a{1, 2, 3}; a.pop_back();
    Vector b(a);] slot 2 lies inside both capacities, holds 3 in [a]'s
    buffer and the value-initialised 0 in [b]'s.  [*a.end()] and
    [*b.end()] read exactly those slots. *)
Lemma copy_capacity_counterexample :
  exists s' va vb,
    (Vector_init limit 0 [1; 2; 3];; pop_back 0;; Vector_copy limit 1 0) start
    = (Ret tt, s') /\
    objs s' !! 0%nat = Some va /\ objs s' !! 1%nat = Some vb /\
    2 < max_sz va /\ max_sz vb = max_sz va /\
    read (Ptr (values va) 2) s' = (Ret 3, s') /\
    read (Ptr (values vb) 2) s' = (Ret 0, s') /\
    (e ← end_ 0; operator_star (to_ConstIterator e)) s' = (Ret 3, s') /\
    (e ← end_ 1; operator_star (to_ConstIterator e)) s' = (Ret 0, s').
Proof.
  eexists _, (mkVector 2 5 0), (mkVector 2 5 1).
  split; [vm_compute; reflexivity|].
  repeat split; try (vm_compute; reflexivity).
Qed.

Lemma formatting_witness :
  operator_shl "" 0 abc = (Ret "[10, 20, 30]", abc) /\
  operator_shl "" 0 popped = (Ret "[1, 2]", popped) /\
  operator_shl "v = " 0 fresh = (Ret "v = []", fresh).
Proof.
  split; [|split].
  - exact (proj1 (@formatting Z limit _ limit_bound abc 0 [10; 20; 30] ""
                    abc_wf abc_observes)).
  - exact (proj1 (@formatting Z limit _ limit_bound popped 0 [1; 2] ""
                    popped_wf popped_observes)).
  - exact (proj2 (@formatting Z limit _ limit_bound fresh 0 [] "v = "
                    fresh_wf fresh_observes) eq_refl).
Defined.

Lemma capacity_frame_witness :
  (exists s', pop_back 0 abc = (Ret tt, s') /\
              capacity 0 s' = (Ret 5, s')) /\
  (exists it s', erase_from_begin 0 1 abc = (Ret it, s') /\
                 capacity 0 s' = (Ret 5, s')) /\
  (exists s', push_back limit 0 40 abc = (Ret tt, s') /\
              capacity 0 s' = (Ret 5, s') /\ brk s' = brk abc) /\
  (exists it s', insert_from_begin limit 0 2 25 abc = (Ret it, s') /\
                 capacity 0 s' = (Ret 5, s') /\ brk s' = brk abc).
Proof.
  destruct (@capacity_frame Z _ limit limit_bound abc 0 [10; 20; 30] 5
              abc_wf abc_observes)
    as (Hpop & Hera & Hpush & Hins); [vm_compute; reflexivity|].
  split; [apply Hpop; discriminate|].
  split; [apply Hera; simpl; lia|].
  split; [apply Hpush; simpl; lia|].
  apply Hins; simpl; lia.
Defined.

(** The push finds the container full and doubles its capacity. *)
Lemma push_pop_round_trip_witness :
  exists s',
    (push_back limit 0 6;; pop_back 0) full = (Ret tt, s') /\
    observes s' 0 [1; 2; 3; 4; 5] /\ wf limit s' 0.
Proof.
  apply (@push_pop_round_trip Z _ limit limit_bound full 0
           [1; 2; 3; 4; 5] 5 6 full_wf full_observes).
  - vm_compute. reflexivity.
  - right. unfold limit. lia.
Defined.

(** The scenario of the specification: build [10, 20, 30], append 40,
    insert 25 before 30, erase the first element, printing after each
    step. *)
Example scenario :
  fst ((Vector_init limit 0 [10; 20; 30];;
        t1 ← operator_shl "" 0;
        n1 ← size 0;
        push_back limit 0 40;;
        t2 ← operator_shl "" 0;
        n2 ← size 0;
        insert_from_begin limit 0 2 25;;
        t3 ← operator_shl "" 0;
        erase_from_begin 0 0;;
        t4 ← operator_shl "" 0;
        ret ([t1; t2; t3; t4], [n1; n2])) start)
  = Ret (["[10, 20, 30]"; "[10, 20, 30, 40]"; "[10, 20, 25, 30, 40]";
          "[20, 25, 30, 40]"], [3; 4]).
Proof. vm_compute. reflexivity. Qed.

Lemma tight_bound : tight <= ptrdiff_max.
Proof. unfold tight, ptrdiff_max. lia. Qed.

Lemma full_wf_tight : wf tight full 0.
Proof.
  refine (wf_intro tight _ _ _ _ full_owns _ _);
    unfold inv, min_capacity, tight; simpl; lia.
Qed.

Lemma pair_reachable : reachable limit pair.
Proof.
  eapply (reach_default limit _ 1);
    [eapply (reach_sized limit start 0 12); [apply reach_start|]|];
    apply run_pair.
Qed.

Lemma pair_all_wf : all_wf limit pair.
Proof. exact (reachable_all_wf limit limit_bound pair pair_reachable). Qed.

Lemma popped_heap_closed : heap_closed popped.
Proof.
  intros b [x Hb].
  destruct (decide (b = 0%nat)) as [->|Hne]; [vm_compute; lia|].
  assert (heap popped = <[0%nat := [1; 2; 3; 0; 0]]> ∅) as E
    by (vm_compute; reflexivity).
  rewrite E, lookup_insert_ne in Hb by congruence. discriminate.
Qed.

Lemma calls_typed : Forall well_typed calls.
Proof.
  unfold calls.
  repeat constructor;
    unfold well_typed, in_ptrdiff, ptrdiff_min, ptrdiff_max, modulus; lia.
Qed.

Lemma pair_run : run pair.
Proof.
  eapply (run_default tight _ 1);
    [exact tight_bound
    |eapply (run_sized limit start 0 12);
       [exact limit_bound|apply run_start|apply run_pair]
    |].
  vm_compute. reflexivity.
Qed.

(** Under the tighter limit, copying the container of capacity 12 and
    assigning from it are refused, and [shrink_to_fit] on it is granted. *)
Lemma memory_safety_witness :
  fst (Vector_copy tight 2 0 pair) <> Undef /\
  fst (operator_assign tight 1 0 pair) <> Undef /\
  fst (exec tight 0 ShrinkToFit pair) <> Undef /\
  fst (exec tight 0 (Insert 7 9) pair) <> Undef /\
  fst (index_get 0 4 pair) <> Undef.
Proof.
  destruct (@memory_safety Z _ pair tight 2 0 pair_run tight_bound)
    as (_ & _ & _ & Hcopy & _).
  destruct (@memory_safety Z _ pair tight 1 0 pair_run tight_bound)
    as (_ & _ & _ & _ & Hassign & _).
  destruct (@memory_safety Z _ pair tight 0 0 pair_run tight_bound)
    as (_ & _ & _ & _ & _ & Hexec & Hidx).
  split; [apply Hcopy; [discriminate|vm_compute; eauto]|].
  split; [apply Hassign; vm_compute; eauto|].
  split; [apply Hexec; [vm_compute; eauto|exact I]|].
  split.
  - apply Hexec; [vm_compute; eauto|].
    unfold well_typed, in_ptrdiff, ptrdiff_min, ptrdiff_max. lia.
  - apply Hidx; [vm_compute; eauto|lia].
Defined.

Lemma construct_empty_witness :
  (exists s',
     Vector_sized limit 0 12 start = (Ret tt, s') /\
     observes s' 0 [] /\ empty 0 s' = (Ret true, s') /\
     capacity 0 s' = (Ret (Z.max 12 min_capacity), s') /\ wf limit s' 0) /\
  Vector_sized limit 0 2000 start = (Throw bad_alloc, start).
Proof.
  destruct (@construct_empty Z _ limit start 0 12) as (Hok & _ & _).
  destruct (@construct_empty Z _ limit start 0 2000) as (_ & Hno & _).
  split; [apply Hok|apply Hno]; unfold min_capacity, limit; lia.
Defined.

Lemma clear_effect_witness :
  empty 0 abc = (Ret false, abc) /\
  exists s',
    clear 0 abc = (Ret tt, s') /\ observes s' 0 [] /\
    empty 0 s' = (Ret true, s') /\ capacity 0 s' = (Ret 5, s') /\
    heap s' = heap abc /\ brk s' = brk abc /\ wf limit s' 0.
Proof.
  apply (@clear_effect Z limit abc 0 [10; 20; 30] 5 abc_wf abc_observes).
  vm_compute. reflexivity.
Defined.

Lemma nine_owns : owns nine 0 (mkVector 9 12 1)
                         [1; 2; 3; 4; 5; 6; 7; 8; 9; 0; 0; 0].
Proof. constructor; vm_compute; (reflexivity || lia). Qed.

Lemma nine_valid : valid nine 0.
Proof.
  exists (mkVector 9 12 1), [1; 2; 3; 4; 5; 6; 7; 8; 9; 0; 0; 0].
  split; [exact nine_owns|].
  unfold inv, min_capacity, ptrdiff_max. simpl. lia.
Qed.

Lemma nine_observes : observes nine 0 [1; 2; 3; 4; 5; 6; 7; 8; 9].
Proof. apply (owns_observes nine 0 _ _ nine_owns). simpl. lia. Qed.

(** A full container stays where it is.  A container of three elements at
    capacity 5 moves to a new block of five slots.  Nine elements at
    capacity 12 cannot move while the allocator grants at most eight
    slots. *)
Lemma shrink_to_fit_effect_witness :
  shrink_to_fit limit 0 full = (Ret tt, full) /\
  (exists s' old,
     shrink_to_fit limit 0 abc = (Ret tt, s') /\
     observes s' 0 [10; 20; 30] /\
     capacity 0 s' = (Ret 5, s') /\
     get_values 0 abc = (Ret old, abc) /\
     get_values 0 s' = (Ret (brk abc), s') /\
     heap s' !! old = None /\ brk s' = S (brk abc) /\ wf limit s' 0) /\
  shrink_to_fit tight 0 nine = (Throw bad_alloc, nine).
Proof.
  destruct (@shrink_to_fit_effect Z _ limit full 0 [1; 2; 3; 4; 5] 5
              (wf_valid limit limit_bound full 0 full_wf) full_observes)
    as (Hsame & _); [vm_compute; reflexivity|].
  destruct (@shrink_to_fit_effect Z _ limit abc 0 [10; 20; 30] 5
              (wf_valid limit limit_bound abc 0 abc_wf) abc_observes)
    as (_ & Hmove & _); [vm_compute; reflexivity|].
  destruct (@shrink_to_fit_effect Z _ tight nine 0
              [1; 2; 3; 4; 5; 6; 7; 8; 9] 12 nine_valid nine_observes)
    as (_ & _ & Hrefused); [vm_compute; reflexivity|].
  split; [apply Hsame; reflexivity|].
  split; [apply Hmove; [simpl; lia|unfold min_capacity, limit; simpl; lia]|].
  apply Hrefused; [simpl; lia|unfold min_capacity, tight; simpl; lia].
Defined.

Lemma index_assignment_witness :
  (exists s',
     index_set 0 1 99 abc = (Ret tt, s') /\
     observes s' 0 [10; 99; 30] /\
     index_get 0 1 s' = (Ret 99, s') /\
     capacity 0 s' = (Ret 5, s') /\ wf limit s' 0) /\
  index_set 0 3 99 abc = (Throw (runtime_error "Index out of bounds"), abc).
Proof.
  destruct (@index_assignment Z limit abc 0 [10; 20; 30] 5 1 99
              abc_wf abc_observes) as (Hset & _);
    [vm_compute; reflexivity|].
  destruct (@index_assignment Z limit abc 0 [10; 20; 30] 5 3 99
              abc_wf abc_observes) as (_ & Hout);
    [vm_compute; reflexivity|].
  split; [apply Hset; simpl; lia|apply Hout; simpl; lia].
Defined.

Lemma cursor_range_witness :
  exists b e,
    begin 0 abc = (Ret b, abc) /\ end_ 0 abc = (Ret e, abc) /\
    begin_const 0 abc = (Ret (to_ConstIterator b), abc) /\
    end_const 0 abc = (Ret (to_ConstIterator e), abc) /\
    operator_minus (to_ConstIterator e) (to_ConstIterator b) abc
    = (Ret 3, abc) /\
    forall k : nat,
      let it := Nat.iter k operator_incr b in
      (Iterator_eq it (to_ConstIterator e) = true <-> k = 3%nat) /\
      Iterator_ne it (to_ConstIterator e)
      = negb (Iterator_eq it (to_ConstIterator e)) /\
      (forall x, [10; 20; 30] !! k = Some x ->
                 operator_star (to_ConstIterator it) abc = (Ret x, abc)).
Proof.
  exact (@cursor_range Z limit limit_bound abc 0 [10; 20; 30]
           abc_wf abc_observes).
Defined.

(** Insertion of a value into a full container: the buffer moves.
    [Vector<int> a{10, 20, 30}; a.insert(a.begin(), a[2]);] stores 20,
    the element the loop has moved into slot 2. *)
Lemma insert_cursor_witness :
  (exists b it s' b',
     begin 0 full = (Ret b, full) /\
     insert_from_begin limit 0 2 99 full = (Ret it, s') /\
     begin 0 s' = (Ret b', s') /\
     it = advance b' 2 /\
     operator_star (to_ConstIterator it) s' = (Ret 99, s') /\
     capacity 0 s' = (Ret 10, s') /\
     (5 < 5 -> b' = b /\ brk s' = brk full) /\
     (5 = 5 ->
      b' <> b /\ brk s' = S (brk full) /\
      forall k,
        operator_star (to_ConstIterator (advance b k)) s' = (Undef, s'))) /\
  (exists it s',
     insert_element limit 0 0 2 abc = (Ret it, s') /\
     operator_star (to_ConstIterator it) s' = (Ret 20, s') /\
     observes s' 0 [20; 10; 20; 30]).
Proof.
  destruct (@insert_cursor Z _ limit limit_bound full 0 [1; 2; 3; 4; 5] 5 2
              full_wf full_observes)
    as (Hvalue & _); [vm_compute; reflexivity|simpl; lia|].
  destruct (@insert_cursor Z _ limit limit_bound abc 0 [10; 20; 30] 5 0
              abc_wf abc_observes)
    as (_ & Helement); [vm_compute; reflexivity|simpl; lia|].
  split.
  - apply Hvalue. right. unfold limit. lia.
  - apply (Helement 2 20); [simpl; lia|simpl; lia|reflexivity].
Defined.

Lemma erase_effect_witness :
  exists b e' it s',
    begin 0 abc = (Ret b, abc) /\
    erase_from_begin 0 1 abc = (Ret it, s') /\
    it = advance b 1 /\
    begin 0 s' = (Ret b, s') /\
    end_ 0 s' = (Ret e', s') /\
    observes s' 0 [10; 30] /\
    capacity 0 s' = (Ret 5, s') /\ brk s' = brk abc /\
    (Iterator_eq it (to_ConstIterator e') = true <-> 1 = 3 - 1) /\
    (forall y, [10; 20; 30] !! 2%nat = Some y ->
               operator_star (to_ConstIterator it) s' = (Ret y, s')) /\
    wf limit s' 0.
Proof.
  apply (@erase_effect Z limit limit_bound abc 0 [10; 20; 30] 5 1
           abc_wf abc_observes).
  - vm_compute. reflexivity.
  - simpl. lia.
Defined.

(** A full container of capacity 5 under an allocator that grants at most
    eight slots. *)
Lemma allocation_failure_witness :
  reserve tight 0 9 full = (Throw bad_alloc, full) /\
  push_back tight 0 6 full = (Throw bad_alloc, full) /\
  insert_from_begin tight 0 2 6 full = (Throw bad_alloc, full).
Proof.
  destruct (@allocation_failure Z _ tight tight_bound full 0
              [1; 2; 3; 4; 5] 5 full_wf_tight full_observes)
    as (Hres & Hfull); [vm_compute; reflexivity|].
  destruct Hfull as (Hpush & Hins); [reflexivity|unfold tight; lia|].
  split; [apply Hres; unfold tight; lia|].
  split; [apply Hpush|apply Hins; simpl; lia].
Defined.

(** Eleven appends to an empty container of capacity 5. *)
Lemma growth_sequence_witness :
  exists s' (k : nat),
    for_each [1; 2; 3; 4; 5; 6; 7; 8; 9; 10; 11] (push_back limit 0) fresh
    = (Ret tt, s') /\
    observes s' 0 [1; 2; 3; 4; 5; 6; 7; 8; 9; 10; 11] /\
    capacity 0 s' = (Ret (5 * 2 ^ Z.of_nat k), s') /\
    brk s' = (brk fresh + k)%nat /\
    0 + 11 <= 5 * 2 ^ Z.of_nat k /\
    (forall j : nat, (j < k)%nat -> 5 * 2 ^ Z.of_nat j < 0 + 11) /\
    wf limit s' 0.
Proof.
  apply (@growth_sequence Z _ limit limit_bound fresh 0 [] 5
           [1; 2; 3; 4; 5; 6; 7; 8; 9; 10; 11] fresh_wf fresh_observes).
  - vm_compute. reflexivity.
  - simpl. unfold limit. lia.
Defined.

Lemma reserve_then_push_witness :
  exists s1 s' b,
    reserve limit 0 8 abc = (Ret tt, s1) /\
    begin 0 s1 = (Ret b, s1) /\
    for_each [1; 2; 3; 4; 5] (push_back limit 0) s1 = (Ret tt, s') /\
    observes s' 0 [10; 20; 30; 1; 2; 3; 4; 5] /\
    capacity 0 s' = (Ret 8, s') /\
    begin 0 s' = (Ret b, s') /\
    brk s1 = S (brk abc) /\ brk s' = brk s1.
Proof.
  apply (@reserve_then_push Z _ limit limit_bound abc 0 [10; 20; 30] 5 8
           [1; 2; 3; 4; 5] abc_wf abc_observes).
  - vm_compute. reflexivity.
  - unfold limit. lia.
  - simpl. lia.
Defined.

(** On the full container [f{1, 2, 3, 4, 5}]: [f.push_back(f[0])]
    appends 1, [f.insert(f.end(), f[0])] reads freed memory. *)
Lemma insert_at_end_witness :
  ((exists s' it e,
      push_back limit 0 6 full = (Ret tt, s') /\
      insert_from_begin limit 0 5 6 full = (Ret it, s') /\
      end_ 0 s' = (Ret e, s') /\ e = operator_incr it) \/
   (push_back limit 0 6 full = (Throw bad_alloc, full) /\
    insert_from_begin limit 0 5 6 full = (Throw bad_alloc, full))) /\
  (exists s',
     push_back_element limit 0 0 full = (Ret tt, s') /\
     observes s' 0 [1; 2; 3; 4; 5; 1]) /\
  (exists s', insert_element limit 0 5 0 full = (Undef, s')).
Proof.
  destruct (@insert_at_end Z _ limit limit_bound full 0 [1; 2; 3; 4; 5] 5
              full_wf full_observes)
    as (Hvalue & Helement); [vm_compute; reflexivity|].
  split; [exact (Hvalue 6)|].
  destruct (Helement 0%nat 1 eq_refl) as (_ & Hfull & _).
  apply Hfull; [reflexivity|unfold limit; lia].
Defined.

Lemma erase_at_end_witness :
  exists s' it,
    pop_back 0 abc = (Ret tt, s') /\
    erase_from_begin 0 (3 - 1) abc = (Ret it, s') /\
    end_ 0 s' = (Ret it, s').
Proof.
  apply (@erase_at_end Z limit limit_bound abc 0 [10; 20; 30]
           abc_wf abc_observes).
  discriminate.
Defined.

(** A second container lives and dies beside the first one. *)
Lemma lifetime_no_leak_witness :
  exists s3,
    Vector_destroy 1 (exec_all limit 1 calls second) = (Ret tt, s3) /\
    objs s3 = objs popped /\ heap s3 = heap popped /\
    (brk popped < brk s3)%nat /\ heap_closed s3.
Proof.
  apply (@lifetime_no_leak Z _ limit limit_bound popped second 1 calls
           popped_all_wf popped_heap_closed).
  - vm_compute. reflexivity.
  - right. right. left. exists [7; 8]. vm_compute. reflexivity.
  - exact calls_typed.
Defined.

(** The target has capacity 12, the source needs 5: the target still
    moves to a new block. *)
Lemma assign_blocks_witness :
  exists old s',
    get_values 0 pair = (Ret old, pair) /\
    operator_assign limit 0 1 pair = (Ret tt, s') /\
    get_values 0 s' = (Ret (brk pair), s') /\
    capacity 0 s' = (Ret 5, s') /\
    heap s' !! old = None /\ brk s' = S (brk pair) /\
    (forall o, o <> 0%nat -> objs s' !! o = objs pair !! o) /\
    (forall b, b <> old -> (b < brk pair)%nat ->
               heap s' !! b = heap pair !! b).
Proof.
  apply (@assign_blocks Z _ limit pair 0 1 5
           (all_wf_valid limit limit_bound pair pair_all_wf)).
  - discriminate.
  - vm_compute. eauto.
  - vm_compute. reflexivity.
  - unfold limit. lia.
Defined.

(** The source was built with capacity 12; the allocator now grants at
    most eight slots.  The target is left with [max_sz = 12] over its
    block of five slots. *)
Lemma assign_alloc_failure_witness :
  operator_assign tight 1 0 pair
  = (Throw bad_alloc,
     mkState (<[1%nat := mkVector 0 12 1]> (objs pair))
             (heap pair) (brk pair)).
Proof.
  apply (@assign_alloc_failure Z _ tight pair 1 0
           (mkVector 0 5 1) (mkVector 0 12 0)).
  - discriminate.
  - vm_compute. reflexivity.
  - vm_compute. reflexivity.
  - unfold tight. simpl. lia.
Defined.

Lemma pop_back_effect_witness :
  exists s' e,
    pop_back 0 abc = (Ret tt, s') /\
    observes s' 0 [10; 20] /\
    capacity 0 s' = (Ret 5, s') /\
    heap s' = heap abc /\ brk s' = brk abc /\
    end_ 0 s' = (Ret e, s') /\
    operator_star (to_ConstIterator e) s' = (Ret 30, s') /\
    wf limit s' 0.
Proof.
  apply (@pop_back_effect Z limit limit_bound abc 0 [10; 20] 30 5
           abc_wf abc_observes).
  vm_compute. reflexivity.
Defined.

Lemma range_for_visits_witness :
  range_for 3 0 abc = (Ret (Some [10; 20; 30]), abc) /\
  range_for 7 0 abc = (Ret (Some [10; 20; 30]), abc) /\
  range_for 2 0 abc = (Ret None, abc).
Proof.
  split; [|split].
  - exact (@range_for_visits Z limit abc 0 [10; 20; 30] 3
             abc_wf abc_observes).
  - exact (@range_for_visits Z limit abc 0 [10; 20; 30] 7
             abc_wf abc_observes).
  - exact (@range_for_visits Z limit abc 0 [10; 20; 30] 2
             abc_wf abc_observes).
Defined.

Lemma pair_valid : valid pair 0.
Proof.
  apply (wf_valid limit limit_bound), (all_wf_wf limit pair 0 pair_all_wf).
  vm_compute. eauto.
Qed.

(** A cursor into the buffer of the other container, and the container's
    own [begin()] taken before [reserve(20)]. *)
Lemma foreign_cursor_witness :
  exists b,
    begin 0 pair = (Ret b, pair) /\
    (forall pos val, blk (cit_ptr pos) <> blk (it_ptr b) ->
       insert limit 0 pos val pair = (Undef, pair) /\
       erase 0 pos pair = (Undef, pair)) /\
    (forall n c, capacity 0 pair = (Ret c, pair) -> c < n <= limit ->
       exists s',
         reserve limit 0 n pair = (Ret tt, s') /\
         forall d val,
           insert limit 0 (to_ConstIterator (advance b d)) val s'
           = (Undef, s') /\
           erase 0 (to_ConstIterator (advance b d)) s' = (Undef, s')).
Proof. exact (@foreign_cursor Z _ limit pair 0 pair_valid). Defined.

Lemma seven_target : owns seven 1 (mkVector 0 5 2) [0; 0; 0; 0; 0].
Proof. constructor; vm_compute; (reflexivity || lia). Qed.

(** The source holds seven elements at capacity 12, the target has five
    slots, and the allocator now grants at most eight: after the refused
    assignment the target claims size 7, and [b[5]] is past its buffer. *)
Lemma assign_torn_object_witness :
  exists s',
    operator_assign tight 1 0 seven = (Throw bad_alloc, s') /\
    size 1 s' = (Ret 7, s') /\
    capacity 1 s' = (Ret 12, s') /\
    index_get 1 5 s' = (Undef, s') /\
    forall x, index_set 1 5 x s' = (Undef, s').
Proof.
  apply (@assign_torn_object Z _ tight seven 1 0
           (mkVector 0 5 2) (mkVector 7 12 1) [0; 0; 0; 0; 0] 5
           ltac:(discriminate) seven_target).
  - vm_compute. reflexivity.
  - unfold tight. simpl. lia.
  - simpl. lia.
  - lia.
Defined.

End Examples.
